(** * pygen: a COFF object-file generator (src/pygen.py)

    A shallow embedding of the generator and of the parts of the Python
    runtime it relies on ([struct.pack], [str.encode], slice assignment on
    a [bytearray], a [dict] keyed by section name), followed by the
    properties of the layout algorithm [COFFGenerator.emit].

    Conventions of the embedding.
    - A Python [int] supplied by the caller is a [Z]; a length ([len]) is a
      [nat].  A [bytes]/[bytearray] value is a [list byte].
    - A Python [str] is the list of its code points ([list N]); [len] counts
      code points and [encode] is UTF-8.
    - An exception is a value [Raise e]; an operation that raises ends the
      run, so the states that are reached are reached through operations
      that returned.
    - [struct.pack] is used in native mode (no prefix character): native
      sizes (B = 1, H = 2, I = 4 bytes), native alignment, and the host byte
      order, which is taken to be little-endian (the byte order of the
      literal [b"\x04\x00\x00\x00"] the generator starts its string table
      with, and of every machine the format targets).
    - The wall clock read by [datetime.now()] is an input: every function
      that reads it takes the reading, already truncated by [int], as an
      argument.
    - [print] writes one line per call: [printBytes] of src/example.py is
      the list of the lines it prints, in order. *)

From Stdlib Require Import ZArith List Lia Ascii.
From coqutil Require Import Byte Word.LittleEndianList.
From stdpp Require Import gmap list strings.

Local Open Scope Z_scope.

(** ** Exceptions *)

Inductive exn :=
| struct_error          (* struct.error: value out of range, wrong arity *)
| UnicodeEncodeError    (* str.encode() on a lone surrogate *)
| KeyError              (* dict lookup of an absent key *)
| IndexError.           (* list index out of range *)

Inductive outcome (A : Type) : Type :=
| Ok (a : A)
| Raise (e : exn).
Arguments Ok {A} a.
Arguments Raise {A} e.

#[global] Instance outcome_ret : MRet outcome := λ A a, Ok a.
#[global] Instance outcome_bind : MBind outcome := λ A B f m,
  match m with
  | Ok a => f a
  | Raise e => Raise e
  end.

(** A [for] loop whose body may raise: the exception leaves the loop. *)
Fixpoint foldM {A B : Type} (f : B → A → outcome B) (b : B) (l : list A)
  : outcome B :=
  match l with
  | [] => Ok b
  | x :: l' => b' ← f b x; foldM f b' l'
  end.

(** ** Bytes and slices *)

Abbreviation bytes := (list byte).

Definition zeros (n : nat) : bytes := replicate n Byte.x00.

(** [b.ljust(width, b"\x00")] *)
Definition ljust (width : nat) (b : bytes) : bytes :=
  b ++ zeros (width - length b).

(** [a[i:j] = v] on a [bytearray], for indices that are not negative: the
    slice bounds are clamped to the length, an empty or inverted slice
    inserts at [i]. *)
Definition slice_assign (a : bytes) (i j : nat) (v : bytes) : bytes :=
  take i a ++ v ++ drop (i `max` j) a.

(** [a[i:j]] *)
Definition slice (a : bytes) (i j : nat) : bytes :=
  take (j - i) (drop i a).

(** ** [str] and [str.encode()] *)

Abbreviation str := (list N).

Definition utf8_cont (c : N) : byte :=
  byte.of_Z (Z.lor 0x80 (Z.land (Z.of_N c) 0x3F)).

Definition utf8_encode_char (c : N) : outcome bytes :=
  if (c <? 0x80)%N then
    Ok [byte.of_Z (Z.of_N c)]
  else if (c <? 0x800)%N then
    Ok [byte.of_Z (Z.lor 0xC0 (Z.shiftr (Z.of_N c) 6)); utf8_cont c]
  else if (c <? 0x10000)%N then
    if (0xD800 <=? c)%N && (c <=? 0xDFFF)%N then Raise UnicodeEncodeError
    else Ok [byte.of_Z (Z.lor 0xE0 (Z.shiftr (Z.of_N c) 12));
             utf8_cont (N.shiftr c 6); utf8_cont c]
  else if (c <? 0x110000)%N then
    Ok [byte.of_Z (Z.lor 0xF0 (Z.shiftr (Z.of_N c) 18));
        utf8_cont (N.shiftr c 12); utf8_cont (N.shiftr c 6); utf8_cont c]
  else Raise UnicodeEncodeError.

Fixpoint encode (s : str) : outcome bytes :=
  match s with
  | [] => Ok []
  | c :: s' => b ← utf8_encode_char c; bs ← encode s'; Ok (b ++ bs)
  end.

(** A [str] literal of the source: the code points of an ASCII string. *)
Definition py (s : string) : str :=
  map (λ a, N.of_nat (Ascii.nat_of_ascii a)) (String.list_ascii_of_string s).

(** ** [struct.pack] in native mode *)

Module struct.

Inductive code :=
| s (n : nat)   (* "ns": n bytes, truncated or padded with zero bytes *)
| B             (* unsigned char *)
| H             (* unsigned short *)
| I.            (* unsigned int *)

Inductive arg :=
| Bytes (b : bytes)
| Int (v : Z).

Definition size (c : code) : nat :=
  match c with s n => n | B => 1 | H => 2 | I => 4 end.

Definition alignment (c : code) : nat :=
  match c with s _ => 1 | B => 1 | H => 2 | I => 4 end.

(** Zero bytes inserted before a field so that it starts at a multiple of
    its alignment. *)
Definition padding (offset : nat) (c : code) : nat :=
  ((alignment c - offset `mod` alignment c) `mod` alignment c)%nat.

(** An unsigned integer of [n] bytes; out of range is [struct.error]. *)
Definition pack_uint (n : nat) (v : Z) : outcome bytes :=
  if (0 <=? v) && (v <? 2 ^ (Z.of_nat n * 8)) then Ok (le_split n v)
  else Raise struct_error.

Definition pack_field (c : code) (a : arg) : outcome bytes :=
  match c, a with
  | s n, Bytes b => Ok (ljust n (take n b))
  | B, Int v => pack_uint 1 v
  | H, Int v => pack_uint 2 v
  | I, Int v => pack_uint 4 v
  | _, _ => Raise struct_error
  end.

Fixpoint pack_from (offset : nat) (fmt : list code) (args : list arg)
  : outcome bytes :=
  match fmt, args with
  | [], [] => Ok []
  | c :: fmt', a :: args' =>
      let pad := padding offset c in
      b ← pack_field c a;
      rest ← pack_from (offset + pad + size c) fmt' args';
      Ok (zeros pad ++ b ++ rest)
  | _, _ => Raise struct_error
  end.

(** The format string: an optional repeat count, then a format character.
    For "s" the count is the length of the field, for the integer codes
    it repeats the code.  Only the codes the generator uses are read. *)
Definition digit (c : Ascii.ascii) : option nat :=
  let n := Ascii.nat_of_ascii c in
  if (48 <=? n)%nat && (n <=? 57)%nat then Some (n - 48)%nat else None.

Fixpoint parse (fmt : list Ascii.ascii) (count : option nat)
  : option (list code) :=
  match fmt with
  | [] => match count with None => Some [] | Some _ => None end
  | c :: fmt' =>
      match digit c with
      | Some d => parse fmt' (Some (10 * default 0%nat count + d)%nat)
      | None =>
          let n := default 1%nat count in
          item ←
            (if Ascii.eqb c "s"%char then Some [s n]
             else if Ascii.eqb c "B"%char then Some (replicate n B)
             else if Ascii.eqb c "H"%char then Some (replicate n H)
             else if Ascii.eqb c "I"%char then Some (replicate n I)
             else None);
          rest ← parse fmt' None;
          Some (item ++ rest)
      end
  end.

Definition pack (fmt : string) (args : list arg) : outcome bytes :=
  match parse (String.list_ascii_of_string fmt) None with
  | Some codes => pack_from 0 codes args
  | None => Raise struct_error
  end.

Arguments pack fmt%_string_scope args%_list_scope.

End struct.

Import struct(Bytes, Int).

(** ** [class COFFRelocation] *)

Record COFFRelocation := {
  reloc_VirtualAddress : Z;
  reloc_SymbolTableIndex : Z;
  reloc_Type : Z;
}.

(** [struct.pack("IIH", ...)] *)
Definition COFFRelocation_pack (self : COFFRelocation) : outcome bytes :=
  struct.pack "IIH"
    [Int (reloc_VirtualAddress self);
     Int (reloc_SymbolTableIndex self);
     Int (reloc_Type self)].

Definition COFFRelocation_size : nat := 0xa.

(** ** [class COFFSection] *)

Record COFFSection := {
  sec_name : str;
  sec_relocations : list COFFRelocation;
  sec_VirtualAddress : Z;
  sec_characteristics : Z;
  sec_data : bytes;
}.

Definition COFFSection_init (name : str) (characteristics : Z) (VA : Z)
  : COFFSection :=
  {| sec_name := name;
     sec_relocations := [];
     sec_VirtualAddress := VA;
     sec_characteristics := characteristics;
     sec_data := [] |}.

(** [section.emit(b)]: returns the offset and the section after the call. *)
Definition COFFSection_emit (self : COFFSection) (b : bytes)
  : nat * COFFSection :=
  let offset := length (sec_data self) in
  (offset,
   {| sec_name := sec_name self;
      sec_relocations := sec_relocations self;
      sec_VirtualAddress := sec_VirtualAddress self;
      sec_characteristics := sec_characteristics self;
      sec_data := sec_data self ++ b |}).

Definition COFFSection_reloc (self : COFFSection) (offset symbol type_ : Z)
  : COFFSection :=
  {| sec_name := sec_name self;
     sec_relocations :=
       sec_relocations self ++
       [{| reloc_VirtualAddress := offset;
           reloc_SymbolTableIndex := symbol;
           reloc_Type := type_ |}];
     sec_VirtualAddress := sec_VirtualAddress self;
     sec_characteristics := sec_characteristics self;
     sec_data := sec_data self |}.

(** [struct.pack("8sIIIIIHHHI", ...)] *)
Definition COFFSection_pack (self : COFFSection) : outcome bytes :=
  e ← encode (take 8 (sec_name self));
  let nameBytes := ljust 8 e in
  struct.pack "8sIIIIIHHHI"
    [Bytes nameBytes;
     Int (Z.of_nat (length (sec_data self))); Int (sec_VirtualAddress self);
     Int (Z.of_nat (length (sec_data self))); Int 0;
     Int 0; Int 0;
     Int 0; Int (Z.of_nat (length (sec_relocations self)));
     Int (sec_characteristics self)].

Definition COFFSection_size : nat := 0x28.

(** ** [class COFFHeader] *)

Record COFFHeader := {
  Machine : Z;
  TimeDateStamp : Z;
  NumberOfSections : Z;
  PointerToSymbolTable : Z;
  NumberOfSymbols : Z;
  SizeOfOptionalHeader : Z;
  Characteristics : Z;
}.

Definition COFFHeader_init (now : Z) : COFFHeader :=
  {| Machine := 0;
     TimeDateStamp := now;
     NumberOfSections := 0;
     PointerToSymbolTable := 0;
     NumberOfSymbols := 0;
     SizeOfOptionalHeader := 0;
     Characteristics := 0 |}.

Definition set_TimeDateStamp (h : COFFHeader) (v : Z) : COFFHeader :=
  {| Machine := Machine h;
     TimeDateStamp := v;
     NumberOfSections := NumberOfSections h;
     PointerToSymbolTable := PointerToSymbolTable h;
     NumberOfSymbols := NumberOfSymbols h;
     SizeOfOptionalHeader := SizeOfOptionalHeader h;
     Characteristics := Characteristics h |}.

Definition set_PointerToSymbolTable (h : COFFHeader) (v : Z) : COFFHeader :=
  {| Machine := Machine h;
     TimeDateStamp := TimeDateStamp h;
     NumberOfSections := NumberOfSections h;
     PointerToSymbolTable := v;
     NumberOfSymbols := NumberOfSymbols h;
     SizeOfOptionalHeader := SizeOfOptionalHeader h;
     Characteristics := Characteristics h |}.

Definition set_Machine (h : COFFHeader) (v : Z) : COFFHeader :=
  {| Machine := v;
     TimeDateStamp := TimeDateStamp h;
     NumberOfSections := NumberOfSections h;
     PointerToSymbolTable := PointerToSymbolTable h;
     NumberOfSymbols := NumberOfSymbols h;
     SizeOfOptionalHeader := SizeOfOptionalHeader h;
     Characteristics := Characteristics h |}.

Definition set_NumberOfSections (h : COFFHeader) (v : Z) : COFFHeader :=
  {| Machine := Machine h;
     TimeDateStamp := TimeDateStamp h;
     NumberOfSections := v;
     PointerToSymbolTable := PointerToSymbolTable h;
     NumberOfSymbols := NumberOfSymbols h;
     SizeOfOptionalHeader := SizeOfOptionalHeader h;
     Characteristics := Characteristics h |}.

Definition set_NumberOfSymbols (h : COFFHeader) (v : Z) : COFFHeader :=
  {| Machine := Machine h;
     TimeDateStamp := TimeDateStamp h;
     NumberOfSections := NumberOfSections h;
     PointerToSymbolTable := PointerToSymbolTable h;
     NumberOfSymbols := v;
     SizeOfOptionalHeader := SizeOfOptionalHeader h;
     Characteristics := Characteristics h |}.

(** [header.pack()]: stores the clock reading [now] in the header, then
    serializes it with [struct.pack("HHIIIHH", ...)].  Returns the header
    after the call too. *)
Definition COFFHeader_pack (self : COFFHeader) (now : Z)
  : outcome (bytes * COFFHeader) :=
  let self := set_TimeDateStamp self now in
  b ← struct.pack "HHIIIHH"
        [Int (Machine self);
         Int (NumberOfSections self);
         Int (TimeDateStamp self);
         Int (PointerToSymbolTable self);
         Int (NumberOfSymbols self);
         Int (SizeOfOptionalHeader self);
         Int (Characteristics self)];
  Ok (b, self).

Definition COFFHeader_size : nat := 0x14.

(** ** [class COFFSymbol] and [class COFFGenerator]

    A symbol keeps a reference to the generator that created it and calls
    its [string] method when it is packed; in the embedding the generator
    is passed to [COFFSymbol_pack] and returned with its string table
    updated. *)

Record COFFSymbol := {
  sym_name : str;
  sym_value : Z;
  sym_section : Z;
  sym_type_ : Z;
  sym_storage : Z;
}.

Definition COFFSymbol_size : nat := 0x12.

Record COFFGenerator := {
  is64bit : bool;
  symbols : list COFFSymbol;
  sections : list COFFSection;
  strings : bytes;
  header : COFFHeader;
}.

Definition set_strings (g : COFFGenerator) (v : bytes) : COFFGenerator :=
  {| is64bit := is64bit g; symbols := symbols g; sections := sections g;
     strings := v; header := header g |}.

Definition set_header (g : COFFGenerator) (v : COFFHeader) : COFFGenerator :=
  {| is64bit := is64bit g; symbols := symbols g; sections := sections g;
     strings := strings g; header := v |}.

Definition set_sections (g : COFFGenerator) (v : list COFFSection)
  : COFFGenerator :=
  {| is64bit := is64bit g; symbols := symbols g; sections := v;
     strings := strings g; header := header g |}.

Definition set_symbols (g : COFFGenerator) (v : list COFFSymbol)
  : COFFGenerator :=
  {| is64bit := is64bit g; symbols := v; sections := sections g;
     strings := strings g; header := header g |}.

(** [COFFGenerator(is64bit)], constructed when the clock reads [now]. *)
Definition COFFGenerator_init (is64bit : bool) (now : Z) : COFFGenerator :=
  {| is64bit := is64bit;
     symbols := [];
     sections := [];
     strings := [Byte.x04; Byte.x00; Byte.x00; Byte.x00];
     header :=
       set_Machine (COFFHeader_init now) (if is64bit then 0x8664 else 0x014C) |}.

(** [gen.section(name, characteristics)]: the section object it returns is
    the last element of [sections]; its index is returned as the handle. *)
Definition COFFGenerator_section (self : COFFGenerator) (name : str)
    (characteristics : Z) : nat * COFFGenerator :=
  let section := COFFSection_init name characteristics 0x0 in
  let self' := set_sections self (sections self ++ [section]) in
  (length (sections self),
   set_header self'
     (set_NumberOfSections (header self') (NumberOfSections (header self') + 1))).

(** [gen.symbol(name, value, section, type_, storage)] *)
Definition COFFGenerator_symbol (self : COFFGenerator) (name : str)
    (value section type_ storage : Z) : COFFSymbol * COFFGenerator :=
  let sym := {| sym_name := name; sym_value := value; sym_section := section;
                sym_type_ := type_; sym_storage := storage |} in
  let self' := set_symbols self (symbols self ++ [sym]) in
  (sym,
   set_header self'
     (set_NumberOfSymbols (header self') (NumberOfSymbols (header self') + 1))).

(** [gen.string(s)] *)
Definition COFFGenerator_string (self : COFFGenerator) (s : str)
  : outcome (nat * COFFGenerator) :=
  let offset := length (strings self) in
  e ← encode s;
  let self := set_strings self (strings self ++ e ++ [Byte.x00]) in
  p ← struct.pack "I" [Int (Z.of_nat (length (strings self)))];
  let self := set_strings self (slice_assign (strings self) 0 4 p) in
  Ok (offset, self).

(** [symbol.pack()], [struct.pack("8sIHHBB", ...)] *)
Definition COFFSymbol_pack (self : COFFSymbol) (generator : COFFGenerator)
  : outcome (bytes * COFFGenerator) :=
  '(nameBytes, generator) ←
    (if (length (sym_name self) <=? 8)%nat then
       e ← encode (sym_name self);
       Ok (ljust 8 e, generator)
     else
       '(offset, generator) ← COFFGenerator_string generator (sym_name self);
       p ← struct.pack "II" [Int 0; Int (Z.of_nat offset)];
       Ok (p, generator));
  p ← struct.pack "8sIHHBB"
        [Bytes nameBytes;
         Int (sym_value self);
         Int (sym_section self);
         Int (sym_type_ self);
         Int (sym_storage self);
         Int 0];
  Ok (p, generator).

(** A [dict] lookup [d[k]] and a list index [l[i]]. *)
Definition dict_get (d : gmap str nat) (k : str) : outcome nat :=
  match d !! k with
  | Some v => Ok v
  | None => Raise KeyError
  end.

Definition list_get {A : Type} (l : list A) (i : nat) : outcome A :=
  match l !! i with
  | Some x => Ok x
  | None => Raise IndexError
  end.

(** *** [gen.emit()]

    The four loops of [emit], one definition per loop body. *)

(** [sectionHeaders[section.name] = len(result); result.extend(section.pack())] *)
Definition emit_header_step (st : bytes * gmap str nat) (section : COFFSection)
  : outcome (bytes * gmap str nat) :=
  let '(result, sectionHeaders) := st in
  let sectionHeaders := <[sec_name section := length result]> sectionHeaders in
  p ← COFFSection_pack section;
  Ok (result ++ p, sectionHeaders).

(** [result[header + 20:header + 24] = struct.pack("I", len(result));
     result.extend(section.data)] *)
Definition emit_data_step (sectionHeaders : gmap str nat) (result : bytes)
    (section : COFFSection) : outcome bytes :=
  header ← dict_get sectionHeaders (sec_name section);
  p ← struct.pack "I" [Int (Z.of_nat (length result))];
  let result := slice_assign result (header + 20) (header + 24) p in
  Ok (result ++ sec_data section).

(** [result.extend(reloc.pack())] *)
Definition emit_reloc (result : bytes) (reloc : COFFRelocation)
  : outcome bytes :=
  p ← COFFRelocation_pack reloc;
  Ok (result ++ p).

(** [if len(section.relocations) > 0:
       result[header + 24:header + 26] = struct.pack("H", len(result))
       for reloc in section.relocations: ...] *)
Definition emit_reloc_step (sectionHeaders : gmap str nat) (result : bytes)
    (section : COFFSection) : outcome bytes :=
  if (0 <? length (sec_relocations section))%nat then
    header ← dict_get sectionHeaders (sec_name section);
    p ← struct.pack "H" [Int (Z.of_nat (length result))];
    let result := slice_assign result (header + 24) (header + 26) p in
    foldM emit_reloc result (sec_relocations section)
  else Ok result.

(** [result.extend(symbol.pack())] *)
Definition emit_symbol_step (st : bytes * COFFGenerator) (symbol : COFFSymbol)
  : outcome (bytes * COFFGenerator) :=
  let '(result, self) := st in
  '(p, self) ← COFFSymbol_pack symbol self;
  Ok (result ++ p, self).

(** [gen.emit()] when the clock reads [now]: the buffer and the generator
    after the call. *)
Definition COFFGenerator_emit (self : COFFGenerator) (now : Z)
  : outcome (bytes * COFFGenerator) :=
  let result := zeros COFFHeader_size in
  '(result, sectionHeaders) ←
    foldM emit_header_step (result, ∅) (sections self);
  result ← foldM (emit_data_step sectionHeaders) result (sections self);
  result ← foldM (emit_reloc_step sectionHeaders) result (sections self);
  let self :=
    set_header self
      (set_PointerToSymbolTable (header self) (Z.of_nat (length result))) in
  '(result, self) ← foldM emit_symbol_step (result, self) (symbols self);
  let result := result ++ strings self in
  '(p, h) ← COFFHeader_pack (header self) now;
  let self := set_header self h in
  Ok (slice_assign result 0 COFFHeader_size p, self).

(** ** Runs of the public interface

    The calls a client makes on one generator.  A section object is
    reached through its position in [gen.sections]. *)

Inductive op :=
| op_section (name : str) (characteristics : Z)
| op_section_emit (i : nat) (b : bytes)
| op_section_reloc (i : nat) (offset symbol type_ : Z)
| op_symbol (name : str) (value section type_ storage : Z)
| op_string (s : str)
| op_emit (now : Z).

Definition step (self : COFFGenerator) (o : op) : outcome COFFGenerator :=
  match o with
  | op_section name characteristics =>
      Ok (COFFGenerator_section self name characteristics).2
  | op_section_emit i b =>
      section ← list_get (sections self) i;
      Ok (set_sections self
            (<[i := (COFFSection_emit section b).2]> (sections self)))
  | op_section_reloc i offset symbol type_ =>
      section ← list_get (sections self) i;
      Ok (set_sections self
            (<[i := COFFSection_reloc section offset symbol type_]>
               (sections self)))
  | op_symbol name value section type_ storage =>
      Ok (COFFGenerator_symbol self name value section type_ storage).2
  | op_string s =>
      '(_, self) ← COFFGenerator_string self s;
      Ok self
  | op_emit now =>
      '(_, self) ← COFFGenerator_emit self now;
      Ok self
  end.

Definition run (self : COFFGenerator) (ops : list op) : outcome COFFGenerator :=
  foldM step self ops.

(** * Vocabulary of the statements *)

(** ** Values that fit the fields they are packed into *)

Definition reloc_in_range (self : COFFRelocation) : Prop :=
  0 ≤ reloc_VirtualAddress self < 2 ^ 32 ∧
  0 ≤ reloc_SymbolTableIndex self < 2 ^ 32 ∧
  0 ≤ reloc_Type self < 2 ^ 16.

Definition section_in_range (self : COFFSection) : Prop :=
  Z.of_nat (length (sec_data self)) < 2 ^ 32 ∧
  0 ≤ sec_VirtualAddress self < 2 ^ 32 ∧
  Z.of_nat (length (sec_relocations self)) < 2 ^ 16 ∧
  0 ≤ sec_characteristics self < 2 ^ 32.

Definition header_in_range (h : COFFHeader) : Prop :=
  0 ≤ Machine h < 2 ^ 16 ∧
  0 ≤ NumberOfSections h < 2 ^ 16 ∧
  0 ≤ PointerToSymbolTable h < 2 ^ 32 ∧
  0 ≤ NumberOfSymbols h < 2 ^ 32 ∧
  0 ≤ SizeOfOptionalHeader h < 2 ^ 16 ∧
  0 ≤ Characteristics h < 2 ^ 16.

Definition symbol_in_range (self : COFFSymbol) : Prop :=
  0 ≤ sym_value self < 2 ^ 32 ∧
  0 ≤ sym_section self < 2 ^ 16 ∧
  0 ≤ sym_type_ self < 2 ^ 16 ∧
  0 ≤ sym_storage self < 2 ^ 8.

(** Code points [str.encode()] accepts: no surrogates. *)
Definition char_ok (c : N) : Prop :=
  (c < 0x110000)%N ∧ ¬ (0xD800 ≤ c ≤ 0xDFFF)%N.

Definition str_ok (s : str) : Prop := Forall char_ok s.

Definition section_ok (sec : COFFSection) : Prop :=
  str_ok (sec_name sec) ∧ section_in_range sec ∧
  Forall reloc_in_range (sec_relocations sec).

Definition symbol_ok (sym : COFFSymbol) : Prop :=
  str_ok (sym_name sym) ∧ symbol_in_range sym.

Definition long_named (sym : COFFSymbol) : Prop :=
  (8 < length (sym_name sym))%nat.

#[global] Instance long_named_dec sym : Decision (long_named sym).
Proof. unfold long_named. apply _. Defined.

(** ** Records and tables as bytes *)

(** The bytes of a symbol record after its 8-byte name field. *)
Definition symbol_tail (self : COFFSymbol) : bytes :=
  le_split 4 (sym_value self)
  ++ le_split 2 (sym_section self)
  ++ le_split 2 (sym_type_ self)
  ++ le_split 1 (sym_storage self)
  ++ zeros 1.

Definition reloc_record (reloc : COFFRelocation) : bytes :=
  le_split 4 (reloc_VirtualAddress reloc)
  ++ le_split 4 (reloc_SymbolTableIndex reloc)
  ++ le_split 2 (reloc_Type reloc).

Definition reloc_table (sec : COFFSection) : bytes :=
  concat (map reloc_record (sec_relocations sec)).

Definition header_bytes (h : COFFHeader) : bytes :=
  le_split 2 (Machine h)
  ++ le_split 2 (NumberOfSections h)
  ++ le_split 4 (TimeDateStamp h)
  ++ le_split 4 (PointerToSymbolTable h)
  ++ le_split 4 (NumberOfSymbols h)
  ++ le_split 2 (SizeOfOptionalHeader h)
  ++ le_split 2 (Characteristics h).

(** The string table [tbl] after a string encoded as [e] has been appended
    by [gen.string]: the bytes and a zero byte are added at the end, then
    the first four bytes are overwritten with the new length. *)
Definition strtab_append (tbl e : bytes) : bytes :=
  let tbl' := tbl ++ e ++ [Byte.x00] in
  slice_assign tbl' 0 4 (le_split 4 (Z.of_nat (length tbl'))).

(** The prefix law of the string table. *)
Definition strtab_prefix_ok (tbl : bytes) : Prop :=
  (4 ≤ length tbl)%nat ∧ le_combine (take 4 tbl) = Z.of_nat (length tbl).

(** ** Offsets in the buffer *)

Definition data_size (self : COFFGenerator) : nat :=
  sum_list_with (λ sec, length (sec_data sec)) (sections self).

Definition reloc_count (self : COFFGenerator) : nat :=
  sum_list_with (λ sec, length (sec_relocations sec)) (sections self).

(** The offset of the symbol table: the file header, the section headers,
    the section data and the relocation tables come before it. *)
Definition symtab_offset (self : COFFGenerator) : nat :=
  20 + 40 * length (sections self) + data_size self + 10 * reloc_count self.

(** The offset at which the data of the i-th section is laid out: after
    the file header, all section headers and the data of the sections
    before it. *)
Definition data_offset (self : COFFGenerator) (i : nat) : nat :=
  20 + 40 * length (sections self)
  + sum_list_with (λ sec, length (sec_data sec)) (take i (sections self)).

(** The offset at which the relocation records of the i-th section are
    laid out: after the file header, all section headers, all section data
    and the relocation records of the sections before it. *)
Definition reloc_offset (self : COFFGenerator) (i : nat) : nat :=
  20 + 40 * length (sections self) + data_size self
  + 10 * sum_list_with (λ sec, length (sec_relocations sec))
           (take i (sections self)).

(** The generator when [emit] has stored the symbol-table pointer. *)
Definition PointerToSymbolTable_set (self : COFFGenerator) (result : bytes)
  : COFFGenerator :=
  set_header self
    (set_PointerToSymbolTable (header self) (Z.of_nat (length result))).

(** ** Generators used as examples *)

Definition bytes_of (l : list Z) : bytes := map byte.of_Z l.

(** The exception a call raised, if it did. *)
Definition raised {A : Type} (r : outcome A) : option exn :=
  match r with
  | Ok _ => None
  | Raise e => Some e
  end.

(** The generator a run of calls on a new generator leaves, and the pair
    (buffer, generator) a call of [emit] returns. *)
Definition built (ops : list op) : COFFGenerator :=
  match run (COFFGenerator_init true 0) ops with
  | Ok g => g
  | Raise _ => COFFGenerator_init true 0
  end.

Definition emitted (self : COFFGenerator) (now : Z) : bytes * COFFGenerator :=
  match COFFGenerator_emit self now with
  | Ok r => r
  | Raise _ => ([], self)
  end.

Definition fresh : COFFGenerator := COFFGenerator_init true 0.

(** The program of [example.py], up to its call of [emit]. *)
Definition example_ops : list op :=
  [ op_section (py ".text") 0x60000020;
    op_section_emit 0 (bytes_of [0x55]);
    op_section_emit 0 (bytes_of [0x48; 0x89; 0xe5]);
    op_section_emit 0 (bytes_of [0x48; 0x8d; 0x0d; 0; 0; 0; 0]);
    op_section_emit 0 (bytes_of [0xe8; 0; 0; 0; 0]);
    op_section_emit 0 (bytes_of [0x5d]);
    op_section_emit 0 (bytes_of [0xc3]);
    op_section (py ".rdata") 0x40000040;
    op_section_emit 1 (bytes_of [72; 101; 108; 108; 111; 44; 32; 87; 111; 114;
                                 108; 100; 33; 10; 0]);
    op_symbol (py "main") 0 1 0x20 2;
    op_symbol (py "aHello") 0 2 0x0 2;
    op_symbol (py "print") 0 0 0x20 2;
    op_section_reloc 0 7 1 4;
    op_section_reloc 0 12 2 4 ].

Definition example_generator : COFFGenerator := built example_ops.

(** A section with one relocation, as [gen.section(".text", 0x60000020)]
    followed by [reloc(0, 0, 4)] leaves it. *)
Definition text_with_reloc : COFFSection :=
  COFFSection_reloc (COFFSection_init (py ".text") 0x60000020 0) 0 0 4.

(** A symbol whose name has 8 characters and 16 bytes. *)
Definition accented_symbol : COFFSymbol :=
  {| sym_name := replicate 8 233%N; sym_value := 0; sym_section := 1;
     sym_type_ := 0x20; sym_storage := 2 |}.

(** A generator with one symbol whose name has 32 characters. *)
Definition long_name : str := py "a_very_long_external_symbol_name".

Definition with_long_symbol : COFFGenerator :=
  (COFFGenerator_symbol fresh long_name 0 0 0x20 2).2.

(** Two sections with the same name, one byte of data each. *)
Definition twin_ops : list op :=
  [ op_section (py ".text") 0x60000020;
    op_section_emit 0 (bytes_of [0x90]);
    op_section (py ".text") 0x60000020;
    op_section_emit 1 (bytes_of [0xc3]) ].

(** One section with [n] bytes of data, without and with a relocation.
    With 65476 bytes of data the relocation records would begin at offset
    20 + 40 + 65476 = 65536. *)
Definition large_ops (n : Z) : list op :=
  [ op_section (py ".text") 0x60000020;
    op_section_emit 0 (zeros (Z.to_nat n)) ].

Definition large_reloc_ops (n : Z) : list op :=
  large_ops n ++ [ op_section_reloc 0 0 0 4 ].

(** * Further vocabulary *)

(** A sequence of calls [section.emit(b)] on one section: the offsets
    returned, in order, and the section after the last call. *)
Fixpoint COFFSection_emit_all (self : COFFSection) (bs : list bytes)
  : list nat * COFFSection :=
  match bs with
  | [] => ([], self)
  | b :: bs' =>
      let '(offset, self) := COFFSection_emit self b in
      let '(offsets, self) := COFFSection_emit_all self bs' in
      (offset :: offsets, self)
  end.

(** The 8-byte name field of a record, for a name encoded as [e]: the
    first 8 bytes, filled with zero bytes when there are fewer. *)
Definition name_field (e : bytes) : bytes :=
  take 8 e ++ zeros (8 - length e).

(** The header record of a section whose name (its first 8 characters)
    is encoded as [e], as [COFFSection.pack] lays it out. *)
Definition section_record (self : COFFSection) (e : bytes) : bytes :=
  name_field e
  ++ le_split 4 (Z.of_nat (length (sec_data self)))
  ++ le_split 4 (sec_VirtualAddress self)
  ++ le_split 4 (Z.of_nat (length (sec_data self)))
  ++ zeros 4 ++ zeros 4
  ++ zeros 2 ++ zeros 2
  ++ le_split 2 (Z.of_nat (length (sec_relocations self)))
  ++ zeros 2
  ++ le_split 4 (sec_characteristics self).

(** The string table [t2] extends [t1]: beyond the 4-byte length prefix,
    [t2] is [t1] followed by more bytes. *)
Definition strtab_extends (t1 t2 : bytes) : Prop :=
  (4 ≤ length t1)%nat ∧ (4 ≤ length t2)%nat ∧
  ∃ tail, drop 4 t2 = drop 4 t1 ++ tail.

(** The exceptions the generator raises by design. *)
Definition expected_exn (e : exn) : Prop :=
  e = struct_error ∨ e = UnicodeEncodeError.

(** * The hex dump of [example.py] *)

(** The lower-case hexadecimal digit of [d]. *)
Definition hex_digit (d : nat) : N := nth d (py "0123456789abcdef") 48%N.

(** [format(n, "x")]: the digits of [n] in base 16, the most significant
    first; [n] has at most [log2 n + 1] of them. *)
Fixpoint hex_digits (fuel n : nat) (acc : str) : str :=
  match fuel with
  | O => acc
  | S fuel' =>
      let acc := hex_digit (n mod 16) :: acc in
      if (n / 16 =? 0)%nat then acc else hex_digits fuel' (n / 16) acc
  end.

Definition hex (n : nat) : str := hex_digits (S (Nat.log2 n)) n [].

(** [f"{n:0{width}x}"]: the digits, with zeros before them up to
    [width] characters. *)
Definition format_0x (width n : nat) : str :=
  replicate (width - length (hex n)) 48%N ++ hex n.

(** [sep.join(l)] *)
Fixpoint join (sep : str) (l : list str) : str :=
  match l with
  | [] => []
  | x :: l' =>
      match l' with
      | [] => x
      | _ :: _ => x ++ sep ++ join sep l'
      end
  end.

(** [range(0, stop, step)] for a positive [step]. *)
Definition range_step (stop step : nat) : list nat :=
  map (λ k, (k * step)%nat) (seq 0 ((stop + step - 1) / step)).

(** [printBytes(data)]: the lines it prints, in order. *)
Definition printBytes (data : bytes) : list str :=
  map (λ i,
         let chunk := slice data i (i + 16) in
         let hex :=
           join (py " ")
             (map (λ b, format_0x 2 (Z.to_nat (byte.unsigned b))) chunk) in
         format_0x 4 i ++ py ": " ++ hex)
    (range_step (length data) 16).

(** Reading a dump: the value of a hexadecimal digit, the bytes written as
    pairs of digits with one character between two pairs, the part of a
    line after its first space, and the bytes of all lines. *)
Definition hex_value (c : N) : Z :=
  if (c <? 58)%N then Z.of_N c - 48 else Z.of_N c - 87.

Fixpoint read_hex_bytes (s : str) : bytes :=
  match s with
  | c1 :: c2 :: rest =>
      byte.of_Z (16 * hex_value c1 + hex_value c2)
      :: match rest with
         | _ :: rest' => read_hex_bytes rest'
         | [] => []
         end
  | _ => []
  end.

Fixpoint after_space (s : str) : str :=
  match s with
  | [] => []
  | c :: s' => if (c =? 32)%N then s' else after_space s'
  end.

Definition read_dump (lines : list str) : bytes :=
  concat (map (λ l, read_hex_bytes (after_space l)) lines).

(** * Properties *)

(** ** The runtime: exceptions, [struct.pack], slices *)

Lemma bind_Ok {A B : Type} (m : outcome A) (f : A → outcome B) (y : B) :
  (m ≫= f) = Ok y → ∃ x, m = Ok x ∧ f x = Ok y.
Proof. destruct m as [x|e]; simpl; [eauto | discriminate]. Qed.

Lemma pack_uint_Ok n v p :
  struct.pack_uint n v = Ok p →
  0 ≤ v < 2 ^ (Z.of_nat n * 8) ∧ p = le_split n v.
Proof.
  unfold struct.pack_uint.
  destruct (0 <=? v) eqn:E1; destruct (v <? 2 ^ (Z.of_nat n * 8)) eqn:E2;
    simpl; try discriminate.
  intros [= <-]. split; [lia | reflexivity].
Qed.

Lemma pack_uint_range n v :
  0 ≤ v < 2 ^ (Z.of_nat n * 8) → struct.pack_uint n v = Ok (le_split n v).
Proof.
  intros Hv. unfold struct.pack_uint.
  replace (0 <=? v) with true by (symmetry; apply Z.leb_le; lia).
  replace (v <? 2 ^ (Z.of_nat n * 8)) with true
    by (symmetry; apply Z.ltb_lt; lia).
  reflexivity.
Qed.

Lemma pack_from_cons offset c fmt a args p :
  struct.pack_from offset (c :: fmt) (a :: args) = Ok p →
  ∃ fld rest,
    struct.pack_field c a = Ok fld ∧
    struct.pack_from (offset + struct.padding offset c + struct.size c) fmt args
      = Ok rest ∧
    p = zeros (struct.padding offset c) ++ fld ++ rest.
Proof.
  simpl. intros (fld & Hf & (rest & Hr & [= <-])%bind_Ok)%bind_Ok. eauto.
Qed.

(** Inversion of a successful [struct.pack]: one range fact per integer
    field, and the packed bytes as the concatenation of the fields and of
    the alignment gaps. *)
Ltac inv_field H :=
  lazymatch type of H with
  | struct.pack_field (struct.s _) (Bytes _) = Ok _ =>
      cbn [struct.pack_field] in H; injection H as H; subst
  | struct.pack_field _ (Int _) = Ok _ =>
      cbn [struct.pack_field] in H; apply pack_uint_Ok in H;
      let Hr := fresh "Hrange" in destruct H as [Hr ->]
  end.

Ltac inv_pack_from H :=
  lazymatch type of H with
  | struct.pack_from _ [] [] = Ok _ => injection H as H; subst
  | struct.pack_from _ (_ :: _) (_ :: _) = Ok _ =>
      let fld := fresh "fld" in
      let rest := fresh "rest" in
      let Hf := fresh "Hf" in
      apply pack_from_cons in H; destruct H as (fld & rest & Hf & H & ->);
      inv_field Hf; inv_pack_from H
  end.

Ltac norm_fmt :=
  repeat match goal with
  | |- context [struct.parse ?f None] =>
      let r := eval vm_compute in (struct.parse f None) in
      change (struct.parse f None) with r
  end.

Ltac inv_pack H :=
  unfold struct.pack in H;
  match type of H with
  | context [struct.parse ?f None] =>
      let r := eval vm_compute in (struct.parse f None) in
      change (struct.parse f None) with r in H
  end;
  cbv iota beta in H;
  inv_pack_from H;
  cbn [struct.padding struct.alignment struct.size Nat.add Nat.modulo Nat.sub
       Nat.divmod fst snd zeros replicate app] in *;
  rewrite ?app_nil_r in *.

Lemma length_le_split' n v : length (le_split n v) = n.
Proof. apply length_le_split. Qed.

Lemma length_zeros n : length (zeros n) = n.
Proof. apply length_replicate. Qed.

Lemma pack_I_Ok v p :
  struct.pack "I" [Int v] = Ok p → 0 ≤ v < 2 ^ 32 ∧ p = le_split 4 v.
Proof. intros H. inv_pack H. split; [lia | done]. Qed.

Lemma pack_I_range v :
  0 ≤ v < 2 ^ 32 → struct.pack "I" [Int v] = Ok (le_split 4 v).
Proof.
  intros Hv. unfold struct.pack. norm_fmt. simpl.
  rewrite pack_uint_range by (simpl; lia). simpl. by rewrite ?app_nil_r.
Qed.

Lemma pack_H_Ok v p :
  struct.pack "H" [Int v] = Ok p → 0 ≤ v < 2 ^ 16 ∧ p = le_split 2 v.
Proof. intros H. inv_pack H. split; [lia | done]. Qed.

Lemma pack_H_range v :
  0 ≤ v < 2 ^ 16 → struct.pack "H" [Int v] = Ok (le_split 2 v).
Proof.
  intros Hv. unfold struct.pack. norm_fmt. simpl.
  rewrite pack_uint_range by (simpl; lia). simpl. by rewrite ?app_nil_r.
Qed.

(** The "8s" field: the encoded name cut to 8 bytes or filled with zero
    bytes up to 8. *)
Lemma ljust_take_ljust e :
  ljust 8 (take 8 (ljust 8 e)) = take 8 e ++ zeros (8 - length e).
Proof.
  unfold ljust. destruct (decide (length e ≤ 8)%nat) as [Hle|Hgt].
  - rewrite (take_ge (e ++ _)) by (rewrite length_app, length_zeros; lia).
    rewrite length_app, length_zeros, (take_ge e) by lia.
    replace (8 - (length e + (8 - length e)))%nat with 0%nat by lia.
    simpl. by rewrite app_nil_r.
  - replace (8 - length e)%nat with 0%nat by lia. simpl.
    rewrite !app_nil_r, length_take.
    replace (8 - 8 `min` length e)%nat with 0%nat by lia.
    simpl. by rewrite app_nil_r.
Qed.

Lemma length_name_field e : length (take 8 e ++ zeros (8 - length e)) = 8%nat.
Proof. rewrite length_app, length_take, length_zeros. lia. Qed.

Lemma slice_app_mid (a m c : bytes) i j :
  length a = i → (i + length m)%nat = j → slice (a ++ m ++ c) i j = m.
Proof.
  intros <- <-. unfold slice.
  rewrite drop_app_length.
  replace (length a + length m - length a)%nat with (length m) by lia.
  by rewrite take_app_length.
Qed.

Lemma length_slice_assign a i j v :
  (i + length v)%nat = j → (j ≤ length a)%nat →
  length (slice_assign a i j v) = length a.
Proof.
  intros <- Hj. unfold slice_assign.
  rewrite !length_app, length_take, length_drop. lia.
Qed.

(** ** The section header record *)

Lemma COFFSection_pack_Ok self p :
  COFFSection_pack self = Ok p →
  ∃ e, encode (take 8 (sec_name self)) = Ok e ∧
    section_in_range self ∧
    p = (take 8 e ++ zeros (8 - length e))
        ++ le_split 4 (Z.of_nat (length (sec_data self)))
        ++ le_split 4 (sec_VirtualAddress self)
        ++ le_split 4 (Z.of_nat (length (sec_data self)))
        ++ zeros 4 ++ zeros 4
        ++ zeros 2 ++ zeros 2
        ++ le_split 2 (Z.of_nat (length (sec_relocations self)))
        ++ zeros 2
        ++ le_split 4 (sec_characteristics self).
Proof.
  unfold COFFSection_pack. intros (e & He & H)%bind_Ok. inv_pack H.
  exists e. split; [done|]. split; [unfold section_in_range; simpl in *; lia|].
  rewrite ljust_take_ljust. reflexivity.
Qed.

Lemma COFFSection_pack_total self e :
  encode (take 8 (sec_name self)) = Ok e → section_in_range self →
  ∃ p, COFFSection_pack self = Ok p.
Proof.
  intros He (Hd & Hva & Hr & Hc). unfold COFFSection_pack. rewrite He. simpl.
  unfold struct.pack. norm_fmt. simpl.
  rewrite !pack_uint_range by (simpl; lia). simpl. eauto.
Qed.

Lemma COFFSection_pack_length self p :
  COFFSection_pack self = Ok p → length p = 40%nat.
Proof.
  intros (e & _ & _ & ->)%COFFSection_pack_Ok.
  rewrite length_app, length_name_field, !length_app, !length_le_split',
    !length_zeros.
  reflexivity.
Qed.

(** C9, as stated, fails: for a section with one relocation, bytes 30..32
    of the header record are zero, not the relocation count. *)
Lemma COFFSection_pack_count_not_at_30 :
  ∃ p, COFFSection_pack text_with_reloc = Ok p ∧
    slice p 30 32 ≠
    le_split 2 (Z.of_nat (length (sec_relocations text_with_reloc))).
Proof. eexists. split; [vm_compute; reflexivity | vm_compute; discriminate]. Qed.

(** C9, amended: the record [COFFSection.pack] returns is 40 bytes long and
    consists, in this order, of the name (8 bytes: the encoding of the first
    8 characters, cut to 8 bytes or filled with zero bytes), the data length
    (4), the virtual address (4), the data length again (4), a zero data
    pointer (4), a zero relocation pointer (4), two zero 2-byte fields
    (bytes 28..32), the relocation count (2, bytes 32..34), two zero bytes
    that align the last field (bytes 34..36) and the characteristics (4,
    bytes 36..40). *)
Theorem COFFSection_pack_layout self p :
  COFFSection_pack self = Ok p →
  ∃ e, encode (take 8 (sec_name self)) = Ok e ∧
    p = (take 8 e ++ zeros (8 - length e))
        ++ le_split 4 (Z.of_nat (length (sec_data self)))
        ++ le_split 4 (sec_VirtualAddress self)
        ++ le_split 4 (Z.of_nat (length (sec_data self)))
        ++ zeros 4 ++ zeros 4
        ++ zeros 2 ++ zeros 2
        ++ le_split 2 (Z.of_nat (length (sec_relocations self)))
        ++ zeros 2
        ++ le_split 4 (sec_characteristics self) ∧
    length p = 40%nat ∧
    slice p 28 32 = zeros 4 ∧
    slice p 32 34 = le_split 2 (Z.of_nat (length (sec_relocations self))) ∧
    slice p 34 36 = zeros 2 ∧
    slice p 36 40 = le_split 4 (sec_characteristics self).
Proof.
  intros H. pose proof (COFFSection_pack_length _ _ H) as Hlen.
  apply COFFSection_pack_Ok in H as (e & He & _ & ->).
  exists e. split; [done|]. split; [done|]. split; [done|].
  pose proof (length_name_field e) as Hn.
  set (name := take 8 e ++ zeros (8 - length e)) in *.
  set (sz := le_split 4 (Z.of_nat (length (sec_data self)))) in *.
  set (va := le_split 4 (sec_VirtualAddress self)) in *.
  set (nr := le_split 2 (Z.of_nat (length (sec_relocations self)))) in *.
  set (ch := le_split 4 (sec_characteristics self)) in *.
  assert (length sz = 4%nat) as Hsz by apply length_le_split'.
  assert (length va = 4%nat) as Hva by apply length_le_split'.
  assert (length nr = 2%nat) as Hnr by apply length_le_split'.
  assert (length ch = 4%nat) as Hch by apply length_le_split'.
  repeat split.
  - change (zeros 2 ++ zeros 2 ++ nr ++ zeros 2 ++ ch)
      with (zeros 4 ++ nr ++ zeros 2 ++ ch).
    replace (name ++ sz ++ va ++ sz ++ zeros 4 ++ zeros 4 ++ zeros 4 ++ nr ++
             zeros 2 ++ ch)
      with ((name ++ sz ++ va ++ sz ++ zeros 4 ++ zeros 4) ++ zeros 4 ++
            nr ++ zeros 2 ++ ch) by (by rewrite <- !app_assoc).
    apply slice_app_mid;
      rewrite ?length_app, ?length_zeros, ?Hn, ?Hsz, ?Hva; reflexivity.
  - replace (name ++ sz ++ va ++ sz ++ zeros 4 ++ zeros 4 ++ zeros 2 ++
             zeros 2 ++ nr ++ zeros 2 ++ ch)
      with ((name ++ sz ++ va ++ sz ++ zeros 4 ++ zeros 4 ++ zeros 2 ++
             zeros 2) ++ nr ++ zeros 2 ++ ch) by (by rewrite <- !app_assoc).
    apply slice_app_mid;
      rewrite ?length_app, ?length_zeros, ?Hn, ?Hsz, ?Hva, ?Hnr; reflexivity.
  - replace (name ++ sz ++ va ++ sz ++ zeros 4 ++ zeros 4 ++ zeros 2 ++
             zeros 2 ++ nr ++ zeros 2 ++ ch)
      with ((name ++ sz ++ va ++ sz ++ zeros 4 ++ zeros 4 ++ zeros 2 ++
             zeros 2 ++ nr) ++ zeros 2 ++ ch) by (by rewrite <- !app_assoc).
    apply slice_app_mid;
      rewrite ?length_app, ?length_zeros, ?Hn, ?Hsz, ?Hva, ?Hnr; reflexivity.
  - replace (name ++ sz ++ va ++ sz ++ zeros 4 ++ zeros 4 ++ zeros 2 ++
             zeros 2 ++ nr ++ zeros 2 ++ ch)
      with ((name ++ sz ++ va ++ sz ++ zeros 4 ++ zeros 4 ++ zeros 2 ++
             zeros 2 ++ nr ++ zeros 2) ++ ch ++ [])
      by (by rewrite <- !app_assoc, app_nil_r).
    apply slice_app_mid;
      rewrite ?length_app, ?length_zeros, ?Hn, ?Hsz, ?Hva, ?Hnr, ?Hch;
      reflexivity.
Qed.

Lemma COFFSection_pack_layout_witness :
  ∃ p, COFFSection_pack text_with_reloc = Ok p ∧
    slice p 32 34 = bytes_of [1; 0] ∧ slice p 36 40 = bytes_of [0x20; 0; 0; 0x60].
Proof.
  eexists. split; [vm_compute; reflexivity|].
  destruct (COFFSection_pack_layout text_with_reloc
              (bytes_of [46; 116; 101; 120; 116; 0; 0; 0; 0; 0; 0; 0; 0; 0; 0;
                         0; 0; 0; 0; 0; 0; 0; 0; 0; 0; 0; 0; 0; 0; 0; 0; 0;
                         1; 0; 0; 0; 0x20; 0; 0; 0x60]))
    as (e & _ & _ & _ & _ & H32 & _ & H36); [vm_compute; reflexivity|].
  split; [exact H32 | exact H36].
Defined.

(** ** Relocation and file header records *)

Lemma COFFRelocation_pack_Ok self p :
  COFFRelocation_pack self = Ok p →
  reloc_in_range self ∧
  p = le_split 4 (reloc_VirtualAddress self)
      ++ le_split 4 (reloc_SymbolTableIndex self)
      ++ le_split 2 (reloc_Type self).
Proof.
  unfold COFFRelocation_pack. intros H. inv_pack H.
  split; [unfold reloc_in_range; simpl in *; lia | reflexivity].
Qed.

Lemma COFFRelocation_pack_length self p :
  COFFRelocation_pack self = Ok p → length p = 10%nat.
Proof.
  intros [_ ->]%COFFRelocation_pack_Ok.
  rewrite !length_app, !length_le_split'. reflexivity.
Qed.

Lemma COFFHeader_pack_Ok self now p h :
  COFFHeader_pack self now = Ok (p, h) →
  h = set_TimeDateStamp self now ∧
  0 ≤ now < 2 ^ 32 ∧ header_in_range self ∧
  p = le_split 2 (Machine self)
      ++ le_split 2 (NumberOfSections self)
      ++ le_split 4 now
      ++ le_split 4 (PointerToSymbolTable self)
      ++ le_split 4 (NumberOfSymbols self)
      ++ le_split 2 (SizeOfOptionalHeader self)
      ++ le_split 2 (Characteristics self).
Proof.
  unfold COFFHeader_pack. intros (q & H & [= <- <-])%bind_Ok. inv_pack H.
  split; [done|]. simpl in *.
  split; [lia|]. split; [unfold header_in_range; lia | reflexivity].
Qed.

Lemma COFFHeader_pack_length self now p h :
  COFFHeader_pack self now = Ok (p, h) → length p = 20%nat.
Proof.
  intros (_ & _ & _ & ->)%COFFHeader_pack_Ok.
  rewrite !length_app, !length_le_split'. reflexivity.
Qed.

(** ** The string table and the symbol record *)

Lemma COFFGenerator_string_Ok self s off self' :
  COFFGenerator_string self s = Ok (off, self') →
  ∃ e, encode s = Ok e ∧
    off = length (strings self) ∧
    Z.of_nat (length (strings self ++ e ++ [Byte.x00])) < 2 ^ 32 ∧
    self' = set_strings self (strtab_append (strings self) e).
Proof.
  unfold COFFGenerator_string.
  intros (e & He & (p & [Hr ->]%pack_I_Ok & [= <- <-])%bind_Ok)%bind_Ok.
  exists e. simpl in *. unfold strtab_append. split_and!; [done..|lia|done].
Qed.

Lemma strtab_append_unfold tbl e :
  (4 ≤ length tbl)%nat →
  strtab_append tbl e =
  le_split 4 (Z.of_nat (length tbl + length e + 1)) ++ drop 4 tbl ++ e ++ [Byte.x00].
Proof.
  intros Hlen. unfold strtab_append, slice_assign. simpl take.
  rewrite (drop_app_le tbl) by (simpl; lia).
  rewrite !length_app. simpl.
  by replace (length tbl + (length e + 1))%nat
    with (length tbl + length e + 1)%nat by lia.
Qed.

Lemma length_strtab_append tbl e :
  (4 ≤ length tbl)%nat →
  length (strtab_append tbl e) = (length tbl + length e + 1)%nat.
Proof.
  intros Hlen. rewrite strtab_append_unfold by done.
  rewrite !length_app, length_le_split', length_drop. simpl. lia.
Qed.

Lemma length_symbol_tail self : length (symbol_tail self) = 10%nat.
Proof.
  unfold symbol_tail. rewrite !length_app, !length_le_split', length_zeros.
  reflexivity.
Qed.

Lemma COFFSymbol_pack_short self g p g' :
  (length (sym_name self) ≤ 8)%nat →
  COFFSymbol_pack self g = Ok (p, g') →
  ∃ e, encode (sym_name self) = Ok e ∧ g' = g ∧ symbol_in_range self ∧
    p = (take 8 e ++ zeros (8 - length e)) ++ symbol_tail self.
Proof.
  intros Hlen. unfold COFFSymbol_pack.
  replace (length (sym_name self) <=? 8)%nat with true
    by (symmetry; by apply Nat.leb_le).
  intros ([nb g1] & (e & He & [= <- <-])%bind_Ok
            & (q & H & [= <- <-])%bind_Ok)%bind_Ok.
  inv_pack H. exists e. split; [done|]. split; [done|].
  split; [unfold symbol_in_range; simpl in *; lia|].
  by rewrite ljust_take_ljust.
Qed.

Lemma COFFSymbol_pack_long self g p g' :
  (8 < length (sym_name self))%nat →
  COFFSymbol_pack self g = Ok (p, g') →
  COFFGenerator_string g (sym_name self) = Ok (length (strings g), g') ∧
  symbol_in_range self ∧
  p = (zeros 4 ++ le_split 4 (Z.of_nat (length (strings g))))
      ++ symbol_tail self.
Proof.
  intros Hlen. unfold COFFSymbol_pack.
  replace (length (sym_name self) <=? 8)%nat with false
    by (symmetry; apply Nat.leb_gt; lia).
  intros ([nb g1] & ([off g2] & Hs & (q & Hq & [= <- <-])%bind_Ok)%bind_Ok
            & (r & H & [= <- <-])%bind_Ok)%bind_Ok.
  pose proof Hs as (e & _ & -> & _ & _)%COFFGenerator_string_Ok.
  inv_pack Hq. inv_pack H. split; [done|].
  split; [unfold symbol_in_range; simpl in *; lia|].
  reflexivity.
Qed.

Lemma COFFSymbol_pack_length self g p g' :
  COFFSymbol_pack self g = Ok (p, g') → length p = 18%nat.
Proof.
  intros H. destruct (decide (length (sym_name self) ≤ 8)%nat) as [Hle|Hgt].
  - apply COFFSymbol_pack_short in H as (e & _ & _ & _ & ->); [|done].
    by rewrite length_app, length_name_field, length_symbol_tail.
  - apply COFFSymbol_pack_long in H as (_ & _ & ->); [|lia].
    rewrite !length_app, length_zeros, length_le_split', length_symbol_tail.
    reflexivity.
Qed.

Lemma slice_app_head (m c : bytes) j : length m = j → slice (m ++ c) 0 j = m.
Proof. intros <-. by apply (slice_app_mid [] m c). Qed.

(** The record of a symbol with a long name: a zero sentinel, the length
    the string table had, and the name appended to the table. *)
Lemma COFFSymbol_pack_long_form self g p g' :
  (8 < length (sym_name self))%nat →
  COFFSymbol_pack self g = Ok (p, g') →
  ∃ e, encode (sym_name self) = Ok e ∧
    slice p 0 4 = zeros 4 ∧
    slice p 4 8 = le_split 4 (Z.of_nat (length (strings g))) ∧
    g' = set_strings g (strtab_append (strings g) e).
Proof.
  intros Hlen H.
  apply COFFSymbol_pack_long in H as (Hs & _ & ->); [|done].
  apply COFFGenerator_string_Ok in Hs as (e & He & _ & _ & ->).
  exists e. split; [done|]. rewrite <- !app_assoc.
  split; [by apply slice_app_head|]. split; [|done].
  apply slice_app_mid; [done|]. by rewrite length_le_split'.
Qed.

(** C10: [COFFSymbol.pack] chooses the form of the name field by the number
    of characters of the name.  With at most 8 characters the field holds
    the encoded name, cut to 8 bytes when the encoding is longer and filled
    with zero bytes when it is shorter, and the generator (its string table
    included) is left as it was; with more than 8 characters the field
    holds four zero bytes and the offset at which the name is appended to
    the string table, which is the length of the table before the call. *)
Theorem COFFSymbol_pack_name_form self g p g' :
  COFFSymbol_pack self g = Ok (p, g') →
  ((length (sym_name self) ≤ 8)%nat →
     ∃ e, encode (sym_name self) = Ok e ∧
       slice p 0 8 = take 8 e ++ zeros (8 - length e) ∧
       g' = g) ∧
  ((8 < length (sym_name self))%nat →
     ∃ e, encode (sym_name self) = Ok e ∧
       slice p 0 4 = zeros 4 ∧
       slice p 4 8 = le_split 4 (Z.of_nat (length (strings g))) ∧
       g' = set_strings g (strtab_append (strings g) e)).
Proof.
  intros H. split; intros Hlen.
  - apply COFFSymbol_pack_short in H as (e & He & -> & _ & ->); [|done].
    exists e. split; [done|]. split; [|done].
    apply slice_app_head, length_name_field.
  - by apply COFFSymbol_pack_long_form.
Qed.

Lemma COFFSymbol_pack_name_form_witness :
  (length (sym_name accented_symbol) ≤ 8)%nat ∧
  ∃ p, COFFSymbol_pack accented_symbol fresh = Ok (p, fresh) ∧
    ∃ e, encode (sym_name accented_symbol) = Ok e ∧ length e = 16%nat ∧
      slice p 0 8 = take 8 e ++ zeros (8 - length e).
Proof.
  split; [simpl; lia|].
  eexists. split; [vm_compute; reflexivity|].
  destruct (COFFSymbol_pack_name_form accented_symbol fresh
              (bytes_of [195; 169; 195; 169; 195; 169; 195; 169;
                         0; 0; 0; 0; 1; 0; 0x20; 0; 2; 0]) fresh)
    as [Hshort _]; [vm_compute; reflexivity|].
  destruct Hshort as (e & He & Hs & _); [simpl; lia|].
  exists e. split; [exact He|]. split; [|exact Hs].
  vm_compute in He. injection He as <-. reflexivity.
Defined.

(** ** [gen.symbol] and the string table *)

(** C4, as stated, fails: after [gen.symbol] with a name of 32 characters
    on a fresh generator the string table still is its 4-byte prefix, while
    appending the name would have made it 37 bytes long. *)
Lemma COFFGenerator_symbol_long_name_not_appended :
  strings (COFFGenerator_symbol fresh long_name 0 0 0x20 2).2
    = [Byte.x04; Byte.x00; Byte.x00; Byte.x00] ∧
  ∃ g, COFFGenerator_string fresh long_name = Ok (4%nat, g) ∧
    length (strings g) = 37%nat ∧
    strings (COFFGenerator_symbol fresh long_name 0 0 0x20 2).2 ≠ strings g.
Proof.
  split; [reflexivity|].
  eexists. split; [vm_compute; reflexivity|].
  split; [reflexivity | vm_compute; discriminate].
Qed.

(** C4, amended: [gen.symbol] stores the name in the symbol it appends to
    the symbol list and leaves the string table as it was.  When the name
    has more than 8 characters, the name followed by a zero byte is
    appended to the string table each time the symbol is packed (by
    [emit]), and the offset written into the record is the length the table
    has at that moment. *)
Theorem COFFGenerator_symbol_defers_string self name value section type_ storage :
  let sym := (COFFGenerator_symbol self name value section type_ storage).1 in
  let self' := (COFFGenerator_symbol self name value section type_ storage).2 in
  strings self' = strings self ∧
  symbols self' = symbols self ++ [sym] ∧
  sym_name sym = name ∧
  NumberOfSymbols (header self') = NumberOfSymbols (header self) + 1 ∧
  ∀ g p g',
    (8 < length name)%nat → (4 ≤ length (strings g))%nat →
    COFFSymbol_pack sym g = Ok (p, g') →
    ∃ e, encode name = Ok e ∧
      slice p 4 8 = le_split 4 (Z.of_nat (length (strings g))) ∧
      drop 4 (strings g') = drop 4 (strings g) ++ e ++ [Byte.x00].
Proof.
  simpl. split; [done|]. split; [done|]. split; [done|]. split; [done|].
  intros g p g' Hlen Htbl H.
  apply COFFSymbol_pack_long_form in H as (e & He & _ & Hoff & ->); [|done].
  exists e. split; [done|]. split; [done|].
  change (strings (set_strings g (strtab_append (strings g) e)))
    with (strtab_append (strings g) e).
  rewrite strtab_append_unfold by done.
  rewrite drop_app_length'; [done | by rewrite length_le_split'].
Qed.

Lemma COFFGenerator_symbol_defers_string_witness :
  strings (COFFGenerator_symbol fresh long_name 0 0 0x20 2).2 = strings fresh ∧
  ∃ p g', COFFSymbol_pack
            (COFFGenerator_symbol fresh long_name 0 0 0x20 2).1 fresh
          = Ok (p, g') ∧
    slice p 4 8 = bytes_of [4; 0; 0; 0] ∧ length (strings g') = 37%nat.
Proof.
  destruct (COFFGenerator_symbol_defers_string fresh long_name 0 0 0x20 2)
    as (Hs & _ & _ & _ & Hpack).
  split; [exact Hs|].
  eexists. eexists. split; [vm_compute; reflexivity|].
  edestruct (Hpack fresh) as (e & He & Hoff & Hdrop);
    [vm_compute; lia | vm_compute; lia | vm_compute; reflexivity |].
  split; [exact Hoff | reflexivity].
Defined.

(** ** The layout algorithm *)

Lemma foldM_cons_Ok {A B : Type} (f : B → A → outcome B) b x l y :
  foldM f b (x :: l) = Ok y → ∃ b', f b x = Ok b' ∧ foldM f b' l = Ok y.
Proof. simpl. apply bind_Ok. Qed.

Lemma foldM_invariant {A B : Type} (f : B → A → outcome B) (P : B → Prop) l :
  (∀ b x b', x ∈ l → f b x = Ok b' → P b → P b') →
  ∀ b b', foldM f b l = Ok b' → P b → P b'.
Proof.
  induction l as [|x l IH]; intros Hf b b' H Hb.
  - injection H as <-. done.
  - apply foldM_cons_Ok in H as (b1 & H1 & H).
    eapply IH; [|done|].
    + intros ? y ? Hy. apply Hf. by apply list_elem_of_further.
    + eapply Hf; [|done..]. apply list_elem_of_here.
Qed.

(** The stages of a call of [emit] that returns. *)
Lemma COFFGenerator_emit_Ok self now buf self' :
  COFFGenerator_emit self now = Ok (buf, self') →
  ∃ r1 hdrs r2 r3 r4 g4 p,
    foldM emit_header_step (zeros 20, ∅) (sections self) = Ok (r1, hdrs) ∧
    foldM (emit_data_step hdrs) r1 (sections self) = Ok r2 ∧
    foldM (emit_reloc_step hdrs) r2 (sections self) = Ok r3 ∧
    foldM emit_symbol_step (r3, PointerToSymbolTable_set self r3)
      (symbols self) = Ok (r4, g4) ∧
    COFFHeader_pack (header g4) now
      = Ok (p, set_TimeDateStamp (header g4) now) ∧
    buf = slice_assign (r4 ++ strings g4) 0 20 p ∧
    self' = set_header g4 (set_TimeDateStamp (header g4) now).
Proof.
  unfold COFFGenerator_emit.
  intros ([r1 hdrs] & H1 & H)%bind_Ok.
  apply bind_Ok in H as (r2 & H2 & H).
  apply bind_Ok in H as (r3 & H3 & H).
  apply bind_Ok in H as ([r4 g4] & H4 & H).
  apply bind_Ok in H as ([p h] & H5 & [= <- <-]).
  pose proof H5 as (-> & _)%COFFHeader_pack_Ok.
  by exists r1, hdrs, r2, r3, r4, g4, p.
Qed.

(** First loop: one 40-byte record per section; every recorded offset is
    the start of a record inside the buffer. *)
Lemma emit_headers_length secs : ∀ r h r1 h1,
  foldM emit_header_step (r, h) secs = Ok (r1, h1) →
  length r1 = (length r + 40 * length secs)%nat.
Proof.
  induction secs as [|sec secs IH]; intros r h r1 h1 H.
  - injection H as <- <-. simpl. lia.
  - apply foldM_cons_Ok in H as ([r' h'] & Hs & H).
    apply bind_Ok in Hs as (p & Hp%COFFSection_pack_length & [= <- <-]).
    apply IH in H. rewrite H, length_app, Hp. simpl. lia.
Qed.

Lemma emit_headers_bound secs : ∀ r h r1 h1,
  foldM emit_header_step (r, h) secs = Ok (r1, h1) →
  map_Forall (λ _ v, (v + 40 ≤ length r)%nat) h →
  map_Forall (λ _ v, (v + 40 ≤ length r1)%nat) h1.
Proof.
  induction secs as [|sec secs IH]; intros r h r1 h1 H Hh.
  - by injection H as <- <-.
  - apply foldM_cons_Ok in H as ([r' h'] & Hs & H).
    apply bind_Ok in Hs as (p & Hp%COFFSection_pack_length & [= <- <-]).
    eapply IH; [done|]. rewrite length_app, Hp.
    apply map_Forall_insert_2; [lia|].
    eapply map_Forall_impl; [done|]. simpl. lia.
Qed.

Lemma emit_headers_dom secs : ∀ r h r1 h1,
  foldM emit_header_step (r, h) secs = Ok (r1, h1) →
  ∀ k, (is_Some (h !! k) ∨ k ∈ map sec_name secs) → is_Some (h1 !! k).
Proof.
  induction secs as [|sec secs IH]; intros r h r1 h1 H k Hk.
  - injection H as <- <-. destruct Hk as [Hk|Hk]; [done|]. by inversion Hk.
  - apply foldM_cons_Ok in H as ([r' h'] & Hs & H).
    apply bind_Ok in Hs as (p & _ & [= <- <-]).
    eapply IH; [done|].
    destruct (decide (k = sec_name sec)) as [->|Hne].
    + left. rewrite lookup_insert_eq. eauto.
    + rewrite lookup_insert_ne by done.
      destruct Hk as [Hk|Hk]; [by left|].
      simpl in Hk. apply elem_of_cons in Hk as [?|?]; [done | by right].
Qed.

(** Second loop: the patch keeps the length, the data is appended. *)
Lemma emit_data_step_length hdrs r sec r' :
  map_Forall (λ _ v, (v + 40 ≤ length r)%nat) hdrs →
  emit_data_step hdrs r sec = Ok r' →
  length r' = (length r + length (sec_data sec))%nat.
Proof.
  intros Hh. unfold emit_data_step, dict_get.
  destruct (hdrs !! sec_name sec) as [v|] eqn:Hv; [|discriminate]. simpl.
  intros (p & [_ ->]%pack_I_Ok & [= <-])%bind_Ok.
  apply Hh in Hv. simpl in Hv.
  rewrite length_app, length_slice_assign; [done| |lia].
  rewrite length_le_split'. lia.
Qed.

Lemma emit_data_length hdrs secs : ∀ r r2,
  map_Forall (λ _ v, (v + 40 ≤ length r)%nat) hdrs →
  foldM (emit_data_step hdrs) r secs = Ok r2 →
  length r2 =
  (length r + sum_list_with (λ sec, length (sec_data sec)) secs)%nat.
Proof.
  induction secs as [|sec secs IH]; intros r r2 Hh H.
  - injection H as <-. simpl. lia.
  - apply foldM_cons_Ok in H as (r' & Hs & H).
    pose proof (emit_data_step_length _ _ _ _ Hh Hs) as Hlen.
    apply IH in H.
    + rewrite H, Hlen. simpl. lia.
    + eapply map_Forall_impl; [done|]. simpl. lia.
Qed.

(** Third loop: 10 bytes per relocation. *)
Lemma emit_reloc_length relocs : ∀ r r',
  foldM emit_reloc r relocs = Ok r' →
  length r' = (length r + 10 * length relocs)%nat.
Proof.
  induction relocs as [|reloc relocs IH]; intros r r' H.
  - injection H as <-. simpl. lia.
  - apply foldM_cons_Ok in H as (r1 & Hs & H).
    apply bind_Ok in Hs as (p & Hp%COFFRelocation_pack_length & [= <-]).
    apply IH in H. rewrite H, length_app, Hp. simpl. lia.
Qed.

Lemma emit_reloc_step_length hdrs r sec r' :
  map_Forall (λ _ v, (v + 40 ≤ length r)%nat) hdrs →
  emit_reloc_step hdrs r sec = Ok r' →
  length r' = (length r + 10 * length (sec_relocations sec))%nat.
Proof.
  intros Hh. unfold emit_reloc_step, dict_get.
  destruct (0 <? length (sec_relocations sec))%nat eqn:Hn.
  - destruct (hdrs !! sec_name sec) as [v|] eqn:Hv; [|discriminate]. simpl.
    intros (p & [_ ->]%pack_H_Ok & H)%bind_Ok.
    apply Hh in Hv. simpl in Hv.
    apply emit_reloc_length in H. rewrite H, length_slice_assign; [done| |lia].
    rewrite length_le_split'. lia.
  - intros [= <-]. apply Nat.ltb_ge in Hn.
    replace (length (sec_relocations sec)) with 0%nat by lia. lia.
Qed.

Lemma emit_relocs_length hdrs secs : ∀ r r3,
  map_Forall (λ _ v, (v + 40 ≤ length r)%nat) hdrs →
  foldM (emit_reloc_step hdrs) r secs = Ok r3 →
  length r3 =
  (length r + 10 * sum_list_with (λ sec, length (sec_relocations sec)) secs)%nat.
Proof.
  induction secs as [|sec secs IH]; intros r r3 Hh H.
  - injection H as <-. simpl. lia.
  - apply foldM_cons_Ok in H as (r' & Hs & H).
    pose proof (emit_reloc_step_length _ _ _ _ Hh Hs) as Hlen.
    apply IH in H.
    + rewrite H, Hlen. simpl. lia.
    + eapply map_Forall_impl; [done|]. simpl. lia.
Qed.

(** Fourth loop: 18 bytes per symbol; the generator changes in its string
    table only, by one append per symbol with a long name. *)
Lemma set_strings_id g : set_strings g (strings g) = g.
Proof. by destruct g. Qed.

Lemma emit_symbols_Ok syms : ∀ r g r4 g4,
  foldM emit_symbol_step (r, g) syms = Ok (r4, g4) →
  length r4 = (length r + 18 * length syms)%nat ∧
  ∃ es,
    Forall2 (λ sym e, encode (sym_name sym) = Ok e) (filter long_named syms) es ∧
    g4 = set_strings g (foldl strtab_append (strings g) es).
Proof.
  induction syms as [|sym syms IH]; intros r g r4 g4 H.
  - injection H as <- <-. split; [simpl; lia|].
    exists []. split; [constructor|]. simpl. by rewrite set_strings_id.
  - apply foldM_cons_Ok in H as ([r' g'] & Hs & H).
    apply bind_Ok in Hs as ([p g1] & Hp & [= <- <-]).
    apply IH in H as (Hlen & es & Hes & ->).
    split; [rewrite Hlen, length_app, (COFFSymbol_pack_length _ _ _ _ Hp);
            simpl; lia|].
    destruct (decide (long_named sym)) as [Hlong|Hshort].
    + apply COFFSymbol_pack_long in Hp as (Hstr & _ & _); [|done].
      apply COFFGenerator_string_Ok in Hstr as (e & He & _ & _ & ->).
      exists (e :: es). rewrite filter_cons_True by done.
      split; [by constructor|]. done.
    + apply COFFSymbol_pack_short in Hp as (e & _ & -> & _);
        [|unfold long_named in Hshort; lia].
      exists es. by rewrite filter_cons_False by done.
Qed.

Lemma emit_symbols_short syms : ∀ r g r4 g4,
  Forall (λ sym, ¬ long_named sym) syms →
  foldM emit_symbol_step (r, g) syms = Ok (r4, g4) →
  g4 = g ∧ ∀ g', foldM emit_symbol_step (r, g') syms = Ok (r4, g').
Proof.
  induction syms as [|sym syms IH]; intros r g r4 g4 Hshort H.
  - by injection H as <- <-.
  - apply Forall_cons in Hshort as [Hsym Hshort].
    apply foldM_cons_Ok in H as ([r' g'] & Hs & H).
    apply bind_Ok in Hs as ([p g1] & Hp & [= <- <-]).
    assert (g1 = g ∧ ∀ g', COFFSymbol_pack sym g' = Ok (p, g')) as [-> Hany].
    { revert Hp. unfold COFFSymbol_pack.
      replace (length (sym_name sym) <=? 8)%nat with true
        by (symmetry; apply Nat.leb_le; unfold long_named in Hsym; lia).
      destruct (encode (sym_name sym)) as [e|]; [|discriminate]. simpl.
      destruct (struct.pack _ _) as [q|]; [|discriminate]. simpl.
      by intros [= <- <-]. }
    apply IH in H as [-> Hall]; [|done]. split; [done|].
    intros g'. simpl. rewrite Hany. simpl. apply Hall.
Qed.

(** *** The prefix law of the string table

    The string table keeps its prefix law under appends that succeed. *)

Lemma COFFGenerator_string_prefix_ok self s off self' :
  COFFGenerator_string self s = Ok (off, self') →
  strtab_prefix_ok (strings self) → strtab_prefix_ok (strings self').
Proof.
  intros (e & _ & _ & Hr & ->)%COFFGenerator_string_Ok [Hlen _].
  change (strings (set_strings self (strtab_append (strings self) e)))
    with (strtab_append (strings self) e).
  split; [rewrite length_strtab_append by done; lia|].
  rewrite length_strtab_append, strtab_append_unfold by done.
  rewrite take_app_length' by (by rewrite length_le_split').
  rewrite le_combine_split. apply Z.mod_small.
  rewrite !length_app in Hr. simpl in Hr. lia.
Qed.

Lemma COFFSymbol_pack_prefix_ok self g p g' :
  COFFSymbol_pack self g = Ok (p, g') →
  strtab_prefix_ok (strings g) → strtab_prefix_ok (strings g').
Proof.
  intros H. destruct (decide (long_named self)) as [Hlong|Hshort].
  - apply COFFSymbol_pack_long in H as (Hs & _); [|done].
    by eapply COFFGenerator_string_prefix_ok.
  - apply COFFSymbol_pack_short in H as (e & _ & -> & _); [done|].
    unfold long_named in Hshort. lia.
Qed.

Lemma emit_symbols_prefix_ok syms r g r4 g4 :
  foldM emit_symbol_step (r, g) syms = Ok (r4, g4) →
  strtab_prefix_ok (strings g) → strtab_prefix_ok (strings g4).
Proof.
  intros H Hg.
  refine (foldM_invariant emit_symbol_step
            (λ st, strtab_prefix_ok (strings st.2)) syms _ _ _ H Hg).
  intros [r1 g1] sym [r2 g2] _ Hs. simpl.
  apply bind_Ok in Hs as ([p g3] & Hp & [= <- <-]).
  by eapply COFFSymbol_pack_prefix_ok.
Qed.

Lemma COFFGenerator_emit_prefix_ok self now buf self' :
  COFFGenerator_emit self now = Ok (buf, self') →
  strtab_prefix_ok (strings self) → strtab_prefix_ok (strings self').
Proof.
  intros (r1 & hdrs & r2 & r3 & r4 & g4 & p & _ & _ & _ & H4 & _ & _ & ->)
    %COFFGenerator_emit_Ok.
  intros Hself. by apply (emit_symbols_prefix_ok _ _ _ _ _ H4).
Qed.

Lemma step_prefix_ok self o self' :
  step self o = Ok self' →
  strtab_prefix_ok (strings self) → strtab_prefix_ok (strings self').
Proof.
  destruct o; simpl.
  - by intros [= <-].
  - by intros (sec & _ & [= <-])%bind_Ok.
  - by intros (sec & _ & [= <-])%bind_Ok.
  - by intros [= <-].
  - intros ([off g] & Hs & [= <-])%bind_Ok.
    by eapply COFFGenerator_string_prefix_ok.
  - intros ([buf g] & He & [= <-])%bind_Ok.
    by eapply COFFGenerator_emit_prefix_ok.
Qed.

(** C8: in every state reached from a new generator by calls of [section],
    [section.emit], [section.reloc], [symbol], [string] and [emit], the
    first 4 bytes of the string table, read as an unsigned integer, are the
    length of the table (these 4 bytes included). *)
Theorem strings_prefix_is_length is64bit t0 ops self :
  run (COFFGenerator_init is64bit t0) ops = Ok self →
  le_combine (take 4 (strings self)) = Z.of_nat (length (strings self)).
Proof.
  intros H.
  refine (proj2 (foldM_invariant step (λ g, strtab_prefix_ok (strings g)) ops
                   _ _ _ H _)).
  - intros g o g' _. apply step_prefix_ok.
  - split; [simpl; lia | reflexivity].
Qed.

Lemma strings_prefix_is_length_witness :
  ∃ self,
    run fresh (example_ops ++ [op_symbol long_name 0 0 0x20 2;
                               op_string (py "hello"); op_emit 1700000000])
      = Ok self ∧
    le_combine (take 4 (strings self)) = 43.
Proof.
  eexists. split; [vm_compute; reflexivity|].
  etrans;
    [apply (strings_prefix_is_length true 0
              (example_ops ++ [op_symbol long_name 0 0 0x20 2;
                               op_string (py "hello"); op_emit 1700000000]));
     vm_compute; reflexivity|].
  reflexivity.
Defined.

(** *** The buffer [emit] returns and the state it leaves *)

Lemma length_header_bytes h : length (header_bytes h) = 20%nat.
Proof. unfold header_bytes. by rewrite !length_app, !length_le_split'. Qed.

Lemma COFFGenerator_emit_shape self now buf self' :
  COFFGenerator_emit self now = Ok (buf, self') →
  ∃ body es,
    Forall2 (λ sym e, encode (sym_name sym) = Ok e)
      (filter long_named (symbols self)) es ∧
    self' =
      {| is64bit := is64bit self;
         symbols := symbols self;
         sections := sections self;
         strings := foldl strtab_append (strings self) es;
         header :=
           set_TimeDateStamp
             (set_PointerToSymbolTable (header self)
                (Z.of_nat (symtab_offset self))) now |} ∧
    length body = (symtab_offset self - 20 + 18 * length (symbols self))%nat ∧
    buf = header_bytes (header self') ++ body ++ strings self'.
Proof.
  intros (r1 & hdrs & r2 & r3 & r4 & g4 & p & H1 & H2 & H3 & H4 & H5 & -> & ->)
    %COFFGenerator_emit_Ok.
  pose proof (emit_headers_length _ _ _ _ _ H1) as L1.
  pose proof (emit_headers_bound _ _ _ _ _ H1 (map_Forall_empty _)) as B1.
  pose proof (emit_data_length _ _ _ _ B1 H2) as L2.
  assert (map_Forall (λ _ v, (v + 40 ≤ length r2)%nat) hdrs) as B2.
  { eapply map_Forall_impl; [done|]. simpl. lia. }
  pose proof (emit_relocs_length _ _ _ _ B2 H3) as L3.
  apply emit_symbols_Ok in H4 as (L4 & es & Hes & ->).
  assert (length r3 = symtab_offset self) as Hptr.
  { unfold symtab_offset, data_size, reloc_count.
    rewrite L3, L2, L1, length_zeros. lia. }
  apply COFFHeader_pack_Ok in H5 as (_ & _ & _ & ->).
  exists (drop 20 r4), es. split; [done|].
  unfold PointerToSymbolTable_set in *. rewrite Hptr.
  assert (20 ≤ length r4)%nat as Hr4 by (unfold symtab_offset in Hptr; lia).
  split; [done|].
  split; [rewrite length_drop; unfold symtab_offset in *; lia|].
  unfold slice_assign. simpl take.
  rewrite drop_app_le by done. reflexivity.
Qed.

(** In every state reached through the interface, the counts in the header
    are the lengths of the section list and of the symbol list. *)
Lemma run_header_counts is64bit t0 ops self :
  run (COFFGenerator_init is64bit t0) ops = Ok self →
  NumberOfSections (header self) = Z.of_nat (length (sections self)) ∧
  NumberOfSymbols (header self) = Z.of_nat (length (symbols self)).
Proof.
  intros H.
  refine (foldM_invariant step
            (λ g, NumberOfSections (header g) = Z.of_nat (length (sections g)) ∧
                  NumberOfSymbols (header g) = Z.of_nat (length (symbols g)))
            ops _ _ _ H _); [|done].
  intros g o g' _ Hstep [Hsec Hsym]. destruct o; simpl in Hstep.
  - injection Hstep as <-. simpl. rewrite length_app. simpl. lia.
  - apply bind_Ok in Hstep as (sec & _ & [= <-]). simpl.
    by rewrite length_insert.
  - apply bind_Ok in Hstep as (sec & _ & [= <-]). simpl.
    by rewrite length_insert.
  - injection Hstep as <-. simpl. rewrite length_app. simpl. lia.
  - apply bind_Ok in Hstep as ([off g1] & Hs & [= <-]).
    by apply COFFGenerator_string_Ok in Hs as (e & _ & _ & _ & ->).
  - apply bind_Ok in Hstep as ([buf g1] & He & [= <-]).
    by apply COFFGenerator_emit_shape in He as (body & es & _ & -> & _ & _).
Qed.

(** C7, as stated, fails: the generator with one symbol whose name has 32
    characters is reached through the interface; [emit] returns 75 bytes
    on it, while the sizes of the generator it is called on add up to
    20 + 18 + 4 = 42.  [emit] appends the name and a zero byte to the
    string table before it writes the table. *)
Lemma COFFGenerator_emit_length_not_of_configuration :
  ∃ buf self',
    run fresh [op_symbol long_name 0 0 0x20 2] = Ok with_long_symbol ∧
    COFFGenerator_emit with_long_symbol 1 = Ok (buf, self') ∧
    length buf = 75%nat ∧
    (20 + 40 * length (sections with_long_symbol) + data_size with_long_symbol
     + 10 * reloc_count with_long_symbol
     + 18 * length (symbols with_long_symbol)
     + length (strings with_long_symbol))%nat = 42%nat ∧
    length (strings self') = 37%nat.
Proof.
  do 2 eexists. split; [reflexivity|]. split; [vm_compute; reflexivity|].
  split; [reflexivity|]. split; reflexivity.
Qed.

(** C7, amended: the buffer [emit] returns is the 20-byte file header, then
    40 bytes per section, the data of every section, 10 bytes per
    relocation and 18 bytes per symbol, then the string table, with nothing
    in between: its length is the sum of these sizes, and it ends with the
    string table.  The string table is the one the generator holds when
    [emit] returns; it is the table [emit] was called with when no symbol
    name has more than 8 characters. *)
Theorem COFFGenerator_emit_length self now buf self' :
  COFFGenerator_emit self now = Ok (buf, self') →
  length buf =
    (20 + 40 * length (sections self) + data_size self
     + 10 * reloc_count self + 18 * length (symbols self)
     + length (strings self'))%nat ∧
  drop (length buf - length (strings self')) buf = strings self' ∧
  (Forall (λ sym, (length (sym_name sym) ≤ 8)%nat) (symbols self) →
   strings self' = strings self).
Proof.
  intros (body & es & Hes & Hself & Hbody & ->)%COFFGenerator_emit_shape.
  split; [|split].
  - rewrite !length_app, length_header_bytes, Hbody.
    unfold symtab_offset. lia.
  - rewrite app_assoc, drop_app_length'; [done|].
    rewrite !length_app. lia.
  - intros Hshort. rewrite Hself. simpl.
    replace (filter long_named (symbols self)) with (@nil COFFSymbol) in Hes.
    { apply Forall2_nil_inv_l in Hes as ->. done. }
    symmetry. clear -Hshort.
    induction Hshort as [|sym syms Hsym _ IH]; [done|].
    rewrite filter_cons_False; [done | unfold long_named; lia].
Qed.

Lemma COFFGenerator_emit_length_witness :
  COFFGenerator_emit example_generator 1700000000
    = Ok (emitted example_generator 1700000000) ∧
  length (emitted example_generator 1700000000).1 = 211%nat ∧
  strings (emitted example_generator 1700000000).2 = strings example_generator.
Proof.
  split; [vm_compute; reflexivity|].
  destruct (COFFGenerator_emit_length example_generator 1700000000
              (emitted example_generator 1700000000).1
              (emitted example_generator 1700000000).2)
    as (Hlen & _ & Hstr); [vm_compute; reflexivity|].
  split; [exact Hlen|]. apply Hstr. vm_compute. repeat constructor.
Defined.

Lemma filter_long_named_short syms :
  Forall (λ sym, (length (sym_name sym) ≤ 8)%nat) syms →
  filter long_named syms = [].
Proof.
  induction 1 as [|sym syms Hsym _ IH]; [done|].
  rewrite filter_cons_False; [done | unfold long_named; lia].
Qed.

Lemma foldl_strtab_append_drop es : ∀ tbl,
  (4 ≤ length tbl)%nat →
  drop 4 (foldl strtab_append tbl es)
  = drop 4 tbl ++ concat (map (λ e, e ++ [Byte.x00]) es).
Proof.
  induction es as [|e es IH]; intros tbl Hlen; simpl.
  - by rewrite app_nil_r.
  - rewrite IH by (rewrite length_strtab_append by done; lia).
    rewrite strtab_append_unfold by done.
    rewrite drop_app_length' by (by rewrite length_le_split').
    by rewrite <- !app_assoc.
Qed.

(** C3, as stated, fails: [emit] on a generator that has a symbol with a
    long name returns with the string table changed. *)
Lemma COFFGenerator_emit_changes_strings :
  ∃ buf self',
    COFFGenerator_emit with_long_symbol 1 = Ok (buf, self') ∧
    strings self' ≠ strings with_long_symbol.
Proof.
  eexists. eexists. split; [vm_compute; reflexivity | vm_compute; discriminate].
Qed.

(** C3, amended: [emit] leaves the sections (names, data, relocations) and
    the symbol list as they were.  In the header it sets the symbol-table
    pointer and the timestamp and nothing else.  To the string table it
    appends the encoded name and a zero byte of every symbol whose name has
    more than 8 characters, in the order of the symbol list, rewriting the
    4-byte length prefix; the string table is unchanged when there is no
    such symbol. *)
Theorem COFFGenerator_emit_frame self now buf self' :
  COFFGenerator_emit self now = Ok (buf, self') →
  sections self' = sections self ∧
  symbols self' = symbols self ∧
  is64bit self' = is64bit self ∧
  header self' =
    set_TimeDateStamp
      (set_PointerToSymbolTable (header self) (Z.of_nat (symtab_offset self)))
      now ∧
  (∃ es,
     Forall2 (λ sym e, encode (sym_name sym) = Ok e)
       (filter long_named (symbols self)) es ∧
     strings self' = foldl strtab_append (strings self) es ∧
     ((4 ≤ length (strings self))%nat →
      drop 4 (strings self')
      = drop 4 (strings self) ++ concat (map (λ e, e ++ [Byte.x00]) es))) ∧
  (Forall (λ sym, (length (sym_name sym) ≤ 8)%nat) (symbols self) →
   strings self' = strings self).
Proof.
  intros (body & es & Hes & -> & _ & _)%COFFGenerator_emit_shape. simpl.
  split; [done|]. split; [done|]. split; [done|]. split; [done|]. split.
  - exists es. split; [done|]. split; [done|].
    apply foldl_strtab_append_drop.
  - intros Hshort. rewrite filter_long_named_short in Hes by done.
    by apply Forall2_nil_inv_l in Hes as ->.
Qed.

Lemma COFFGenerator_emit_frame_witness :
  COFFGenerator_emit example_generator 1700000000
    = Ok (emitted example_generator 1700000000) ∧
  sections (emitted example_generator 1700000000).2
    = sections example_generator ∧
  symbols (emitted example_generator 1700000000).2
    = symbols example_generator ∧
  strings (emitted example_generator 1700000000).2
    = strings example_generator ∧
  PointerToSymbolTable (header (emitted example_generator 1700000000).2)
    = 153 ∧
  TimeDateStamp (header (emitted example_generator 1700000000).2)
    = 1700000000.
Proof.
  split; [vm_compute; reflexivity|].
  destruct (COFFGenerator_emit_frame example_generator 1700000000
              (emitted example_generator 1700000000).1
              (emitted example_generator 1700000000).2)
    as (Hsec & Hsym & _ & Hhdr & _ & Hstr); [vm_compute; reflexivity|].
  split; [exact Hsec|]. split; [exact Hsym|].
  split; [apply Hstr; vm_compute; repeat constructor|].
  split; [exact (f_equal PointerToSymbolTable Hhdr)
         | exact (f_equal TimeDateStamp Hhdr)].
Defined.

(** *** Two calls of [emit] in a row *)

Lemma lookup_agree_outside (a m1 m2 c : bytes) (i : nat) :
  length m1 = length m2 →
  (i < length a ∨ length a + length m1 ≤ i)%nat →
  (a ++ m1 ++ c) !! i = (a ++ m2 ++ c) !! i.
Proof.
  intros Hm [Hi|Hi].
  - by rewrite !lookup_app_l by done.
  - rewrite !(lookup_app_r a) by lia.
    rewrite !lookup_app_r by lia. by rewrite Hm.
Qed.

Lemma COFFHeader_pack_bytes self now p h :
  COFFHeader_pack self now = Ok (p, h) →
  p = header_bytes (set_TimeDateStamp self now).
Proof. by intros (_ & _ & _ & ->)%COFFHeader_pack_Ok. Qed.

(** Two headers that differ in the timestamp only differ in bytes 4..8
    only. *)
Lemma header_bytes_agree h t t1 t2 (rest : bytes) (i : nat) :
  (i < 4 ∨ 8 ≤ i)%nat →
  (header_bytes (set_TimeDateStamp h t1) ++ rest) !! i
  = (header_bytes (set_TimeDateStamp (set_TimeDateStamp h t) t2) ++ rest) !! i.
Proof.
  intros Hi. unfold header_bytes, set_TimeDateStamp.
  cbn [Machine NumberOfSections TimeDateStamp PointerToSymbolTable
       NumberOfSymbols SizeOfOptionalHeader Characteristics].
  rewrite !(app_assoc (le_split 2 _) (le_split 2 _)).
  rewrite <- !(app_assoc _ _ rest).
  apply lookup_agree_outside.
  - by rewrite !length_le_split'.
  - rewrite !length_app, !length_le_split'. simpl. lia.
Qed.

(** C2, as stated, fails: with a symbol whose name has more than 8
    characters, the second of two calls of [emit] returns a longer
    buffer. *)
Lemma COFFGenerator_emit_twice_lengths_differ :
  ∃ b1 g1 b2 g2,
    COFFGenerator_emit with_long_symbol 1 = Ok (b1, g1) ∧
    COFFGenerator_emit g1 2 = Ok (b2, g2) ∧
    length b1 = 75%nat ∧ length b2 = 108%nat.
Proof.
  do 4 eexists. split; [vm_compute; reflexivity|].
  split; [vm_compute; reflexivity|]. split; reflexivity.
Qed.

(** C2, amended: when no symbol name has more than 8 characters, two calls
    of [emit] with nothing in between return buffers of the same length
    that agree at every position outside bytes 4..8, the timestamp of the
    file header. *)
Theorem COFFGenerator_emit_twice self t1 t2 b1 g1 b2 g2 :
  Forall (λ sym, (length (sym_name sym) ≤ 8)%nat) (symbols self) →
  COFFGenerator_emit self t1 = Ok (b1, g1) →
  COFFGenerator_emit g1 t2 = Ok (b2, g2) →
  length b1 = length b2 ∧
  ∀ i, (i < 4 ∨ 8 ≤ i)%nat → b1 !! i = b2 !! i.
Proof.
  intros Hshort E1 E2.
  apply COFFGenerator_emit_Ok in E1
    as (r1 & hdrs & r2 & r3 & r4 & g4 & p & H1 & H2 & H3 & H4 & H5 & -> & ->).
  assert (Forall (λ sym, ¬ long_named sym) (symbols self)) as Hshort'.
  { eapply Forall_impl; [done|]. unfold long_named. simpl. lia. }
  apply emit_symbols_short in H4 as [-> Hany]; [|done].
  apply COFFGenerator_emit_Ok in E2
    as (r1' & hdrs' & r2' & r3' & r4' & g4' & p' & H1' & H2' & H3' & H4' & H5'
        & -> & ->).
  simpl in *.
  rewrite H1 in H1'. injection H1' as <- <-.
  rewrite H2 in H2'. injection H2' as <-.
  rewrite H3 in H3'. injection H3' as <-.
  rewrite Hany in H4'. injection H4' as <- <-.
  apply COFFHeader_pack_bytes in H5 as ->.
  apply COFFHeader_pack_bytes in H5' as ->.
  unfold slice_assign. simpl take. rewrite !app_nil_l.
  set (rest := drop _ _).
  set (h := header (PointerToSymbolTable_set self r3)).
  change (header (PointerToSymbolTable_set _ r3)) with (set_TimeDateStamp h t1).
  split.
  - by rewrite !length_app, !length_header_bytes.
  - intros i Hi. by apply header_bytes_agree.
Qed.

Lemma COFFGenerator_emit_twice_witness :
  let first := emitted example_generator 1700000000 in
  let second := emitted first.2 1700000777 in
  COFFGenerator_emit example_generator 1700000000 = Ok first ∧
  COFFGenerator_emit first.2 1700000777 = Ok second ∧
  length first.1 = length second.1 ∧
  first.1 !! 8%nat = second.1 !! 8%nat.
Proof.
  intros first second.
  split; [vm_compute; reflexivity|]. split; [vm_compute; reflexivity|].
  destruct (COFFGenerator_emit_twice example_generator 1700000000 1700000777
              first.1 first.2 second.1 second.2) as [Hlen Hagree].
  - vm_compute. repeat constructor.
  - vm_compute. reflexivity.
  - vm_compute. reflexivity.
  - split; [exact Hlen | apply Hagree; lia].
Defined.

(** *** A generator with no section and no symbol *)

Lemma COFFHeader_pack_total self now :
  header_in_range self → 0 ≤ now < 2 ^ 32 →
  COFFHeader_pack self now
  = Ok (header_bytes (set_TimeDateStamp self now), set_TimeDateStamp self now).
Proof.
  intros (HM & HS & HP & HN & HO & HC) Hnow.
  unfold COFFHeader_pack, struct.pack. norm_fmt.
  cbn [struct.pack_from struct.pack_field struct.padding struct.alignment
       struct.size Nat.add Nat.modulo Nat.sub Nat.divmod fst snd
       set_TimeDateStamp Machine NumberOfSections TimeDateStamp
       PointerToSymbolTable NumberOfSymbols SizeOfOptionalHeader
       Characteristics].
  rewrite !pack_uint_range by (simpl; lia).
  unfold header_bytes. simpl. by rewrite ?app_nil_r.
Qed.

(** C5, as stated, fails: the buffer [emit] returns for a new generator is
    24 bytes long, not 20. *)
Lemma COFFGenerator_emit_empty_not_20 :
  ∃ buf self',
    COFFGenerator_emit (COFFGenerator_init true 0) 1 = Ok (buf, self') ∧
    length buf = 24%nat ∧ length buf ≠ 20%nat.
Proof.
  eexists. eexists. split; [vm_compute; reflexivity|].
  split; [reflexivity | vm_compute; lia].
Qed.

(** C5, amended: for a generator constructed with [is64bit=True] to which
    no section and no symbol was added, [emit], called when the clock
    reads a positive number of seconds below 2^32, returns 24 bytes: the
    20-byte file header with machine 0x8664, zero sections, the clock
    reading as timestamp (so not zero), symbol-table pointer 20, zero
    symbols, zero optional-header size and zero characteristics, followed
    by the 4 bytes 04 00 00 00 of the empty string table. *)
Theorem COFFGenerator_emit_empty t0 now :
  0 < now < 2 ^ 32 →
  ∃ buf self',
    COFFGenerator_emit (COFFGenerator_init true t0) now = Ok (buf, self') ∧
    buf = le_split 2 0x8664 ++ le_split 2 0 ++ le_split 4 now
          ++ le_split 4 20 ++ le_split 4 0 ++ le_split 2 0 ++ le_split 2 0
          ++ [Byte.x04; Byte.x00; Byte.x00; Byte.x00] ∧
    length buf = 24%nat ∧
    le_combine (slice buf 4 8) = now ∧
    le_combine (slice buf 4 8) ≠ 0.
Proof.
  intros Hnow. eexists. eexists. split.
  - unfold COFFGenerator_emit.
    cbn [COFFGenerator_init sections symbols foldM mbind outcome_bind
         set_header header strings].
    rewrite COFFHeader_pack_total;
      [| unfold header_in_range; simpl; lia | lia].
    cbn [mbind outcome_bind]. reflexivity.
  - assert (le_combine (le_split 4 now) = now) as Hts.
    { rewrite le_combine_split. apply Z.mod_small. simpl. lia. }
    split; [reflexivity|]. split; [reflexivity|].
    assert (∀ a c, slice (a ++ le_split 4 now ++ c) (length a) (length a + 4)
                   = le_split 4 now) as Hslice.
    { intros a c. apply slice_app_mid; [done | by rewrite length_le_split']. }
    specialize (Hslice (le_split 2 0x8664 ++ le_split 2 0)
                       (le_split 4 20 ++ le_split 4 0 ++ le_split 2 0
                        ++ le_split 2 0 ++ [Byte.x04; Byte.x00; Byte.x00; Byte.x00])).
    change (slice _ 4 8) with
      (slice ((le_split 2 0x8664 ++ le_split 2 0) ++ le_split 4 now ++
              le_split 4 20 ++ le_split 4 0 ++ le_split 2 0 ++ le_split 2 0 ++
              [Byte.x04; Byte.x00; Byte.x00; Byte.x00])
             (length (le_split 2 0x8664 ++ le_split 2 0))
             (length (le_split 2 0x8664 ++ le_split 2 0) + 4)).
    rewrite Hslice, Hts. split; [done | lia].
Qed.

Lemma COFFGenerator_emit_empty_witness :
  ∃ buf self',
    COFFGenerator_emit (COFFGenerator_init true 1699999999) 1700000000
      = Ok (buf, self') ∧
    buf = bytes_of [0x64; 0x86; 0; 0; 0x00; 0xf1; 0x53; 0x65; 20; 0; 0; 0;
                    0; 0; 0; 0; 0; 0; 0; 0; 4; 0; 0; 0].
Proof.
  destruct (COFFGenerator_emit_empty 1699999999 1700000000)
    as (buf & self' & He & Hbuf & _); [lia|].
  exists buf, self'. split; [exact He | exact Hbuf].
Defined.

(** ** Pointers patched into the section headers *)

(** C6 at two sections of the same name: the dictionary [sectionHeaders]
    keeps one offset per name, the offset of the second header record, so
    both patches of the second loop go to the second record.  The data of
    the first section begins at offset 100, and the data pointer of its
    header record (bytes 40..44 of the buffer) is left zero; the second
    record holds 101, where the data of the second section begins. *)
Theorem emit_twin_sections_data_pointer :
  let buf := (emitted (built twin_ops) 1).1 in
  COFFGenerator_emit (built twin_ops) 1 = Ok (emitted (built twin_ops) 1) ∧
  length buf = 106%nat ∧
  slice buf 100 101 = bytes_of [0x90] ∧
  le_combine (slice buf (20 + 20) (20 + 24)) = 0 ∧
  slice buf 101 102 = bytes_of [0xc3] ∧
  le_combine (slice buf (60 + 20) (60 + 24)) = 101.
Proof. vm_compute. repeat split; reflexivity. Qed.

(** C1 at a buffer of 65536 bytes: the relocation pointer is packed with
    format "H" into two bytes, so [emit] raises [struct.error] as soon as
    the relocations of a section begin at offset 65536 or beyond.  With one
    byte less the pointer, 65535, is written; the data pointer, packed with
    "I" into four bytes, has no such limit. *)
Theorem emit_large_buffer_relocation_pointer :
  raised (run (COFFGenerator_init true 0) (large_reloc_ops 65476)) = None ∧
  COFFGenerator_emit (built (large_reloc_ops 65476)) 1 = Raise struct_error ∧
  raised (COFFGenerator_emit (built (large_reloc_ops 65475)) 1) = None ∧
  le_combine (slice (emitted (built (large_reloc_ops 65475)) 1).1
                (20 + 24) (20 + 28)) = 65535 ∧
  raised (COFFGenerator_emit (built (large_ops 65476)) 1) = None ∧
  le_combine (slice (emitted (built (large_ops 65476)) 1).1
                (20 + 20) (20 + 24)) = 60.
Proof. vm_compute. repeat split; reflexivity. Qed.

(** *** Section names that are pairwise distinct

    What the second and third loop establish when no two sections have the
    same name: every header record is patched with the offsets of its own
    section. *)

Lemma slice_app_l (a c : bytes) x y :
  (y ≤ length a)%nat → slice (a ++ c) x y = slice a x y.
Proof.
  intros Hy. unfold slice. rewrite drop_app, take_app, length_drop.
  replace (y - x - (length a - x))%nat with 0%nat by lia.
  by rewrite take_0, app_nil_r.
Qed.

Lemma slice_app_r (a c : bytes) x y :
  (length a ≤ x)%nat →
  slice (a ++ c) x y = slice c (x - length a) (y - length a).
Proof.
  intros Hx. unfold slice. rewrite drop_app, drop_ge by done. simpl.
  f_equal. lia.
Qed.

Lemma slice_app_tail (a d : bytes) :
  slice (a ++ d) (length a) (length a + length d) = d.
Proof.
  rewrite <- (app_nil_r d) at 1. by apply slice_app_mid.
Qed.

Lemma slice_assign_unfold (a : bytes) i j v :
  (i ≤ j)%nat → slice_assign a i j v = take i a ++ v ++ drop j a.
Proof. intros Hij. unfold slice_assign. by rewrite Nat.max_r. Qed.

Lemma slice_slice_assign (a : bytes) i j v :
  (i + length v)%nat = j → (j ≤ length a)%nat →
  slice (slice_assign a i j v) i j = v.
Proof.
  intros Hv Hj. rewrite slice_assign_unfold by lia.
  apply slice_app_mid; [rewrite length_take; lia | done].
Qed.

Lemma slice_slice_assign_disjoint (a : bytes) i j v x y :
  (i + length v)%nat = j → (j ≤ length a)%nat →
  (y ≤ i ∨ j ≤ x)%nat →
  slice (slice_assign a i j v) x y = slice a x y.
Proof.
  intros Hv Hj Hxy. rewrite slice_assign_unfold by lia.
  rewrite <- (take_drop i a) at 3.
  destruct Hxy as [Hy|Hx].
  - rewrite !slice_app_l by (rewrite length_take; lia). done.
  - rewrite app_assoc.
    rewrite <- (take_drop (j - i) (drop i a)), drop_drop.
    rewrite (app_assoc (take i a)).
    replace (i + (j - i))%nat with j by lia.
    rewrite !slice_app_r
      by (rewrite !length_app, !length_take, ?length_drop; lia).
    f_equal; rewrite !length_app, !length_take, ?length_drop; lia.
Qed.

(** First loop, names distinct: the dictionary maps the name of the i-th
    section to the offset [20 + 40 * i] of its header record. *)
Lemma emit_headers_other secs : ∀ r h r1 h1,
  foldM emit_header_step (r, h) secs = Ok (r1, h1) →
  ∀ k, k ∉ map sec_name secs → h1 !! k = h !! k.
Proof.
  induction secs as [|sec secs IH]; intros r h r1 h1 H k Hk.
  - by injection H as <- <-.
  - apply foldM_cons_Ok in H as ([r' h'] & Hs & H).
    apply bind_Ok in Hs as (p & _ & [= <- <-]).
    simpl in Hk. apply not_elem_of_cons in Hk as [Hne Hk].
    rewrite (IH _ _ _ _ H k Hk). by rewrite lookup_insert_ne.
Qed.

Lemma emit_headers_lookup secs : ∀ r h r1 h1,
  foldM emit_header_step (r, h) secs = Ok (r1, h1) →
  NoDup (map sec_name secs) →
  ∀ i sec, secs !! i = Some sec →
    h1 !! sec_name sec = Some (length r + 40 * i)%nat.
Proof.
  induction secs as [|sec0 secs IH]; intros r h r1 h1 H Hnd i sec Hi.
  - done.
  - apply foldM_cons_Ok in H as ([r' h'] & Hs & H).
    apply bind_Ok in Hs as (p & Hp%COFFSection_pack_length & [= <- <-]).
    simpl in Hnd. apply NoDup_cons in Hnd as [Hnotin Hnd].
    destruct i as [|i]; simpl in Hi.
    + injection Hi as <-.
      rewrite (emit_headers_other _ _ _ _ _ H _ Hnotin), lookup_insert_eq.
      f_equal. lia.
    + rewrite (IH _ _ _ _ H Hnd i sec Hi), length_app, Hp. f_equal. lia.
Qed.

Lemma emit_headers_prefix secs : ∀ r h r1 h1,
  foldM emit_header_step (r, h) secs = Ok (r1, h1) → ∃ tail, r1 = r ++ tail.
Proof.
  induction secs as [|sec secs IH]; intros r h r1 h1 H.
  - injection H as <- <-. exists []. by rewrite app_nil_r.
  - apply foldM_cons_Ok in H as ([r' h'] & Hs & H).
    apply bind_Ok in Hs as (p & _ & [= <- <-]).
    apply IH in H as [tail ->]. exists (p ++ tail). by rewrite app_assoc.
Qed.

Lemma emit_data_step_Ok hdrs r sec r' :
  emit_data_step hdrs r sec = Ok r' →
  ∃ h, hdrs !! sec_name sec = Some h ∧
    Z.of_nat (length r) < 2 ^ 32 ∧
    r' = slice_assign r (h + 20) (h + 24) (le_split 4 (Z.of_nat (length r)))
         ++ sec_data sec.
Proof.
  unfold emit_data_step, dict_get.
  destruct (hdrs !! sec_name sec) as [h|]; [|discriminate]. simpl.
  intros (p & [Hr ->]%pack_I_Ok & [= <-])%bind_Ok.
  exists h. split; [done|]. split; [lia | done].
Qed.

(** Second loop: a range of the buffer that no patch touches keeps its
    bytes. *)
Lemma emit_data_preserve hdrs secs : ∀ r r2 x y,
  foldM (emit_data_step hdrs) r secs = Ok r2 →
  map_Forall (λ _ v, (v + 40 ≤ length r)%nat) hdrs →
  (y ≤ length r)%nat →
  (∀ sec h, sec ∈ secs → hdrs !! sec_name sec = Some h →
            (y ≤ h + 20 ∨ h + 24 ≤ x)%nat) →
  slice r2 x y = slice r x y.
Proof.
  induction secs as [|sec secs IH]; intros r r2 x y H Hb Hy Hdisj.
  - by injection H as <-.
  - apply foldM_cons_Ok in H as (r' & Hs & H).
    pose proof (emit_data_step_length _ _ _ _ Hb Hs) as Hlen.
    rewrite (IH _ _ x y H).
    + apply emit_data_step_Ok in Hs as (h & Hh & _ & ->).
      pose proof (Hb _ _ Hh) as Hbh. cbv beta in Hbh.
      rewrite slice_app_l
        by (rewrite length_slice_assign; rewrite ?length_le_split'; lia).
      apply slice_slice_assign_disjoint;
        [rewrite length_le_split'; lia | lia |].
      apply (Hdisj sec h); [apply list_elem_of_here | done].
    + eapply map_Forall_impl; [done|]. simpl. lia.
    + lia.
    + intros sec' h' Hin. apply Hdisj. by apply list_elem_of_further.
Qed.

(** Second loop, header offsets as the first loop leaves them for distinct
    names ([k0] sections have been processed before [secs]): the data
    pointer of the i-th record is the offset at which the data of the i-th
    section is appended. *)
Lemma emit_data_pointer hdrs secs : ∀ r r2 k0,
  foldM (emit_data_step hdrs) r secs = Ok r2 →
  map_Forall (λ _ v, (v + 40 ≤ length r)%nat) hdrs →
  (∀ j sec', secs !! j = Some sec' →
     hdrs !! sec_name sec' = Some (20 + 40 * (k0 + j))%nat) →
  ∀ i sec, secs !! i = Some sec →
    let off :=
      (length r + sum_list_with (λ s, length (sec_data s)) (take i secs))%nat in
    Z.of_nat off < 2 ^ 32 ∧
    slice r2 (20 + 40 * (k0 + i) + 20) (20 + 40 * (k0 + i) + 24)
      = le_split 4 (Z.of_nat off) ∧
    slice r2 off (off + length (sec_data sec)) = sec_data sec.
Proof.
  induction secs as [|sec0 secs IH]; intros r r2 k0 H Hb Hh i sec Hi; [done|].
  apply foldM_cons_Ok in H as (r' & Hs & H).
  pose proof (emit_data_step_length _ _ _ _ Hb Hs) as Hlen.
  assert (map_Forall (λ _ v, (v + 40 ≤ length r')%nat) hdrs) as Hb'.
  { eapply map_Forall_impl; [done|]. simpl. lia. }
  destruct i as [|i]; simpl in Hi.
  - injection Hi as <-. cbn [take sum_list_with]. cbv zeta.
    rewrite !Nat.add_0_r.
    pose proof (Hh 0%nat sec0 eq_refl) as Hh0. rewrite Nat.add_0_r in Hh0.
    apply emit_data_step_Ok in Hs as (h & Hh0' & Hr & Hr').
    assert (h = (20 + 40 * k0)%nat) as -> by congruence.
    pose proof (Hb _ _ Hh0) as Hb0. cbv beta in Hb0.
    assert (length (slice_assign r (20 + 40 * k0 + 20) (20 + 40 * k0 + 24)
                      (le_split 4 (Z.of_nat (length r)))) = length r) as Hsa.
    { apply length_slice_assign; rewrite ?length_le_split'; lia. }
    split; [lia|]. split.
    + rewrite (emit_data_preserve _ _ _ _ _ _ H Hb').
      * rewrite Hr', slice_app_l by (rewrite Hsa; lia).
        apply slice_slice_assign; [rewrite length_le_split'; lia | lia].
      * lia.
      * intros sec' h' [j Hj]%list_elem_of_lookup Hh'.
        assert (h' = (20 + 40 * (k0 + S j))%nat) as ->
          by (rewrite (Hh (S j) sec' Hj) in Hh'; congruence).
        lia.
    + rewrite (emit_data_preserve _ _ _ _ _ _ H Hb').
      * rewrite Hr'. set (patched := slice_assign _ _ _ _) in *.
        rewrite <- Hsa. apply slice_app_tail.
      * lia.
      * intros sec' h' _ Hh'. apply Hb in Hh'. cbv beta in Hh'. lia.
  - specialize (IH r' r2 (S k0) H Hb').
    destruct (IH) with (i := i) (sec := sec) as (Hr & Hptr & Hdata); [|done|].
    { intros j sec' Hj. rewrite (Hh (S j) sec' Hj). f_equal. lia. }
    cbn [take sum_list_with]. cbv zeta. rewrite Hlen in *.
    replace (length r + (length (sec_data sec0)
               + sum_list_with (λ s, length (sec_data s)) (take i secs)))%nat
      with (length r + length (sec_data sec0)
               + sum_list_with (λ s, length (sec_data s)) (take i secs))%nat
      by lia.
    replace (k0 + S i)%nat with (S k0 + i)%nat by lia.
    done.
Qed.

(** Third loop and after. *)
Lemma length_reloc_table sec :
  length (reloc_table sec) = (10 * length (sec_relocations sec))%nat.
Proof.
  unfold reloc_table. induction (sec_relocations sec) as [|reloc l IH].
  - done.
  - cbn [map concat length]. rewrite length_app, IH. unfold reloc_record.
    rewrite !length_app, !length_le_split'. lia.
Qed.

Lemma emit_reloc_Ok relocs : ∀ r r',
  foldM emit_reloc r relocs = Ok r' →
  r' = r ++ concat (map reloc_record relocs).
Proof.
  induction relocs as [|reloc relocs IH]; intros r r' H.
  - injection H as <-. simpl. by rewrite app_nil_r.
  - apply foldM_cons_Ok in H as (r1 & Hs & H).
    apply bind_Ok in Hs as (p & [_ ->]%COFFRelocation_pack_Ok & [= <-]).
    apply IH in H as ->. cbn [map concat]. by rewrite <- !app_assoc.
Qed.

Lemma emit_reloc_step_Ok hdrs r sec r' :
  emit_reloc_step hdrs r sec = Ok r' →
  (sec_relocations sec = [] ∧ r' = r) ∨
  (sec_relocations sec ≠ [] ∧
   ∃ h, hdrs !! sec_name sec = Some h ∧
     Z.of_nat (length r) < 2 ^ 16 ∧
     r' = slice_assign r (h + 24) (h + 26) (le_split 2 (Z.of_nat (length r)))
          ++ reloc_table sec).
Proof.
  unfold emit_reloc_step, dict_get.
  destruct (0 <? length (sec_relocations sec))%nat eqn:Hn.
  - destruct (hdrs !! sec_name sec) as [h|]; [|discriminate]. simpl.
    intros (p & [Hr ->]%pack_H_Ok & ->%emit_reloc_Ok)%bind_Ok.
    right. apply Nat.ltb_lt in Hn.
    split; [intros Heq; rewrite Heq in Hn; simpl in Hn; lia|].
    exists h. split; [done|]. split; [lia | done].
  - intros [= <-]. left. apply Nat.ltb_ge in Hn.
    split; [|done]. destruct (sec_relocations sec); [done | simpl in Hn; lia].
Qed.

Lemma emit_relocs_preserve hdrs secs : ∀ r r3 x y,
  foldM (emit_reloc_step hdrs) r secs = Ok r3 →
  map_Forall (λ _ v, (v + 40 ≤ length r)%nat) hdrs →
  (y ≤ length r)%nat →
  (∀ sec h, sec ∈ secs → sec_relocations sec ≠ [] →
            hdrs !! sec_name sec = Some h → (y ≤ h + 24 ∨ h + 26 ≤ x)%nat) →
  slice r3 x y = slice r x y.
Proof.
  induction secs as [|sec secs IH]; intros r r3 x y H Hb Hy Hdisj.
  - by injection H as <-.
  - apply foldM_cons_Ok in H as (r' & Hs & H).
    pose proof (emit_reloc_step_length _ _ _ _ Hb Hs) as Hlen.
    rewrite (IH _ _ x y H).
    + apply emit_reloc_step_Ok in Hs
        as [[_ ->]|(Hne & h & Hh & _ & ->)]; [done|].
      pose proof (Hb _ _ Hh) as Hbh. cbv beta in Hbh.
      rewrite slice_app_l
        by (rewrite length_slice_assign; rewrite ?length_le_split'; lia).
      apply slice_slice_assign_disjoint;
        [rewrite length_le_split'; lia | lia |].
      apply (Hdisj sec h); [apply list_elem_of_here | done..].
    + eapply map_Forall_impl; [done|]. simpl. lia.
    + lia.
    + intros sec' h' Hin. apply Hdisj. by apply list_elem_of_further.
Qed.

Lemma emit_symbols_prefix syms : ∀ r g r4 g4,
  foldM emit_symbol_step (r, g) syms = Ok (r4, g4) → ∃ tail, r4 = r ++ tail.
Proof.
  induction syms as [|sym syms IH]; intros r g r4 g4 H.
  - injection H as <- <-. exists []. by rewrite app_nil_r.
  - apply foldM_cons_Ok in H as ([r' g'] & Hs & H).
    apply bind_Ok in Hs as ([p g1] & _ & [= <- <-]).
    apply IH in H as [tail ->]. exists (p ++ tail). by rewrite app_assoc.
Qed.

(** From the end of the third loop to the buffer [emit] returns: only the
    first 20 bytes change. *)
Lemma emit_finish_preserve r3 g syms r4 g4 p x y :
  foldM emit_symbol_step (r3, g) syms = Ok (r4, g4) →
  length p = 20%nat → (20 ≤ x)%nat → (y ≤ length r3)%nat →
  slice (slice_assign (r4 ++ strings g4) 0 20 p) x y = slice r3 x y.
Proof.
  intros [tail ->]%emit_symbols_prefix Hp Hx Hy.
  destruct (decide (x ≤ y)%nat) as [Hxy|Hxy].
  - rewrite slice_slice_assign_disjoint;
      [|lia | rewrite !length_app; lia | lia].
    rewrite <- app_assoc. by apply slice_app_l.
  - unfold slice. replace (y - x)%nat with 0%nat by lia. by rewrite !take_0.
Qed.

Lemma sum_list_with_take_le {A : Type} (f : A → nat) (l : list A) i x :
  l !! i = Some x →
  (sum_list_with f (take i l) + f x ≤ sum_list_with f l)%nat.
Proof.
  intros Hi. rewrite <- (take_drop_middle l i x Hi) at 2.
  rewrite sum_list_with_app. simpl. lia.
Qed.

(** Offset fidelity of the data pointer, where it holds: when no two
    sections have the same name, the data pointer of the i-th header record
    (which starts at offset [20 + 40 * i]) is the offset at which the data
    of the i-th section lies in the buffer. *)
Theorem emit_data_pointer_distinct_names self now buf self' i sec :
  NoDup (map sec_name (sections self)) →
  COFFGenerator_emit self now = Ok (buf, self') →
  sections self !! i = Some sec →
  le_combine (slice buf (20 + 40 * i + 20) (20 + 40 * i + 24))
    = Z.of_nat (data_offset self i) ∧
  slice buf (data_offset self i) (data_offset self i + length (sec_data sec))
    = sec_data sec.
Proof.
  intros Hnd He Hi.
  apply COFFGenerator_emit_Ok in He
    as (r1 & hdrs & r2 & r3 & r4 & g4 & p & H1 & H2 & H3 & H4 & H5 & -> & _).
  pose proof (emit_headers_length _ _ _ _ _ H1) as L1.
  rewrite length_zeros in L1.
  pose proof (emit_headers_bound _ _ _ _ _ H1 (map_Forall_empty _)) as B1.
  pose proof (emit_data_length _ _ _ _ B1 H2) as L2.
  assert (map_Forall (λ _ v, (v + 40 ≤ length r2)%nat) hdrs) as B2.
  { eapply map_Forall_impl; [done|]. simpl. lia. }
  pose proof (emit_relocs_length _ _ _ _ B2 H3) as L3.
  pose proof (COFFHeader_pack_length _ _ _ _ H5) as Lp.
  assert (∀ j sec', sections self !! j = Some sec' →
            hdrs !! sec_name sec' = Some (20 + 40 * (0 + j))%nat) as Hlook.
  { intros j sec' Hj.
    rewrite (emit_headers_lookup _ _ _ _ _ H1 Hnd j sec' Hj), length_zeros.
    done. }
  pose proof (lookup_lt_Some _ _ _ Hi) as Hlt.
  pose proof (sum_list_with_take_le (λ s, length (sec_data s)) _ _ _ Hi)
    as Hsum.
  destruct (emit_data_pointer _ _ _ _ 0%nat H2 B1 Hlook i sec Hi)
    as (Hr & Hptr & Hdata).
  rewrite L1 in Hr, Hptr, Hdata. rewrite Nat.add_0_l in Hptr.
  fold (data_offset self i) in Hr, Hptr, Hdata.
  assert (data_offset self i + length (sec_data sec) ≤ length r2)%nat as Hoff.
  { unfold data_offset. lia. }
  assert (20 + 40 * length (sections self) ≤ data_offset self i)%nat as Hoff'.
  { unfold data_offset. lia. }
  split.
  - rewrite (emit_finish_preserve _ _ _ _ _ _ _ _ H4) by lia.
    rewrite (emit_relocs_preserve _ _ _ _ _ _ H3 B2).
    + rewrite Hptr, le_combine_split. apply Z.mod_small. lia.
    + lia.
    + intros sec' h' [j Hj]%list_elem_of_lookup _ Hh'.
      assert (h' = (20 + 40 * (0 + j))%nat) as ->
        by (rewrite (Hlook j sec' Hj) in Hh'; congruence).
      lia.
  - rewrite (emit_finish_preserve _ _ _ _ _ _ _ _ H4) by lia.
    rewrite (emit_relocs_preserve _ _ _ _ _ _ H3 B2).
    + done.
    + lia.
    + intros sec' h' _ _ Hh'. apply B1 in Hh'. cbv beta in Hh'. lia.
Qed.

Lemma emit_data_pointer_distinct_names_example :
  let buf := (emitted example_generator 1700000000).1 in
  le_combine (slice buf (20 + 40 * 1 + 20) (20 + 40 * 1 + 24)) = 118 ∧
  slice buf 118 133
    = bytes_of [72; 101; 108; 108; 111; 44; 32; 87; 111; 114; 108; 100; 33;
                10; 0].
Proof.
  refine (emit_data_pointer_distinct_names example_generator 1700000000
            (emitted example_generator 1700000000).1
            (emitted example_generator 1700000000).2 1
            {| sec_name := py ".rdata"; sec_relocations := [];
               sec_VirtualAddress := 0; sec_characteristics := 0x40000040;
               sec_data := bytes_of [72; 101; 108; 108; 111; 44; 32; 87; 111;
                                     114; 108; 100; 33; 10; 0] |} _ _ _).
  - apply (bool_decide_unpack _). vm_compute. exact I.
  - vm_compute. reflexivity.
  - vm_compute. reflexivity.
Defined.

Lemma slice_split (l : bytes) x y z :
  (x ≤ y)%nat → (y ≤ z)%nat → slice l x z = slice l x y ++ slice l y z.
Proof.
  intros Hxy Hyz. unfold slice.
  replace (z - x)%nat with ((y - x) + (z - y))%nat by lia.
  rewrite <- take_take_drop, drop_drop. do 3 f_equal. lia.
Qed.

(** The upper half of the relocation pointer of a header record, bytes
    26..28, is zero as [COFFSection.pack] writes it. *)
Lemma COFFSection_pack_reloc_hi self p :
  COFFSection_pack self = Ok p → slice p 26 28 = zeros 2.
Proof.
  intros (e & _ & _ & ->)%COFFSection_pack_Ok.
  pose proof (length_name_field e) as Hn.
  set (name := take 8 e ++ zeros (8 - length e)) in *.
  set (sz := le_split 4 (Z.of_nat (length (sec_data self)))).
  set (va := le_split 4 (sec_VirtualAddress self)).
  set (rest := zeros 2 ++ zeros 2 ++ _).
  assert (length sz = 4%nat) as Hsz by apply length_le_split'.
  assert (length va = 4%nat) as Hva by apply length_le_split'.
  replace (name ++ sz ++ va ++ sz ++ zeros 4 ++ zeros 4 ++ rest)
    with ((name ++ sz ++ va ++ sz ++ zeros 4 ++ zeros 2) ++ zeros 2 ++ rest)
    by (by rewrite <- !app_assoc).
  apply slice_app_mid; [|done].
  rewrite !length_app, Hn, Hsz, Hva, !length_zeros. done.
Qed.

Lemma emit_headers_decompose secs : ∀ r h r1 h1,
  foldM emit_header_step (r, h) secs = Ok (r1, h1) →
  ∀ i sec, secs !! i = Some sec →
    ∃ pre p post,
      COFFSection_pack sec = Ok p ∧ r1 = pre ++ p ++ post ∧
      length pre = (length r + 40 * i)%nat.
Proof.
  induction secs as [|sec0 secs IH]; intros r h r1 h1 H i sec Hi; [done|].
  apply foldM_cons_Ok in H as ([r' h'] & Hs & H).
  apply bind_Ok in Hs as (p & Hp & [= <- <-]).
  destruct i as [|i]; simpl in Hi.
  - injection Hi as <-. apply emit_headers_prefix in H as [tail ->].
    exists r, p, tail. split; [done|]. split; [by rewrite app_assoc | lia].
  - destruct (IH _ _ _ _ H i sec Hi) as (pre & q & post & Hq & -> & Hpre).
    exists pre, q, post. split; [done|]. split; [done|].
    rewrite Hpre, length_app, (COFFSection_pack_length _ _ Hp). lia.
Qed.

Lemma emit_headers_reloc_hi secs r h r1 h1 i sec :
  foldM emit_header_step (r, h) secs = Ok (r1, h1) →
  secs !! i = Some sec →
  slice r1 (length r + 40 * i + 26) (length r + 40 * i + 28) = zeros 2.
Proof.
  intros H Hi.
  destruct (emit_headers_decompose _ _ _ _ _ H i sec Hi)
    as (pre & p & post & Hp & -> & Hpre).
  rewrite slice_app_r by lia. rewrite Hpre.
  replace (length r + 40 * i + 26 - (length r + 40 * i))%nat with 26%nat by lia.
  replace (length r + 40 * i + 28 - (length r + 40 * i))%nat with 28%nat by lia.
  rewrite slice_app_l by (rewrite (COFFSection_pack_length _ _ Hp); lia).
  by apply (COFFSection_pack_reloc_hi sec).
Qed.

(** Third loop, header offsets as for [emit_data_pointer]: for a section
    that has relocations, the two bytes patched in the i-th record hold
    the offset at which its relocation records are appended. *)
Lemma emit_relocs_pointer hdrs secs : ∀ r r3 k0,
  foldM (emit_reloc_step hdrs) r secs = Ok r3 →
  map_Forall (λ _ v, (v + 40 ≤ length r)%nat) hdrs →
  (∀ j sec', secs !! j = Some sec' →
     hdrs !! sec_name sec' = Some (20 + 40 * (k0 + j))%nat) →
  ∀ i sec, secs !! i = Some sec → sec_relocations sec ≠ [] →
    let off :=
      (length r
       + 10 * sum_list_with (λ s, length (sec_relocations s)) (take i secs))%nat
    in
    Z.of_nat off < 2 ^ 16 ∧
    slice r3 (20 + 40 * (k0 + i) + 24) (20 + 40 * (k0 + i) + 26)
      = le_split 2 (Z.of_nat off) ∧
    slice r3 off (off + 10 * length (sec_relocations sec)) = reloc_table sec.
Proof.
  induction secs as [|sec0 secs IH]; intros r r3 k0 H Hb Hh i sec Hi Hne;
    [done|].
  apply foldM_cons_Ok in H as (r' & Hs & H).
  pose proof (emit_reloc_step_length _ _ _ _ Hb Hs) as Hlen.
  assert (map_Forall (λ _ v, (v + 40 ≤ length r')%nat) hdrs) as Hb'.
  { eapply map_Forall_impl; [done|]. simpl. lia. }
  destruct i as [|i]; simpl in Hi.
  - injection Hi as <-. cbn [take sum_list_with]. cbv zeta.
    rewrite Nat.mul_0_r, !Nat.add_0_r.
    pose proof (Hh 0%nat sec0 eq_refl) as Hh0. rewrite Nat.add_0_r in Hh0.
    apply emit_reloc_step_Ok in Hs as [[? _]|(_ & h & Hh0' & Hr & Hr')];
      [done|].
    assert (h = (20 + 40 * k0)%nat) as -> by congruence.
    pose proof (Hb _ _ Hh0) as Hb0. cbv beta in Hb0.
    assert (length (slice_assign r (20 + 40 * k0 + 24) (20 + 40 * k0 + 26)
                      (le_split 2 (Z.of_nat (length r)))) = length r) as Hsa.
    { apply length_slice_assign; rewrite ?length_le_split'; lia. }
    split; [lia|]. split.
    + rewrite (emit_relocs_preserve _ _ _ _ _ _ H Hb').
      * rewrite Hr', slice_app_l by (rewrite Hsa; lia).
        apply slice_slice_assign; [rewrite length_le_split'; lia | lia].
      * lia.
      * intros sec' h' [j Hj]%list_elem_of_lookup _ Hh'.
        assert (h' = (20 + 40 * (k0 + S j))%nat) as ->
          by (rewrite (Hh (S j) sec' Hj) in Hh'; congruence).
        lia.
    + rewrite (emit_relocs_preserve _ _ _ _ _ _ H Hb').
      * rewrite Hr'. set (patched := slice_assign _ _ _ _) in *.
        rewrite <- Hsa, <- length_reloc_table. apply slice_app_tail.
      * lia.
      * intros sec' h' _ _ Hh'. apply Hb in Hh'. cbv beta in Hh'. lia.
  - specialize (IH r' r3 (S k0) H Hb').
    destruct (IH) with (i := i) (sec := sec) as (Hr & Hptr & Htbl);
      [|done|done|].
    { intros j sec' Hj. rewrite (Hh (S j) sec' Hj). f_equal. lia. }
    cbn [take sum_list_with]. cbv zeta. rewrite Hlen in *.
    replace (length r + 10 * (length (sec_relocations sec0)
               + sum_list_with (λ s, length (sec_relocations s)) (take i secs)))%nat
      with (length r + 10 * length (sec_relocations sec0)
            + 10 * sum_list_with (λ s, length (sec_relocations s)) (take i secs))%nat
      by lia.
    replace (k0 + S i)%nat with (S k0 + i)%nat by lia.
    done.
Qed.

(** Offset fidelity of the relocation pointer, where it holds: when no two
    sections have the same name and [emit] returns, the relocation records
    of every section that has relocations begin below offset 65536, and
    the 4-byte relocation pointer of its header record is that offset. *)
Theorem emit_reloc_pointer_distinct_names self now buf self' i sec :
  NoDup (map sec_name (sections self)) →
  COFFGenerator_emit self now = Ok (buf, self') →
  sections self !! i = Some sec →
  sec_relocations sec ≠ [] →
  Z.of_nat (reloc_offset self i) < 2 ^ 16 ∧
  le_combine (slice buf (20 + 40 * i + 24) (20 + 40 * i + 28))
    = Z.of_nat (reloc_offset self i) ∧
  slice buf (reloc_offset self i)
    (reloc_offset self i + 10 * length (sec_relocations sec))
    = reloc_table sec.
Proof.
  intros Hnd He Hi Hne.
  apply COFFGenerator_emit_Ok in He
    as (r1 & hdrs & r2 & r3 & r4 & g4 & p & H1 & H2 & H3 & H4 & H5 & -> & _).
  pose proof (emit_headers_length _ _ _ _ _ H1) as L1.
  rewrite length_zeros in L1.
  pose proof (emit_headers_bound _ _ _ _ _ H1 (map_Forall_empty _)) as B1.
  pose proof (emit_data_length _ _ _ _ B1 H2) as L2.
  assert (map_Forall (λ _ v, (v + 40 ≤ length r2)%nat) hdrs) as B2.
  { eapply map_Forall_impl; [done|]. simpl. lia. }
  pose proof (emit_relocs_length _ _ _ _ B2 H3) as L3.
  pose proof (COFFHeader_pack_length _ _ _ _ H5) as Lp.
  assert (∀ j sec', sections self !! j = Some sec' →
            hdrs !! sec_name sec' = Some (20 + 40 * (0 + j))%nat) as Hlook.
  { intros j sec' Hj.
    rewrite (emit_headers_lookup _ _ _ _ _ H1 Hnd j sec' Hj), length_zeros.
    done. }
  pose proof (lookup_lt_Some _ _ _ Hi) as Hlt.
  pose proof (sum_list_with_take_le (λ s, length (sec_relocations s)) _ _ _ Hi)
    as Hsum.
  destruct (emit_relocs_pointer _ _ _ _ 0%nat H3 B2 Hlook i sec Hi Hne)
    as (Hr & Hptr & Htbl).
  assert (length r2 = (20 + 40 * length (sections self) + data_size self)%nat)
    as L2' by (unfold data_size; lia).
  rewrite L2' in Hr, Hptr, Htbl. rewrite Nat.add_0_l in Hptr.
  fold (reloc_offset self i) in Hr, Hptr, Htbl.
  assert (reloc_offset self i + 10 * length (sec_relocations sec)
          ≤ length r3)%nat as Hoff by (unfold reloc_offset; lia).
  assert (20 + 40 * length (sections self) ≤ reloc_offset self i)%nat
    as Hoff' by (unfold reloc_offset; lia).
  split; [done|]. split.
  - rewrite (slice_split _ _ (20 + 40 * i + 26)) by lia.
    rewrite !(emit_finish_preserve _ _ _ _ _ _ _ _ H4) by lia.
    rewrite Hptr.
    rewrite (emit_relocs_preserve _ _ _ _ _ _ H3 B2); [|lia|].
    + rewrite (emit_data_preserve _ _ _ _ _ _ H2 B1); [|lia|].
      * pose proof (emit_headers_reloc_hi _ _ _ _ _ i sec H1 Hi) as Hhi.
        rewrite length_zeros in Hhi. rewrite Hhi.
        rewrite le_combine_app.
        change (le_combine (zeros 2)) with 0.
        rewrite Z.shiftl_0_l, Z.lor_0_r, le_combine_split.
        apply Z.mod_small. lia.
      * intros sec' h' [j Hj]%list_elem_of_lookup Hh'.
        assert (h' = (20 + 40 * (0 + j))%nat) as ->
          by (rewrite (Hlook j sec' Hj) in Hh'; congruence).
        lia.
    + intros sec' h' [j Hj]%list_elem_of_lookup _ Hh'.
      assert (h' = (20 + 40 * (0 + j))%nat) as ->
        by (rewrite (Hlook j sec' Hj) in Hh'; congruence).
      lia.
  - by rewrite (emit_finish_preserve _ _ _ _ _ _ _ _ H4) by lia.
Qed.

Lemma emit_reloc_pointer_distinct_names_example :
  let buf := (emitted example_generator 1700000000).1 in
  le_combine (slice buf (20 + 40 * 0 + 24) (20 + 40 * 0 + 28)) = 133 ∧
  slice buf 133 153
    = bytes_of [7; 0; 0; 0; 1; 0; 0; 0; 4; 0; 12; 0; 0; 0; 2; 0; 0; 0; 4; 0].
Proof.
  refine (proj2 (emit_reloc_pointer_distinct_names example_generator 1700000000
            (emitted example_generator 1700000000).1
            (emitted example_generator 1700000000).2 0
            {| sec_name := py ".text";
               sec_relocations :=
                 [ {| reloc_VirtualAddress := 7; reloc_SymbolTableIndex := 1;
                      reloc_Type := 4 |};
                   {| reloc_VirtualAddress := 12; reloc_SymbolTableIndex := 2;
                      reloc_Type := 4 |} ];
               sec_VirtualAddress := 0; sec_characteristics := 0x60000020;
               sec_data := bytes_of [0x55; 0x48; 0x89; 0xe5; 0x48; 0x8d; 0x0d;
                                     0; 0; 0; 0; 0xe8; 0; 0; 0; 0; 0x5d;
                                     0xc3] |} _ _ _ _)).
  - apply (bool_decide_unpack _). vm_compute. exact I.
  - vm_compute. reflexivity.
  - vm_compute. reflexivity.
  - discriminate.
Defined.

(** ** When [emit] returns

    [emit] returns for every generator whose values fit the fields they are
    packed into, whose names can be encoded, and whose image stays below
    64 KiB before the symbol table (the limit of the 2-byte relocation
    pointer) and below 4 GiB in all. *)

Lemma utf8_encode_char_ok c :
  char_ok c → ∃ e, utf8_encode_char c = Ok e ∧ (length e ≤ 4)%nat.
Proof.
  intros [Hmax Hsur]. unfold utf8_encode_char.
  destruct (c <? 0x80)%N; [eexists; split; [done | simpl; lia]|].
  destruct (c <? 0x800)%N; [eexists; split; [done | simpl; lia]|].
  destruct (c <? 0x10000)%N.
  - destruct (0xD800 <=? c)%N eqn:E1; destruct (c <=? 0xDFFF)%N eqn:E2;
      simpl; try (eexists; split; [done | simpl; lia]).
    apply N.leb_le in E1, E2. lia.
  - replace (c <? 0x110000)%N with true by (symmetry; by apply N.ltb_lt).
    eexists; split; [done | simpl; lia].
Qed.

Lemma encode_ok s :
  str_ok s → ∃ e, encode s = Ok e ∧ (length e ≤ 4 * length s)%nat.
Proof.
  induction 1 as [|c s Hc _ (e & He & Hlen)].
  - exists []. split; [done | simpl; lia].
  - destruct (utf8_encode_char_ok c Hc) as (b & Hb & Hblen).
    exists (b ++ e). simpl. rewrite Hb, He. simpl.
    split; [done | rewrite length_app; lia].
Qed.

Lemma emit_headers_returns secs : ∀ r h,
  Forall section_ok secs →
  ∃ r1 h1, foldM emit_header_step (r, h) secs = Ok (r1, h1).
Proof.
  induction secs as [|sec secs IH]; intros r h Hok.
  - by exists r, h.
  - apply Forall_cons in Hok as [(Hname & Hrange & _) Hok].
    destruct (encode_ok (take 8 (sec_name sec))) as (e & He & _);
      [by apply Forall_take|].
    destruct (COFFSection_pack_total sec e He Hrange) as [p Hp].
    cbn [foldM emit_header_step]. rewrite Hp. cbn [mbind outcome_bind].
    apply IH, Hok.
Qed.

Lemma emit_data_returns hdrs secs : ∀ r,
  map_Forall (λ _ v, (v + 40 ≤ length r)%nat) hdrs →
  (∀ sec, sec ∈ secs → is_Some (hdrs !! sec_name sec)) →
  Z.of_nat (length r + sum_list_with (λ sec, length (sec_data sec)) secs)
    < 2 ^ 32 →
  ∃ r2, foldM (emit_data_step hdrs) r secs = Ok r2.
Proof.
  induction secs as [|sec secs IH]; intros r Hb Hdom Hsize.
  - by exists r.
  - destruct (Hdom sec) as [h Hh]; [apply list_elem_of_here|].
    cbn [sum_list_with] in Hsize.
    assert (∃ r', emit_data_step hdrs r sec = Ok r') as [r' Hs].
    { unfold emit_data_step, dict_get. rewrite Hh. cbn [mbind outcome_bind].
      rewrite pack_I_range by lia. cbn [mbind outcome_bind]. eauto. }
    pose proof (emit_data_step_length _ _ _ _ Hb Hs) as Hlen.
    cbn [foldM]. rewrite Hs. cbn [mbind outcome_bind]. apply IH.
    + eapply map_Forall_impl; [done|]. simpl. lia.
    + intros sec' Hin. apply Hdom. by apply list_elem_of_further.
    + rewrite Hlen. lia.
Qed.

Lemma COFFRelocation_pack_total reloc :
  reloc_in_range reloc → COFFRelocation_pack reloc = Ok (reloc_record reloc).
Proof.
  intros (Hva & Hidx & Hty). unfold COFFRelocation_pack, struct.pack. norm_fmt.
  cbn [struct.pack_from struct.pack_field struct.padding struct.alignment
       struct.size Nat.add Nat.modulo Nat.sub Nat.divmod fst snd].
  rewrite !pack_uint_range by (simpl; lia).
  unfold reloc_record. simpl. by rewrite ?app_nil_r.
Qed.

Lemma emit_reloc_returns relocs : ∀ r,
  Forall reloc_in_range relocs → ∃ r', foldM emit_reloc r relocs = Ok r'.
Proof.
  induction relocs as [|reloc relocs IH]; intros r Hok.
  - by exists r.
  - apply Forall_cons in Hok as [Hreloc Hok].
    cbn [foldM].
    change (emit_reloc r reloc)
      with (COFFRelocation_pack reloc ≫= λ p, Ok (r ++ p)).
    rewrite COFFRelocation_pack_total by done.
    cbn [mbind outcome_bind]. apply IH, Hok.
Qed.

Lemma emit_relocs_returns hdrs secs : ∀ r,
  map_Forall (λ _ v, (v + 40 ≤ length r)%nat) hdrs →
  (∀ sec, sec ∈ secs → is_Some (hdrs !! sec_name sec)) →
  Forall section_ok secs →
  Z.of_nat (length r
            + 10 * sum_list_with (λ sec, length (sec_relocations sec)) secs)
    < 2 ^ 16 →
  ∃ r3, foldM (emit_reloc_step hdrs) r secs = Ok r3.
Proof.
  induction secs as [|sec secs IH]; intros r Hb Hdom Hok Hsize.
  - by exists r.
  - destruct (Hdom sec) as [h Hh]; [apply list_elem_of_here|].
    apply Forall_cons in Hok as [(_ & _ & Hrel) Hok].
    cbn [sum_list_with] in Hsize.
    assert (∃ r', emit_reloc_step hdrs r sec = Ok r') as [r' Hs].
    { unfold emit_reloc_step, dict_get.
      destruct (0 <? length (sec_relocations sec))%nat; [|eauto].
      rewrite Hh. cbn [mbind outcome_bind].
      rewrite pack_H_range by lia. cbn [mbind outcome_bind].
      by apply emit_reloc_returns. }
    pose proof (emit_reloc_step_length _ _ _ _ Hb Hs) as Hlen.
    cbn [foldM]. rewrite Hs. cbn [mbind outcome_bind]. apply IH.
    + eapply map_Forall_impl; [done|]. simpl. lia.
    + intros sec' Hin. apply Hdom. by apply list_elem_of_further.
    + done.
    + rewrite Hlen. lia.
Qed.

Lemma pack_symbol_record nameBytes sym :
  symbol_in_range sym →
  struct.pack "8sIHHBB"
    [Bytes nameBytes; Int (sym_value sym); Int (sym_section sym);
     Int (sym_type_ sym); Int (sym_storage sym); Int 0]
  = Ok (ljust 8 (take 8 nameBytes) ++ symbol_tail sym).
Proof.
  intros (Hv & Hs & Ht & Hst). unfold struct.pack. norm_fmt.
  cbn [struct.pack_from struct.pack_field struct.padding struct.alignment
       struct.size Nat.add Nat.modulo Nat.sub Nat.divmod fst snd].
  rewrite !pack_uint_range by (simpl; lia).
  unfold symbol_tail. simpl. by rewrite ?app_nil_r.
Qed.

Lemma pack_II_range v w :
  0 ≤ v < 2 ^ 32 → 0 ≤ w < 2 ^ 32 →
  struct.pack "II" [Int v; Int w] = Ok (le_split 4 v ++ le_split 4 w).
Proof.
  intros Hv Hw. unfold struct.pack. norm_fmt.
  cbn [struct.pack_from struct.pack_field struct.padding struct.alignment
       struct.size Nat.add Nat.modulo Nat.sub Nat.divmod fst snd].
  rewrite !pack_uint_range by (simpl; lia). simpl. by rewrite ?app_nil_r.
Qed.

Lemma COFFSymbol_pack_returns sym g :
  symbol_ok sym → (4 ≤ length (strings g))%nat →
  Z.of_nat (length (strings g) + (4 * length (sym_name sym) + 1)) < 2 ^ 32 →
  ∃ p g', COFFSymbol_pack sym g = Ok (p, g') ∧
    (4 ≤ length (strings g'))%nat ∧
    (length (strings g')
     ≤ length (strings g) + (4 * length (sym_name sym) + 1))%nat.
Proof.
  intros [Hname Hrange] Htbl Hsize.
  destruct (encode_ok _ Hname) as (e & He & Hlen).
  unfold COFFSymbol_pack.
  destruct (length (sym_name sym) <=? 8)%nat.
  - rewrite He. cbn [mbind outcome_bind].
    rewrite pack_symbol_record by done. cbn [mbind outcome_bind].
    eexists _, g. split; [done|]. lia.
  - unfold COFFGenerator_string. rewrite He. cbn [mbind outcome_bind].
    cbn [strings set_strings].
    rewrite pack_I_range by (rewrite !length_app; simpl; lia).
    cbn [mbind outcome_bind].
    rewrite pack_II_range by lia. cbn [mbind outcome_bind].
    rewrite pack_symbol_record by done. cbn [mbind outcome_bind].
    eexists _, _. split; [done|]. cbn [strings set_strings].
    fold (strtab_append (strings g) e).
    rewrite length_strtab_append by done. lia.
Qed.

Lemma emit_symbols_returns syms : ∀ r g,
  Forall symbol_ok syms → (4 ≤ length (strings g))%nat →
  Z.of_nat (length (strings g)
            + sum_list_with (λ sym, 4 * length (sym_name sym) + 1)%nat syms)
    < 2 ^ 32 →
  ∃ r4 g4, foldM emit_symbol_step (r, g) syms = Ok (r4, g4).
Proof.
  induction syms as [|sym syms IH]; intros r g Hok Htbl Hsize.
  - by exists r, g.
  - apply Forall_cons in Hok as [Hsym Hok]. cbn [sum_list_with] in Hsize.
    destruct (COFFSymbol_pack_returns sym g Hsym Htbl)
      as (p & g' & Hp & Htbl' & Hlen); [lia|].
    cbn [foldM emit_symbol_step]. rewrite Hp. cbn [mbind outcome_bind].
    apply IH; [done..|lia].
Qed.

(** [emit] returns on every generator that is well formed in this sense. *)
Theorem COFFGenerator_emit_returns self now :
  Forall section_ok (sections self) →
  Forall symbol_ok (symbols self) →
  header_in_range (header self) →
  0 ≤ now < 2 ^ 32 →
  (4 ≤ length (strings self))%nat →
  Z.of_nat (symtab_offset self) < 2 ^ 16 →
  Z.of_nat (length (strings self)
            + sum_list_with (λ sym, 4 * length (sym_name sym) + 1)%nat
                (symbols self)) < 2 ^ 32 →
  ∃ buf self', COFFGenerator_emit self now = Ok (buf, self').
Proof.
  intros Hsecs Hsyms Hhdr Hnow Htbl Hsize Hstr.
  unfold symtab_offset, data_size, reloc_count in Hsize.
  destruct (emit_headers_returns (sections self) (zeros 20) ∅ Hsecs)
    as (r1 & hdrs & H1).
  pose proof (emit_headers_length _ _ _ _ _ H1) as L1.
  rewrite length_zeros in L1.
  pose proof (emit_headers_bound _ _ _ _ _ H1 (map_Forall_empty _)) as B1.
  assert (∀ sec, sec ∈ sections self → is_Some (hdrs !! sec_name sec)) as Hdom.
  { intros sec Hin. eapply emit_headers_dom; [done|].
    right. by apply list_elem_of_fmap_2. }
  destruct (emit_data_returns hdrs (sections self) r1 B1 Hdom) as [r2 H2];
    [lia|].
  pose proof (emit_data_length _ _ _ _ B1 H2) as L2.
  assert (map_Forall (λ _ v, (v + 40 ≤ length r2)%nat) hdrs) as B2.
  { eapply map_Forall_impl; [done|]. simpl. lia. }
  destruct (emit_relocs_returns hdrs (sections self) r2 B2 Hdom Hsecs)
    as [r3 H3]; [lia|].
  pose proof (emit_relocs_length _ _ _ _ B2 H3) as L3.
  destruct (emit_symbols_returns (symbols self) r3
              (PointerToSymbolTable_set self r3) Hsyms Htbl Hstr)
    as (r4 & g4 & H4).
  pose proof H4 as (_ & es & _ & Hg4)%emit_symbols_Ok.
  unfold COFFGenerator_emit.
  change (zeros COFFHeader_size) with (zeros 20).
  rewrite H1. cbn [mbind outcome_bind]. rewrite H2. cbn [mbind outcome_bind].
  rewrite H3. cbn [mbind outcome_bind].
  fold (PointerToSymbolTable_set self r3).
  change (symbols (PointerToSymbolTable_set self r3)) with (symbols self).
  rewrite H4. cbn [mbind outcome_bind].
  rewrite COFFHeader_pack_total; [cbn [mbind outcome_bind]; eauto | | done].
  rewrite Hg4. destruct Hhdr as (HM & HS & HP & HN & HO & HC).
  unfold header_in_range. simpl. lia.
Qed.

Lemma COFFGenerator_emit_returns_example :
  ∃ buf self', COFFGenerator_emit example_generator 1700000000 = Ok (buf, self').
Proof.
  apply COFFGenerator_emit_returns.
  - repeat constructor; by apply (bool_decide_unpack _).
  - repeat constructor; by apply (bool_decide_unpack _).
  - vm_compute. repeat split; congruence.
  - lia.
  - vm_compute. lia.
  - vm_compute. reflexivity.
  - vm_compute. reflexivity.
Defined.

(** * Further properties of the records and of the generator *)

(** ** Reading fields back *)

Lemma le_combine_le_split n v :
  0 ≤ v < 2 ^ (Z.of_nat n * 8) → le_combine (le_split n v) = v.
Proof. intros Hv. rewrite le_combine_split. by apply Z.mod_small. Qed.

Lemma pack_uint_cases n v :
  (0 ≤ v < 2 ^ (Z.of_nat n * 8) ∧ struct.pack_uint n v = Ok (le_split n v)) ∨
  (¬ 0 ≤ v < 2 ^ (Z.of_nat n * 8) ∧ struct.pack_uint n v = Raise struct_error).
Proof.
  unfold struct.pack_uint.
  destruct (0 <=? v) eqn:E1; destruct (v <? 2 ^ (Z.of_nat n * 8)) eqn:E2;
    simpl; [left | right..]; (split; [lia | done]).
Qed.

(** Case analysis on every integer field of a [struct.pack] that has been
    unfolded to its fields. *)
Ltac pack_cases :=
  repeat match goal with
  | |- context [struct.pack_uint ?n ?v] =>
      let Hr := fresh "Hr" in
      destruct (pack_uint_cases n v) as [[Hr ->]|[Hr ->]];
      cbn [mbind outcome_bind]
  end.

Ltac unfold_pack :=
  unfold struct.pack; norm_fmt;
  cbn [struct.pack_from struct.pack_field struct.padding struct.alignment
       struct.size Nat.add Nat.modulo Nat.sub Nat.divmod fst snd].

(** ** [COFFRelocation.pack] *)

(** [COFFRelocation.pack] returns the 10-byte record of the three fields
    when each fits its field, and raises [struct.error] otherwise. *)
Theorem COFFRelocation_pack_outcome self :
  (reloc_in_range self ∧ COFFRelocation_pack self = Ok (reloc_record self)) ∨
  (¬ reloc_in_range self ∧ COFFRelocation_pack self = Raise struct_error).
Proof.
  unfold COFFRelocation_pack, reloc_in_range, reloc_record. unfold_pack.
  pack_cases; simpl in *;
    first [ left; split; [lia | by rewrite ?app_nil_r]
          | right; split; [lia | done] ].
Qed.

(** The fields of a relocation are read back from its record. *)
Theorem COFFRelocation_pack_roundtrip self p :
  COFFRelocation_pack self = Ok p →
  length p = 10%nat ∧
  le_combine (slice p 0 4) = reloc_VirtualAddress self ∧
  le_combine (slice p 4 8) = reloc_SymbolTableIndex self ∧
  le_combine (slice p 8 10) = reloc_Type self.
Proof.
  intros H. pose proof (COFFRelocation_pack_length _ _ H) as Hlen.
  apply COFFRelocation_pack_Ok in H as [(Hva & Hidx & Hty) ->].
  split; [done|].
  change (slice _ 0 4) with (le_split 4 (reloc_VirtualAddress self)).
  change (slice _ 4 8) with (le_split 4 (reloc_SymbolTableIndex self)).
  change (slice _ 8 10) with (le_split 2 (reloc_Type self)).
  rewrite !le_combine_le_split by (simpl; lia). done.
Qed.

Lemma COFFRelocation_pack_roundtrip_witness :
  let reloc := {| reloc_VirtualAddress := 7; reloc_SymbolTableIndex := 1;
                  reloc_Type := 4 |} in
  COFFRelocation_pack reloc = Ok (reloc_record reloc) ∧
  le_combine (slice (reloc_record reloc) 4 8) = 1.
Proof.
  intros reloc. split; [vm_compute; reflexivity|].
  destruct (COFFRelocation_pack_roundtrip reloc (reloc_record reloc))
    as (_ & _ & Hidx & _); [vm_compute; reflexivity | exact Hidx].
Defined.

(** ** [COFFHeader.pack] *)

(** [COFFHeader.pack] returns the 20-byte record of the header, with the
    clock reading as timestamp, and stores that reading in the header,
    when every field and the clock reading fit; it raises [struct.error]
    otherwise. *)
Theorem COFFHeader_pack_outcome self now :
  (header_in_range self ∧ 0 ≤ now < 2 ^ 32 ∧
   COFFHeader_pack self now
   = Ok (header_bytes (set_TimeDateStamp self now),
         set_TimeDateStamp self now)) ∨
  (¬ (header_in_range self ∧ 0 ≤ now < 2 ^ 32) ∧
   COFFHeader_pack self now = Raise struct_error).
Proof.
  unfold COFFHeader_pack, header_in_range, header_bytes. unfold_pack.
  cbn [set_TimeDateStamp Machine NumberOfSections TimeDateStamp
       PointerToSymbolTable NumberOfSymbols SizeOfOptionalHeader
       Characteristics].
  pack_cases; simpl in *;
    first [ left; split; [lia|]; split; [lia | by rewrite ?app_nil_r]
          | right; split; [lia | done] ].
Qed.

(** The fields of the header are read back from its record; the timestamp
    read back is the clock reading, whatever the header held before. *)
Theorem COFFHeader_pack_roundtrip self now p h :
  COFFHeader_pack self now = Ok (p, h) →
  length p = 20%nat ∧
  le_combine (slice p 0 2) = Machine self ∧
  le_combine (slice p 2 4) = NumberOfSections self ∧
  le_combine (slice p 4 8) = now ∧
  le_combine (slice p 8 12) = PointerToSymbolTable self ∧
  le_combine (slice p 12 16) = NumberOfSymbols self ∧
  le_combine (slice p 16 18) = SizeOfOptionalHeader self ∧
  le_combine (slice p 18 20) = Characteristics self ∧
  h = set_TimeDateStamp self now.
Proof.
  intros H. pose proof (COFFHeader_pack_length _ _ _ _ H) as Hlen.
  apply COFFHeader_pack_Ok in H
    as (-> & Hnow & (HM & HS & HP & HN & HO & HC) & ->).
  split; [done|].
  change (slice _ 0 2) with (le_split 2 (Machine self)).
  change (slice _ 2 4) with (le_split 2 (NumberOfSections self)).
  change (slice _ 4 8) with (le_split 4 now).
  change (slice _ 8 12) with (le_split 4 (PointerToSymbolTable self)).
  change (slice _ 12 16) with (le_split 4 (NumberOfSymbols self)).
  change (slice _ 16 18) with (le_split 2 (SizeOfOptionalHeader self)).
  change (slice _ 18 20) with (le_split 2 (Characteristics self)).
  rewrite !le_combine_le_split by (simpl; lia). done.
Qed.

Lemma COFFHeader_pack_roundtrip_witness :
  let h := set_Machine (COFFHeader_init 5) 0x8664 in
  COFFHeader_pack h 1700000000
    = Ok (header_bytes (set_TimeDateStamp h 1700000000),
          set_TimeDateStamp h 1700000000) ∧
  le_combine (slice (header_bytes (set_TimeDateStamp h 1700000000)) 4 8)
    = 1700000000.
Proof.
  intros h. split; [vm_compute; reflexivity|].
  destruct (COFFHeader_pack_roundtrip h 1700000000
              (header_bytes (set_TimeDateStamp h 1700000000))
              (set_TimeDateStamp h 1700000000))
    as (_ & _ & _ & Hts & _); [vm_compute; reflexivity | exact Hts].
Defined.

(** ** [COFFSection.pack] *)

Lemma utf8_encode_char_Raise c e :
  utf8_encode_char c = Raise e → e = UnicodeEncodeError.
Proof.
  unfold utf8_encode_char.
  repeat (case_match; try discriminate); by intros [= <-].
Qed.

Lemma encode_Raise s e : encode s = Raise e → e = UnicodeEncodeError.
Proof.
  induction s as [|c s IH]; simpl; [discriminate|].
  destruct (utf8_encode_char c) as [b|e1] eqn:Hc; simpl.
  - destruct (encode s) as [bs|e2]; simpl; [discriminate|].
    intros [= <-]. by apply IH.
  - intros [= <-]. by eapply utf8_encode_char_Raise.
Qed.

(** [COFFSection.pack] has three outcomes.  When the first 8 characters of
    the name cannot be encoded it raises [UnicodeEncodeError]; otherwise it
    returns the 40-byte record when the data length, the virtual address,
    the relocation count and the characteristics fit their fields, and
    raises [struct.error] when one of them does not. *)
Theorem COFFSection_pack_outcome self :
  (∃ e, encode (take 8 (sec_name self)) = Ok e ∧ section_in_range self ∧
        COFFSection_pack self = Ok (section_record self e)) ∨
  (∃ e, encode (take 8 (sec_name self)) = Ok e ∧ ¬ section_in_range self ∧
        COFFSection_pack self = Raise struct_error) ∨
  (encode (take 8 (sec_name self)) = Raise UnicodeEncodeError ∧
   COFFSection_pack self = Raise UnicodeEncodeError).
Proof.
  unfold COFFSection_pack.
  destruct (encode (take 8 (sec_name self))) as [e|err] eqn:He.
  - cbn [mbind outcome_bind]. unfold section_in_range, section_record.
    unfold_pack. rewrite ljust_take_ljust. fold (name_field e).
    pack_cases; simpl in *;
      first [ left; exists e; split; [done|]; split; [lia|];
              by rewrite ?app_nil_r
            | right; left; exists e; split; [done|]; split; [lia | done] ].
  - apply encode_Raise in He as Herr. subst err. right. right. done.
Qed.

(** ** [COFFSymbol.pack] *)

Lemma pack_I_raises v :
  ¬ 0 ≤ v < 2 ^ 32 → struct.pack "I" [Int v] = Raise struct_error.
Proof.
  intros Hv. unfold_pack.
  destruct (pack_uint_cases 4 v) as [[Hr ->]|[Hr ->]]; [simpl in Hr; lia | done].
Qed.

Lemma pack_symbol_record_cases nameBytes sym :
  (symbol_in_range sym ∧
   struct.pack "8sIHHBB"
     [Bytes nameBytes; Int (sym_value sym); Int (sym_section sym);
      Int (sym_type_ sym); Int (sym_storage sym); Int 0]
   = Ok (ljust 8 (take 8 nameBytes) ++ symbol_tail sym)) ∨
  (¬ symbol_in_range sym ∧
   struct.pack "8sIHHBB"
     [Bytes nameBytes; Int (sym_value sym); Int (sym_section sym);
      Int (sym_type_ sym); Int (sym_storage sym); Int 0]
   = Raise struct_error).
Proof.
  unfold symbol_in_range, symbol_tail. unfold_pack.
  pack_cases; simpl in *;
    first [ left; split; [lia | by rewrite ?app_nil_r]
          | right; split; [lia | done] ].
Qed.

(** The outcomes of [COFFSymbol.pack].  A name that cannot be encoded
    raises [UnicodeEncodeError].  With at most 8 characters the record is
    returned, and the generator left alone, when value, section, type and
    storage class fit their fields.  With more than 8 characters the name
    is appended to the string table; the record is returned when moreover
    the grown table is shorter than 2^32 bytes.  Every other case raises
    [struct.error]. *)
Theorem COFFSymbol_pack_outcome self g :
  (∀ err, encode (sym_name self) = Raise err →
     COFFSymbol_pack self g = Raise UnicodeEncodeError) ∧
  (∀ e, encode (sym_name self) = Ok e → (length (sym_name self) ≤ 8)%nat →
     (symbol_in_range self ∧
      COFFSymbol_pack self g = Ok (name_field e ++ symbol_tail self, g)) ∨
     (¬ symbol_in_range self ∧
      COFFSymbol_pack self g = Raise struct_error)) ∧
  (∀ e, encode (sym_name self) = Ok e → (8 < length (sym_name self))%nat →
     (Z.of_nat (length (strings g) + length e + 1) < 2 ^ 32 ∧
      symbol_in_range self ∧
      COFFSymbol_pack self g
      = Ok ((zeros 4 ++ le_split 4 (Z.of_nat (length (strings g))))
            ++ symbol_tail self,
            set_strings g (strtab_append (strings g) e))) ∨
     (¬ (Z.of_nat (length (strings g) + length e + 1) < 2 ^ 32 ∧
         symbol_in_range self) ∧
      COFFSymbol_pack self g = Raise struct_error)).
Proof.
  split; [|split].
  - intros err He. pose proof (encode_Raise _ _ He) as ->.
    unfold COFFSymbol_pack, COFFGenerator_string. rewrite He.
    by destruct (length (sym_name self) <=? 8)%nat.
  - intros e He Hlen. unfold COFFSymbol_pack.
    replace (length (sym_name self) <=? 8)%nat with true
      by (symmetry; by apply Nat.leb_le).
    rewrite He. cbn [mbind outcome_bind].
    destruct (pack_symbol_record_cases (ljust 8 e) self) as [[Hr ->]|[Hr ->]];
      cbn [mbind outcome_bind]; [left | right]; (split; [done|]); [|done].
    by rewrite ljust_take_ljust.
  - intros e He Hlen. unfold COFFSymbol_pack, COFFGenerator_string.
    replace (length (sym_name self) <=? 8)%nat with false
      by (symmetry; apply Nat.leb_gt; lia).
    rewrite He. cbn [mbind outcome_bind strings set_strings].
    assert (length (strings g ++ e ++ [Byte.x00])
            = (length (strings g) + length e + 1)%nat) as HL
      by (rewrite !length_app; simpl; lia).
    destruct (decide (Z.of_nat (length (strings g) + length e + 1) < 2 ^ 32))
      as [Hfits|Hbig].
    + rewrite pack_I_range by (rewrite HL; lia). cbn [mbind outcome_bind].
      rewrite pack_II_range by lia. cbn [mbind outcome_bind].
      destruct (pack_symbol_record_cases
                  (le_split 4 0 ++ le_split 4 (Z.of_nat (length (strings g))))
                  self) as [[Hr ->]|[Hr ->]];
        cbn [mbind outcome_bind]; [left | right].
      * split; [done|]. split; [done|]. reflexivity.
      * split; [tauto | done].
    + rewrite pack_I_raises by (rewrite HL; lia).
      right. split; [tauto | done].
Qed.

(** The fields of a symbol are read back from its 18-byte record; the
    section index is stored as given, whether or not the generator has
    such a section, and the last byte (the number of auxiliary records) is
    zero. *)
Theorem COFFSymbol_pack_roundtrip self g p g' :
  COFFSymbol_pack self g = Ok (p, g') →
  length p = 18%nat ∧
  le_combine (slice p 8 12) = sym_value self ∧
  le_combine (slice p 12 14) = sym_section self ∧
  le_combine (slice p 14 16) = sym_type_ self ∧
  le_combine (slice p 16 17) = sym_storage self ∧
  slice p 17 18 = zeros 1.
Proof.
  intros H. pose proof (COFFSymbol_pack_length _ _ _ _ H) as Hlen.
  split; [done|].
  assert (∃ nf, length nf = 8%nat ∧ symbol_in_range self ∧
                p = nf ++ symbol_tail self) as (nf & Hnf & Hr & ->).
  { destruct (decide (length (sym_name self) ≤ 8)%nat) as [Hle|Hgt].
    - apply COFFSymbol_pack_short in H as (e & _ & _ & Hr & ->); [|done].
      eexists. split; [apply length_name_field | done].
    - apply COFFSymbol_pack_long in H as (_ & Hr & ->); [|lia].
      eexists. split; [|done]. by rewrite length_app, length_zeros,
        length_le_split'. }
  destruct Hr as (Hv & Hs & Ht & Hst).
  rewrite !(slice_app_r nf) by lia. rewrite Hnf. cbn [Nat.sub].
  unfold symbol_tail.
  change (slice _ 0 4) with (le_split 4 (sym_value self)).
  change (slice _ 4 6) with (le_split 2 (sym_section self)).
  change (slice _ 6 8) with (le_split 2 (sym_type_ self)).
  change (slice _ 8 9) with (le_split 1 (sym_storage self)).
  rewrite !le_combine_le_split by (simpl; lia). done.
Qed.

Lemma COFFSymbol_pack_roundtrip_witness :
  let sym := {| sym_name := py "print"; sym_value := 0; sym_section := 9;
                sym_type_ := 0x20; sym_storage := 2 |} in
  COFFSymbol_pack sym fresh
    = Ok (name_field (bytes_of [112; 114; 105; 110; 116]) ++ symbol_tail sym,
          fresh) ∧
  le_combine (slice (name_field (bytes_of [112; 114; 105; 110; 116])
                     ++ symbol_tail sym) 12 14) = 9.
Proof.
  intros sym. split; [vm_compute; reflexivity|].
  destruct (COFFSymbol_pack_roundtrip sym fresh
              (name_field (bytes_of [112; 114; 105; 110; 116])
               ++ symbol_tail sym) fresh)
    as (_ & _ & Hsec & _); [vm_compute; reflexivity | exact Hsec].
Defined.

(** ** [size()] *)

(** For each of the four record classes, every record [pack] returns has
    the length the class's [size()] gives. *)
Theorem pack_length_is_size :
  (∀ self p, COFFRelocation_pack self = Ok p →
             length p = COFFRelocation_size) ∧
  (∀ self p, COFFSection_pack self = Ok p → length p = COFFSection_size) ∧
  (∀ self g p g', COFFSymbol_pack self g = Ok (p, g') →
                  length p = COFFSymbol_size) ∧
  (∀ self now p h, COFFHeader_pack self now = Ok (p, h) →
                   length p = COFFHeader_size).
Proof.
  split; [|split; [|split]].
  - apply COFFRelocation_pack_length.
  - apply COFFSection_pack_length.
  - apply COFFSymbol_pack_length.
  - apply COFFHeader_pack_length.
Qed.

(** ** [COFFSection.emit] *)

(** A sequence of calls of [section.emit]: the data of the section becomes
    the old data followed by the emitted byte strings in order, each
    returned offset is the length the data had before that call, and the
    bytes of each call lie at the offset it returned, also after the later
    calls.  Name, relocations, virtual address and characteristics are not
    touched. *)
Theorem COFFSection_emit_all_offsets bs : ∀ self,
  sec_data (COFFSection_emit_all self bs).2 = sec_data self ++ concat bs ∧
  length (COFFSection_emit_all self bs).1 = length bs ∧
  (∀ k b off,
     bs !! k = Some b → (COFFSection_emit_all self bs).1 !! k = Some off →
     off = (length (sec_data self) + length (concat (take k bs)))%nat ∧
     slice (sec_data (COFFSection_emit_all self bs).2) off (off + length b)
       = b) ∧
  sec_name (COFFSection_emit_all self bs).2 = sec_name self ∧
  sec_relocations (COFFSection_emit_all self bs).2 = sec_relocations self ∧
  sec_VirtualAddress (COFFSection_emit_all self bs).2
    = sec_VirtualAddress self ∧
  sec_characteristics (COFFSection_emit_all self bs).2
    = sec_characteristics self.
Proof.
  induction bs as [|b0 bs IH]; intros self.
  - simpl. rewrite app_nil_r. repeat split; done.
  - cbn [COFFSection_emit_all COFFSection_emit].
    set (self1 := {| sec_name := sec_name self;
                     sec_relocations := sec_relocations self;
                     sec_VirtualAddress := sec_VirtualAddress self;
                     sec_characteristics := sec_characteristics self;
                     sec_data := sec_data self ++ b0 |}).
    specialize (IH self1).
    destruct (COFFSection_emit_all self1 bs) as [offsets self2].
    cbn [fst snd] in *.
    destruct IH as (Hdata & Hlen & Hoff & Hname & Hrel & Hva & Hch).
    cbn [sec_data sec_name sec_relocations sec_VirtualAddress
         sec_characteristics self1] in *.
    split; [by rewrite Hdata, <- app_assoc|]. split; [simpl; lia|].
    split; [|done].
    intros k b off Hb Hk. destruct k as [|k]; simpl in Hb, Hk.
    + injection Hb as ->. injection Hk as <-.
      cbn [take concat length]. rewrite Nat.add_0_r. split; [done|].
      rewrite Hdata, <- app_assoc. by apply slice_app_mid.
    + destruct (Hoff k b off Hb Hk) as [-> Hslice]. split; [|done].
      cbn [take concat]. rewrite !length_app. lia.
Qed.

Lemma COFFSection_emit_all_offsets_witness :
  let text := COFFSection_init (py ".text") 0x60000020 0 in
  let bs := [bytes_of [0x55]; bytes_of [0x48; 0x89; 0xe5];
             bytes_of [0x48; 0x8d; 0x0d; 0; 0; 0; 0]] in
  (COFFSection_emit_all text bs).1 = [0; 1; 4]%nat ∧
  slice (sec_data (COFFSection_emit_all text bs).2) 1 (1 + 3)
    = bytes_of [0x48; 0x89; 0xe5].
Proof.
  intros text bs. split; [reflexivity|].
  destruct (COFFSection_emit_all_offsets bs text) as (_ & _ & Hoff & _).
  destruct (Hoff 1%nat (bytes_of [0x48; 0x89; 0xe5]) 1%nat)
    as [_ Hslice]; [reflexivity | reflexivity | exact Hslice].
Defined.

(** ** [COFFGenerator.string] *)

Lemma slice_drop (l : bytes) n x y :
  slice (drop n l) x y = slice l (n + x) (n + y).
Proof.
  unfold slice. rewrite drop_drop. f_equal. lia.
Qed.

Lemma slice_beyond_prefix (l1 l2 : bytes) x y :
  strtab_extends l1 l2 → (4 ≤ x)%nat → (y ≤ length l1)%nat →
  slice l2 x y = slice l1 x y.
Proof.
  intros (H1 & H2 & tail & Hext) Hx Hy.
  destruct (decide (x ≤ y)%nat) as [Hxy|Hxy].
  - replace x with (4 + (x - 4))%nat by lia.
    replace y with (4 + (y - 4))%nat by lia.
    rewrite <- !slice_drop, Hext.
    apply slice_app_l. rewrite length_drop. lia.
  - unfold slice. replace (y - x)%nat with 0%nat by lia. by rewrite !take_0.
Qed.

Lemma strtab_extends_refl t : (4 ≤ length t)%nat → strtab_extends t t.
Proof.
  intros Ht. split; [done|]. split; [done|]. exists []. by rewrite app_nil_r.
Qed.

Lemma strtab_extends_trans t1 t2 t3 :
  strtab_extends t1 t2 → strtab_extends t2 t3 → strtab_extends t1 t3.
Proof.
  intros (H1 & _ & tail1 & E1) (_ & H3 & tail2 & E2).
  split; [done|]. split; [done|]. exists (tail1 ++ tail2).
  by rewrite E2, E1, app_assoc.
Qed.

Lemma strtab_append_extends tbl e :
  (4 ≤ length tbl)%nat → strtab_extends tbl (strtab_append tbl e).
Proof.
  intros Ht. split; [done|].
  split; [rewrite length_strtab_append by done; lia|].
  exists (e ++ [Byte.x00]). rewrite strtab_append_unfold by done.
  rewrite drop_app_length'; [done | by rewrite length_le_split'].
Qed.

Lemma foldl_strtab_append_extends es : ∀ tbl,
  (4 ≤ length tbl)%nat → strtab_extends tbl (foldl strtab_append tbl es).
Proof.
  induction es as [|e es IH]; intros tbl Ht; simpl.
  - by apply strtab_extends_refl.
  - pose proof (strtab_append_extends tbl e Ht) as Hext.
    eapply strtab_extends_trans; [done|].
    apply IH. by destruct Hext as (_ & ? & _).
Qed.

Lemma COFFGenerator_string_at self s off self' :
  (4 ≤ length (strings self))%nat →
  COFFGenerator_string self s = Ok (off, self') →
  ∃ e, encode s = Ok e ∧
    off = length (strings self) ∧
    slice (strings self') off (off + length e + 1) = e ++ [Byte.x00] ∧
    length (strings self') = (off + length e + 1)%nat.
Proof.
  intros Ht (e & He & -> & _ & ->)%COFFGenerator_string_Ok.
  exists e. split; [done|]. split; [done|].
  change (strings (set_strings self (strtab_append (strings self) e)))
    with (strtab_append (strings self) e).
  rewrite length_strtab_append by done.
  rewrite strtab_append_unfold by done.
  split; [|done].
  rewrite app_assoc, <- (app_nil_r (e ++ [Byte.x00])) at 1.
  apply slice_app_mid.
  - rewrite length_app, length_le_split', length_drop. lia.
  - rewrite length_app. simpl. lia.
Qed.

(** [gen.string(s)] returns the length the string table had; the encoded
    string followed by a zero byte lies at that offset in the new table,
    which is the old table (its length prefix apart) with these bytes
    added at the end.  Nothing else in the generator changes. *)
Theorem COFFGenerator_string_lookup self s off self' :
  (4 ≤ length (strings self))%nat →
  COFFGenerator_string self s = Ok (off, self') →
  ∃ e, encode s = Ok e ∧
    off = length (strings self) ∧
    slice (strings self') off (off + length e + 1) = e ++ [Byte.x00] ∧
    length (strings self') = (off + length e + 1)%nat ∧
    drop 4 (strings self') = drop 4 (strings self) ++ e ++ [Byte.x00] ∧
    self' = set_strings self (strings self').
Proof.
  intros Ht Hs.
  destruct (COFFGenerator_string_at _ _ _ _ Ht Hs)
    as (e & He & Hoff & Hslice & Hlen).
  apply COFFGenerator_string_Ok in Hs as (e' & He' & _ & _ & ->).
  assert (e' = e) as -> by congruence.
  exists e. split; [done|]. split; [done|]. split; [done|].
  split; [done|]. split; [|done].
  change (strings (set_strings self (strtab_append (strings self) e)))
    with (strtab_append (strings self) e).
  rewrite strtab_append_unfold by done.
  rewrite drop_app_length'; [done | by rewrite length_le_split'].
Qed.

Lemma COFFGenerator_string_lookup_witness :
  ∃ self',
    COFFGenerator_string fresh (py "hello") = Ok (4%nat, self') ∧
    slice (strings self') 4 (4 + 5 + 1)
      = bytes_of [104; 101; 108; 108; 111; 0].
Proof.
  eexists. split; [vm_compute; reflexivity|].
  edestruct (COFFGenerator_string_lookup fresh (py "hello") 4%nat)
    as (e & He & _ & Hslice & _);
    [vm_compute; lia | vm_compute; reflexivity |].
  vm_compute in He. injection He as <-. exact Hslice.
Defined.

(** ** States reached through the interface *)

Lemma step_strtab_extends self o self' :
  step self o = Ok self' → (4 ≤ length (strings self))%nat →
  strtab_extends (strings self) (strings self').
Proof.
  intros Hstep Ht. destruct o; simpl in Hstep.
  - injection Hstep as <-. by apply strtab_extends_refl.
  - apply bind_Ok in Hstep as (sec & _ & [= <-]). by apply strtab_extends_refl.
  - apply bind_Ok in Hstep as (sec & _ & [= <-]). by apply strtab_extends_refl.
  - injection Hstep as <-. by apply strtab_extends_refl.
  - apply bind_Ok in Hstep as ([off g] & Hs & [= <-]).
    apply COFFGenerator_string_Ok in Hs as (e & _ & _ & _ & ->).
    by apply strtab_append_extends.
  - apply bind_Ok in Hstep as ([buf g] & He & [= <-]).
    apply COFFGenerator_emit_shape in He as (body & es & _ & -> & _ & _).
    by apply foldl_strtab_append_extends.
Qed.

Lemma run_strtab_extends ops : ∀ self self',
  run self ops = Ok self' → (4 ≤ length (strings self))%nat →
  strtab_extends (strings self) (strings self').
Proof.
  induction ops as [|o ops IH]; intros self self' H Ht.
  - injection H as <-. by apply strtab_extends_refl.
  - apply foldM_cons_Ok in H as (g & Hstep & H).
    pose proof (step_strtab_extends _ _ _ Hstep Ht) as Hext.
    eapply strtab_extends_trans; [done|].
    apply IH; [done|]. by destruct Hext as (_ & ? & _).
Qed.

(** An offset returned by [gen.string] stays valid: whatever calls follow
    (sections, symbols, more strings, [emit]), the encoded string and its
    zero byte are still found at that offset of the string table. *)
Theorem string_offset_stable is64bit t0 ops1 self s off self1 ops2 self2 :
  run (COFFGenerator_init is64bit t0) ops1 = Ok self →
  COFFGenerator_string self s = Ok (off, self1) →
  run self1 ops2 = Ok self2 →
  ∃ e, encode s = Ok e ∧
    slice (strings self2) off (off + length e + 1) = e ++ [Byte.x00].
Proof.
  intros H1 Hs H2.
  assert (4 ≤ length (strings self))%nat as Ht.
  { apply run_strtab_extends in H1 as (_ & ? & _); [done | simpl; lia]. }
  destruct (COFFGenerator_string_at _ _ _ _ Ht Hs)
    as (e & He & -> & Hslice & Hlen).
  exists e. split; [done|].
  rewrite <- Hslice. apply slice_beyond_prefix; [|done|lia].
  apply (run_strtab_extends _ _ _ H2). lia.
Qed.

Lemma string_offset_stable_witness :
  let later := [op_symbol long_name 0 0 0x20 2; op_emit 1700000000;
                op_string (py "more")] in
  let self1 :=
    match COFFGenerator_string example_generator (py "hello") with
    | Ok r => r.2
    | Raise _ => example_generator
    end in
  let self2 :=
    match run self1 later with Ok g => g | Raise _ => self1 end in
  COFFGenerator_string example_generator (py "hello") = Ok (4%nat, self1) ∧
  run self1 later = Ok self2 ∧
  slice (strings self2) 4 (4 + 5 + 1) = bytes_of [104; 101; 108; 108; 111; 0].
Proof.
  intros later self1 self2.
  split; [vm_compute; reflexivity|]. split; [vm_compute; reflexivity|].
  destruct (string_offset_stable true 0 example_ops example_generator
              (py "hello") 4%nat self1 later self2)
    as (e & He & Hslice);
    [vm_compute; reflexivity | vm_compute; reflexivity
    | vm_compute; reflexivity |].
  vm_compute in He. injection He as <-. exact Hslice.
Defined.


(** In every state reached through the interface the header agrees with
    the generator: its two counts are the numbers of sections and of
    symbols, its machine code is the one chosen at construction (0x8664
    for 64 bit, 0x014C otherwise), and the optional-header size and the
    characteristics are zero. *)
Theorem run_header_invariant b64 t0 ops self :
  run (COFFGenerator_init b64 t0) ops = Ok self →
  is64bit self = b64 ∧
  NumberOfSections (header self) = Z.of_nat (length (sections self)) ∧
  NumberOfSymbols (header self) = Z.of_nat (length (symbols self)) ∧
  Machine (header self) = (if b64 then 0x8664 else 0x014C) ∧
  SizeOfOptionalHeader (header self) = 0 ∧
  Characteristics (header self) = 0.
Proof.
  intros H.
  refine (foldM_invariant step
            (λ g, is64bit g = b64 ∧
                  NumberOfSections (header g) = Z.of_nat (length (sections g)) ∧
                  NumberOfSymbols (header g) = Z.of_nat (length (symbols g)) ∧
                  Machine (header g) = (if b64 then 0x8664 else 0x014C) ∧
                  SizeOfOptionalHeader (header g) = 0 ∧
                  Characteristics (header g) = 0)
            ops _ _ _ H _); [|done].
  intros g o g' _ Hstep (Hb & Hsec & Hsym & HM & HO & HC).
  destruct o; simpl in Hstep.
  - injection Hstep as <-. simpl. rewrite length_app. simpl.
    repeat split; [done | lia | done..].
  - apply bind_Ok in Hstep as (sec & _ & [= <-]). simpl.
    by rewrite length_insert.
  - apply bind_Ok in Hstep as (sec & _ & [= <-]). simpl.
    by rewrite length_insert.
  - injection Hstep as <-. simpl. rewrite length_app. simpl.
    repeat split; [done | done | lia | done..].
  - apply bind_Ok in Hstep as ([off g1] & Hs & [= <-]).
    by apply COFFGenerator_string_Ok in Hs as (e & _ & _ & _ & ->).
  - apply bind_Ok in Hstep as ([buf g1] & He & [= <-]).
    by apply COFFGenerator_emit_shape in He as (body & es & _ & -> & _ & _).
Qed.

Lemma run_header_invariant_witness :
  NumberOfSections (header example_generator) = 2 ∧
  NumberOfSymbols (header example_generator) = 3 ∧
  Machine (header example_generator) = 0x8664.
Proof.
  destruct (run_header_invariant true 0 example_ops example_generator)
    as (_ & Hsec & Hsym & HM & _); [vm_compute; reflexivity|].
  split; [exact Hsec|]. split; [exact Hsym | exact HM].
Defined.

(** ** The exceptions of [emit] *)

Lemma bind_Raise {A B : Type} (m : outcome A) (f : A → outcome B) e :
  (m ≫= f) = Raise e → m = Raise e ∨ ∃ x, m = Ok x ∧ f x = Raise e.
Proof. destruct m as [x|e']; simpl; [eauto | intros [= <-]; by left]. Qed.

Lemma foldM_Raise {A B : Type} (f : B → A → outcome B) (P : exn → Prop) l :
  (∀ b x e, x ∈ l → f b x = Raise e → P e) →
  ∀ b e, foldM f b l = Raise e → P e.
Proof.
  induction l as [|x l IH]; intros Hf b e H; [done|].
  simpl in H. apply bind_Raise in H as [H|(b' & _ & H)].
  - eapply Hf; [apply list_elem_of_here | done].
  - eapply IH; [|done]. intros ? y ? Hy. apply Hf.
    by apply list_elem_of_further.
Qed.

Lemma foldM_Ok_each {A B : Type} (f : B → A → outcome B) l : ∀ b b',
  foldM f b l = Ok b' → ∀ x, x ∈ l → ∃ b1 b2, f b1 x = Ok b2.
Proof.
  induction l as [|y l IH]; intros b b' H x Hx; [by inversion Hx|].
  apply foldM_cons_Ok in H as (b1 & Hy & H).
  apply elem_of_cons in Hx as [->|Hx]; [eauto | by eapply IH].
Qed.

Lemma pack_uint_Raise n v e :
  struct.pack_uint n v = Raise e → e = struct_error.
Proof.
  unfold struct.pack_uint. case_match; [discriminate | by intros [= <-]].
Qed.

Lemma pack_from_Raise fmt : ∀ offset args e,
  struct.pack_from offset fmt args = Raise e → e = struct_error.
Proof.
  induction fmt as [|c fmt IH]; intros offset [|a args] e; simpl;
    try (by intros [= <-]); try discriminate.
  intros [H|(fld & _ & H)]%bind_Raise.
  - destruct c, a; simpl in H; try (by injection H as <-); try discriminate;
      by eapply pack_uint_Raise.
  - apply bind_Raise in H as [H|(rest & _ & H)]; [by eapply IH | done].
Qed.

Lemma struct_pack_Raise fmt args e :
  struct.pack fmt args = Raise e → e = struct_error.
Proof.
  unfold struct.pack. destruct (struct.parse _ _); [|by intros [= <-]].
  apply pack_from_Raise.
Qed.

Lemma COFFSection_pack_Raise self e :
  COFFSection_pack self = Raise e → expected_exn e.
Proof.
  unfold COFFSection_pack.
  intros [H%encode_Raise|(b & _ & H%struct_pack_Raise)]%bind_Raise;
    [by right | by left].
Qed.

Lemma COFFGenerator_string_Raise self s e :
  COFFGenerator_string self s = Raise e → expected_exn e.
Proof.
  unfold COFFGenerator_string.
  intros [H%encode_Raise|(b & _ & H)]%bind_Raise; [by right|].
  apply bind_Raise in H as [H%struct_pack_Raise|(p & _ & H)];
    [by left | done].
Qed.

Lemma COFFSymbol_pack_Raise self g e :
  COFFSymbol_pack self g = Raise e → expected_exn e.
Proof.
  unfold COFFSymbol_pack. intros [H|([nb g1] & _ & H)]%bind_Raise.
  - destruct (length (sym_name self) <=? 8)%nat.
    + apply bind_Raise in H as [H%encode_Raise|(b & _ & H)];
        [by right | done].
    + apply bind_Raise in H as [H|([off g2] & _ & H)];
        [by eapply COFFGenerator_string_Raise|].
      apply bind_Raise in H as [H%struct_pack_Raise|(p & _ & H)];
        [by left | done].
  - apply bind_Raise in H as [H%struct_pack_Raise|(p & _ & H)];
      [by left | done].
Qed.

(** [emit] raises nothing but [struct.error] (a value that does not fit
    its field) and [UnicodeEncodeError] (a name that cannot be encoded):
    the lookups in its dictionary of header offsets never fail. *)
Theorem COFFGenerator_emit_raises self now e :
  COFFGenerator_emit self now = Raise e →
  e = struct_error ∨ e = UnicodeEncodeError.
Proof.
  unfold COFFGenerator_emit. intros H. change (expected_exn e).
  apply bind_Raise in H as [H|([r1 hdrs] & H1 & H)].
  { refine (foldM_Raise _ expected_exn _ _ _ _ H). intros [r h] sec e' _ Hs.
    apply bind_Raise in Hs as [Hs|(p & _ & Hs)]; [|done].
    by eapply COFFSection_pack_Raise. }
  assert (∀ sec, sec ∈ sections self → is_Some (hdrs !! sec_name sec)) as Hdom.
  { intros sec Hin. eapply emit_headers_dom; [done|].
    right. by apply list_elem_of_fmap_2. }
  apply bind_Raise in H as [H|(r2 & _ & H)].
  { refine (foldM_Raise _ expected_exn _ _ _ _ H). intros r sec e' Hin Hs.
    unfold emit_data_step, dict_get in Hs.
    destruct (Hdom sec Hin) as [h Hh]. rewrite Hh in Hs. simpl in Hs.
    apply bind_Raise in Hs as [Hs%struct_pack_Raise|(p & _ & Hs)];
      [by left | done]. }
  apply bind_Raise in H as [H|(r3 & _ & H)].
  { refine (foldM_Raise _ expected_exn _ _ _ _ H). intros r sec e' Hin Hs.
    unfold emit_reloc_step, dict_get in Hs.
    destruct (0 <? length (sec_relocations sec))%nat; [|done].
    destruct (Hdom sec Hin) as [h Hh]. rewrite Hh in Hs. simpl in Hs.
    apply bind_Raise in Hs as [Hs%struct_pack_Raise|(p & _ & Hs)];
      [by left|].
    refine (foldM_Raise _ expected_exn _ _ _ _ Hs). intros r' reloc e'' _ Hr.
    apply bind_Raise in Hr as [Hr%struct_pack_Raise|(q & _ & Hr)];
      [by left | done]. }
  apply bind_Raise in H as [H|([r4 g4] & _ & H)].
  { refine (foldM_Raise _ expected_exn _ _ _ _ H). intros [r g] sym e' _ Hs.
    apply bind_Raise in Hs as [Hs|([p g1] & _ & Hs)]; [|done].
    by eapply COFFSymbol_pack_Raise. }
  apply bind_Raise in H as [H|([p h] & _ & H)]; [|done].
  unfold COFFHeader_pack in H.
  apply bind_Raise in H as [H%struct_pack_Raise|(q & _ & H)];
    [by left | done].
Qed.

Lemma COFFGenerator_emit_raises_witness :
  COFFGenerator_emit (built (large_reloc_ops 65476)) 1 = Raise struct_error.
Proof.
  destruct (COFFGenerator_emit (built (large_reloc_ops 65476)) 1)
    as [r|e] eqn:He; [vm_compute in He; discriminate|].
  destruct (COFFGenerator_emit_raises _ _ _ He) as [->| ->];
    [reflexivity | vm_compute in He; discriminate].
Defined.

(** ** What a call of [emit] that returns implies *)

Lemma COFFSymbol_pack_in_range self g p g' :
  COFFSymbol_pack self g = Ok (p, g') →
  (∃ e, encode (sym_name self) = Ok e) ∧ symbol_in_range self.
Proof.
  intros H. destruct (decide (length (sym_name self) ≤ 8)%nat) as [Hle|Hgt].
  - apply COFFSymbol_pack_short in H as (e & He & _ & Hr & _); eauto.
  - apply COFFSymbol_pack_long in H as (Hs & Hr & _); [|lia].
    apply COFFGenerator_string_Ok in Hs as (e & He & _). eauto.
Qed.

Lemma emit_reloc_in_range relocs : ∀ r r',
  foldM emit_reloc r relocs = Ok r' → Forall reloc_in_range relocs.
Proof.
  induction relocs as [|reloc relocs IH]; intros r r' H; [constructor|].
  apply foldM_cons_Ok in H as (r1 & Hs & H).
  apply bind_Ok in Hs as (p & [Hr _]%COFFRelocation_pack_Ok & _).
  constructor; [done | by eapply IH].
Qed.

(** The stages of a call of [emit] that returns, with the lengths of the
    buffer after each loop. *)
Lemma COFFGenerator_emit_stages self now buf self' :
  COFFGenerator_emit self now = Ok (buf, self') →
  ∃ r1 hdrs r2 r3 r4 g4,
    foldM emit_header_step (zeros 20, ∅) (sections self) = Ok (r1, hdrs) ∧
    foldM (emit_data_step hdrs) r1 (sections self) = Ok r2 ∧
    foldM (emit_reloc_step hdrs) r2 (sections self) = Ok r3 ∧
    foldM emit_symbol_step (r3, PointerToSymbolTable_set self r3)
      (symbols self) = Ok (r4, g4) ∧
    map_Forall (λ _ v, (v + 40 ≤ length r1)%nat) hdrs ∧
    length r1 = (20 + 40 * length (sections self))%nat ∧
    length r2 = (20 + 40 * length (sections self) + data_size self)%nat ∧
    length r3 = symtab_offset self ∧
    length r4 = (symtab_offset self + 18 * length (symbols self))%nat ∧
    header g4
    = set_PointerToSymbolTable (header self) (Z.of_nat (symtab_offset self)) ∧
    header_in_range (header g4) ∧ 0 ≤ now < 2 ^ 32 ∧
    strings self' = strings g4 ∧
    buf = header_bytes (set_TimeDateStamp (header g4) now)
          ++ drop 20 r4 ++ strings g4.
Proof.
  intros (r1 & hdrs & r2 & r3 & r4 & g4 & p & H1 & H2 & H3 & H4 & H5 & -> & ->)
    %COFFGenerator_emit_Ok.
  pose proof (emit_headers_length _ _ _ _ _ H1) as L1.
  rewrite length_zeros in L1.
  pose proof (emit_headers_bound _ _ _ _ _ H1 (map_Forall_empty _)) as B1.
  pose proof (emit_data_length _ _ _ _ B1 H2) as L2.
  assert (map_Forall (λ _ v, (v + 40 ≤ length r2)%nat) hdrs) as B2.
  { eapply map_Forall_impl; [done|]. simpl. lia. }
  pose proof (emit_relocs_length _ _ _ _ B2 H3) as L3.
  pose proof H4 as (L4 & es & _ & Hg4)%emit_symbols_Ok.
  assert (length r3 = symtab_offset self) as Hptr.
  { unfold symtab_offset, data_size, reloc_count. lia. }
  apply COFFHeader_pack_Ok in H5 as (_ & Hnow & Hh & ->).
  exists r1, hdrs, r2, r3, r4, g4.
  split; [done|]. split; [done|]. split; [done|]. split; [done|].
  split; [done|]. split; [done|].
  split; [unfold data_size; lia|]. split; [done|]. split; [lia|].
  split; [by rewrite Hg4, <- Hptr|]. split; [done|]. split; [done|].
  split; [done|].
  unfold slice_assign. simpl take. rewrite drop_app_le; [done|].
  unfold symtab_offset in Hptr. lia.
Qed.

(** [emit] returns only when nothing had to be cut: every section's data
    length, virtual address, relocation count and characteristics, every
    relocation's and every symbol's fields, the header's fields and the
    clock reading fit the fields they are packed into, and every name can
    be encoded.  The offset of the symbol table then is below 2^32. *)
Theorem COFFGenerator_emit_in_range self now buf self' :
  COFFGenerator_emit self now = Ok (buf, self') →
  Forall (λ sec, (∃ e, encode (take 8 (sec_name sec)) = Ok e) ∧
                 section_in_range sec ∧
                 Forall reloc_in_range (sec_relocations sec))
    (sections self) ∧
  Forall (λ sym, (∃ e, encode (sym_name sym) = Ok e) ∧ symbol_in_range sym)
    (symbols self) ∧
  0 ≤ now < 2 ^ 32 ∧
  Z.of_nat (symtab_offset self) < 2 ^ 32 ∧
  0 ≤ Machine (header self) < 2 ^ 16 ∧
  0 ≤ NumberOfSections (header self) < 2 ^ 16 ∧
  0 ≤ NumberOfSymbols (header self) < 2 ^ 32 ∧
  0 ≤ SizeOfOptionalHeader (header self) < 2 ^ 16 ∧
  0 ≤ Characteristics (header self) < 2 ^ 16.
Proof.
  intros (r1 & hdrs & r2 & r3 & r4 & g4 & H1 & H2 & H3 & H4 & _ & _ & _ & L3
          & _ & Hg4 & Hh & Hnow & _)%COFFGenerator_emit_stages.
  split; [|split].
  - apply Forall_forall. intros sec Hin.
    destruct (foldM_Ok_each _ _ _ _ H1 sec Hin) as ([r h] & [r' h'] & Hs).
    apply bind_Ok in Hs as (q & (e & He & Hr & _)%COFFSection_pack_Ok & _).
    split; [eauto|]. split; [done|].
    destruct (foldM_Ok_each _ _ _ _ H3 sec Hin) as (rc & rd & Hs).
    unfold emit_reloc_step in Hs.
    destruct (0 <? length (sec_relocations sec))%nat eqn:Hn.
    + apply bind_Ok in Hs as (h1 & _ & Hs).
      apply bind_Ok in Hs as (q1 & _ & Hs).
      by eapply emit_reloc_in_range.
    + apply Nat.ltb_ge in Hn.
      destruct (sec_relocations sec); [constructor | simpl in Hn; lia].
  - apply Forall_forall. intros sym Hin.
    destruct (foldM_Ok_each _ _ _ _ H4 sym Hin) as ([r g] & [r' g'] & Hs).
    apply bind_Ok in Hs as ([q g1] & Hq & _).
    by eapply COFFSymbol_pack_in_range.
  - rewrite Hg4 in Hh. destruct Hh as (HM & HS & HP & HN & HO & HC).
    simpl in *. repeat split; lia.
Qed.

Lemma COFFGenerator_emit_in_range_witness :
  Z.of_nat (symtab_offset example_generator) < 2 ^ 32 ∧
  Forall (λ sym, (∃ e, encode (sym_name sym) = Ok e) ∧ symbol_in_range sym)
    (symbols example_generator).
Proof.
  destruct (COFFGenerator_emit_in_range example_generator 1700000000
              (emitted example_generator 1700000000).1
              (emitted example_generator 1700000000).2)
    as (_ & Hsyms & _ & Hoff & _); [vm_compute; reflexivity|].
  split; [exact Hoff | exact Hsyms].
Defined.

(** ** The regions of the buffer *)

Lemma slice_empty (l : bytes) x y : (y ≤ x)%nat → slice l x y = [].
Proof. intros Hxy. unfold slice. by replace (y - x)%nat with 0%nat by lia. Qed.

Lemma slice_slice (l : bytes) x y a b :
  (x + b ≤ y)%nat → slice (slice l x y) a b = slice l (x + a) (x + b).
Proof.
  intros Hb. destruct (decide (a ≤ b)%nat) as [Hab|Hab].
  - unfold slice.
    replace (y - x)%nat with (a + (y - x - a))%nat by lia.
    rewrite <- take_drop_commute, take_take, drop_drop.
    f_equal. lia.
  - by rewrite !slice_empty by lia.
Qed.

Lemma slice_all (l : bytes) n : length l = n → slice l 0 n = l.
Proof. intros <-. unfold slice. by rewrite Nat.sub_0_r, drop_0, take_ge. Qed.

(** The buffer [emit] returns, read beyond its first 20 bytes. *)
Lemma slice_header_body (hb r4 s : bytes) x y :
  length hb = 20%nat → (20 ≤ x)%nat → (y ≤ length r4)%nat →
  slice (hb ++ drop 20 r4 ++ s) x y = slice r4 x y.
Proof.
  intros Hhb Hx Hy. destruct (decide (x ≤ y)%nat) as [Hxy|Hxy].
  - rewrite slice_app_r by lia.
    rewrite slice_app_l by (rewrite length_drop; lia).
    rewrite slice_drop. f_equal; lia.
  - by rewrite !slice_empty by lia.
Qed.

Lemma slice_header_strings (hb r4 s : bytes) x y :
  length hb = 20%nat → (20 ≤ length r4)%nat →
  slice (hb ++ drop 20 r4 ++ s) (length r4 + x) (length r4 + y) = slice s x y.
Proof.
  intros Hhb Hr4. rewrite app_assoc, slice_app_r
    by (rewrite length_app, length_drop; lia).
  f_equal; rewrite length_app, length_drop; lia.
Qed.

Lemma strtab_extends_length t1 t2 :
  strtab_extends t1 t2 → (length t1 ≤ length t2)%nat.
Proof.
  intros (H1 & H2 & tail & Hext).
  apply (f_equal length) in Hext. rewrite length_app, !length_drop in Hext.
  lia.
Qed.

Lemma emit_symbols_extends syms r g r4 g4 :
  foldM emit_symbol_step (r, g) syms = Ok (r4, g4) →
  (4 ≤ length (strings g))%nat → strtab_extends (strings g) (strings g4).
Proof.
  intros (_ & es & _ & ->)%emit_symbols_Ok Ht.
  by apply foldl_strtab_append_extends.
Qed.

(** Fourth loop: the record of the k-th symbol, and for a long name the
    place of the name in the string table the loop leaves. *)
Lemma emit_symbols_records syms : ∀ r g r4 g4,
  foldM emit_symbol_step (r, g) syms = Ok (r4, g4) →
  ∀ k sym, syms !! k = Some sym →
    ∃ nf e, encode (sym_name sym) = Ok e ∧ length nf = 8%nat ∧
      slice r4 (length r + 18 * k) (length r + 18 * k + 18)
        = nf ++ symbol_tail sym ∧
      ((length (sym_name sym) ≤ 8)%nat → nf = name_field e) ∧
      ((8 < length (sym_name sym))%nat → (4 ≤ length (strings g))%nat →
         ∃ off, nf = zeros 4 ++ le_split 4 (Z.of_nat off) ∧
           Z.of_nat off < 2 ^ 32 ∧
           slice (strings g4) off (off + length e + 1) = e ++ [Byte.x00]).
Proof.
  induction syms as [|sym0 syms IH]; intros r g r4 g4 H k sym Hk; [done|].
  apply foldM_cons_Ok in H as ([r' g'] & Hs & H).
  apply bind_Ok in Hs as ([p g1] & Hp & [= <- <-]).
  pose proof (COFFSymbol_pack_length _ _ _ _ Hp) as Hlen.
  assert ((4 ≤ length (strings g))%nat →
          strtab_extends (strings g) (strings g1)) as Hext1.
  { intros Ht.
    destruct (decide (length (sym_name sym0) ≤ 8)%nat) as [Hle|Hgt].
    - apply COFFSymbol_pack_short in Hp as (e & _ & -> & _); [|done].
      by apply strtab_extends_refl.
    - apply COFFSymbol_pack_long in Hp as (Hstr & _); [|lia].
      apply COFFGenerator_string_Ok in Hstr as (e & _ & _ & _ & ->).
      by apply strtab_append_extends. }
  destruct k as [|k]; simpl in Hk.
  - injection Hk as <-.
    pose proof (emit_symbols_extends _ _ _ _ _ H) as Hext.
    apply emit_symbols_prefix in H as [tail ->].
    rewrite Nat.mul_0_r, Nat.add_0_r, <- app_assoc.
    rewrite (slice_app_mid r p tail) by lia.
    destruct (decide (length (sym_name sym0) ≤ 8)%nat) as [Hle|Hgt].
    + apply COFFSymbol_pack_short in Hp as (e & He & _ & _ & ->); [|done].
      exists (name_field e), e. split; [done|].
      split; [apply length_name_field|]. split; [done|].
      split; [done | lia].
    + apply COFFSymbol_pack_long in Hp as (Hstr & _ & ->); [|lia].
      pose proof Hstr as (e & He & _ & Hfit & _)%COFFGenerator_string_Ok.
      exists (zeros 4 ++ le_split 4 (Z.of_nat (length (strings g)))), e.
      split; [done|].
      split; [by rewrite length_app, length_zeros, length_le_split'|].
      split; [done|]. split; [lia|]. intros _ Ht.
      destruct (COFFGenerator_string_at _ _ _ _ Ht Hstr)
        as (e' & He' & _ & Hslice & Hl1).
      assert (e' = e) as -> by congruence.
      exists (length (strings g)). split; [done|].
      split; [rewrite length_app in Hfit; lia|].
      rewrite <- Hslice. apply slice_beyond_prefix; [|done|lia].
      apply Hext. rewrite Hl1. lia.
  - destruct (IH _ _ _ _ H k sym Hk) as (nf & e & He & Hnf & Hrec & HS & HL).
    exists nf, e. split; [done|]. split; [done|]. split; [|split; [done|]].
    + rewrite <- Hrec, length_app, Hlen. f_equal; lia.
    + intros Hgt Ht. apply HL; [done|].
      by destruct (Hext1 Ht) as (_ & ? & _).
Qed.

(** The file header of the file [emit] returns: its fields decode to the
    machine type, the two counts, the clock reading, the offset of the
    symbol table, and the two last fields of the generator's header. *)
Theorem COFFGenerator_emit_header self now buf self' :
  COFFGenerator_emit self now = Ok (buf, self') →
  le_combine (slice buf 0 2) = Machine (header self) ∧
  le_combine (slice buf 2 4) = NumberOfSections (header self) ∧
  le_combine (slice buf 4 8) = now ∧
  le_combine (slice buf 8 12) = Z.of_nat (symtab_offset self) ∧
  le_combine (slice buf 12 16) = NumberOfSymbols (header self) ∧
  le_combine (slice buf 16 18) = SizeOfOptionalHeader (header self) ∧
  le_combine (slice buf 18 20) = Characteristics (header self).
Proof.
  intros (r1 & hdrs & r2 & r3 & r4 & g4 & _ & _ & _ & _ & _ & _ & _ & _ & _
          & Hg4 & Hh & Hnow & _ & ->)%COFFGenerator_emit_stages.
  rewrite Hg4 in *. destruct Hh as (HM & HS & HP & HN & HO & HC).
  set (h := set_TimeDateStamp _ _).
  rewrite !(slice_app_l (header_bytes h)) by (rewrite length_header_bytes; lia).
  change (slice (header_bytes h) 0 2) with (le_split 2 (Machine (header self))).
  change (slice (header_bytes h) 2 4)
    with (le_split 2 (NumberOfSections (header self))).
  change (slice (header_bytes h) 4 8) with (le_split 4 now).
  change (slice (header_bytes h) 8 12)
    with (le_split 4 (Z.of_nat (symtab_offset self))).
  change (slice (header_bytes h) 12 16)
    with (le_split 4 (NumberOfSymbols (header self))).
  change (slice (header_bytes h) 16 18)
    with (le_split 2 (SizeOfOptionalHeader (header self))).
  change (slice (header_bytes h) 18 20)
    with (le_split 2 (Characteristics (header self))).
  simpl in HM, HS, HP, HN, HO, HC.
  rewrite !le_combine_le_split by (simpl; lia). done.
Qed.

Lemma COFFGenerator_emit_header_witness :
  let buf := (emitted example_generator 1700000000).1 in
  le_combine (slice buf 2 4) = 2 ∧
  le_combine (slice buf 4 8) = 1700000000 ∧
  le_combine (slice buf 8 12) = Z.of_nat (symtab_offset example_generator) ∧
  le_combine (slice buf 12 16) = NumberOfSymbols (header example_generator).
Proof.
  destruct (COFFGenerator_emit_header example_generator 1700000000
              (emitted example_generator 1700000000).1
              (emitted example_generator 1700000000).2)
    as (_ & HS & HT & HP & HN & _); [vm_compute; reflexivity|].
  split; [exact HS|]. split; [exact HT|]. split; [exact HP | exact HN].
Defined.

Lemma emit_symbol_record_in_buffer self now buf self' k sym :
  COFFGenerator_emit self now = Ok (buf, self') →
  symbols self !! k = Some sym →
  let rec_off := (symtab_offset self + 18 * k)%nat in
  let strtab := (symtab_offset self + 18 * length (symbols self))%nat in
  drop strtab buf = strings self' ∧
  ∃ nf e, encode (sym_name sym) = Ok e ∧ length nf = 8%nat ∧
    slice buf rec_off (rec_off + 18) = nf ++ symbol_tail sym ∧
    ((length (sym_name sym) ≤ 8)%nat → nf = name_field e) ∧
    ((8 < length (sym_name sym))%nat → (4 ≤ length (strings self))%nat →
       ∃ off, nf = zeros 4 ++ le_split 4 (Z.of_nat off) ∧
         Z.of_nat off < 2 ^ 32 ∧
         slice buf (strtab + off) (strtab + off + length e + 1)
           = e ++ [Byte.x00]).
Proof.
  intros (r1 & hdrs & r2 & r3 & r4 & g4 & _ & _ & _ & H4 & _ & _ & _ & L3 & L4
          & _ & _ & _ & Hs & ->)%COFFGenerator_emit_stages Hk.
  cbv zeta. set (h := set_TimeDateStamp _ _).
  pose proof (lookup_lt_Some _ _ _ Hk) as Hlt.
  assert (20 ≤ symtab_offset self)%nat as H20 by (unfold symtab_offset; lia).
  split.
  { rewrite Hs, app_assoc, drop_app_length'; [done|].
    rewrite length_app, length_header_bytes, length_drop. lia. }
  destruct (emit_symbols_records _ _ _ _ _ H4 k sym Hk)
    as (nf & e & He & Hnf & Hrec & HS & HL).
  exists nf, e. split; [done|]. split; [done|].
  rewrite L3 in Hrec. split; [|split; [done|]].
  - rewrite <- Hrec. apply slice_header_body; [done|lia|lia].
  - intros Hgt Ht. destruct (HL Hgt Ht) as (off & -> & Hoff & Hstr).
    exists off. split; [done|]. split; [done|].
    rewrite <- Hstr, <- L4, <- !Nat.add_assoc.
    apply slice_header_strings; [done | lia].
Qed.

Lemma slice_record_part (buf rec : bytes) x n a b :
  slice buf x (x + n) = rec → (b ≤ n)%nat →
  slice buf (x + a) (x + b) = slice rec a b.
Proof. intros <- Hb. by rewrite slice_slice by lia. Qed.

(** The symbol table of the file [emit] returns: the 18-byte record of the
    k-th symbol lies at the symbol-table offset plus 18 k.  Its last 10
    bytes are the value, the section number, the type, the storage class
    and a zero byte; for a name of at most 8 characters its first 8 bytes
    are the encoded name, cut to 8 bytes and filled with zero bytes. *)
Theorem COFFGenerator_emit_symbol_record self now buf self' k sym :
  COFFGenerator_emit self now = Ok (buf, self') →
  symbols self !! k = Some sym →
  let rec_off := (symtab_offset self + 18 * k)%nat in
  slice buf (rec_off + 8) (rec_off + 18) = symbol_tail sym ∧
  ((length (sym_name sym) ≤ 8)%nat →
     ∃ e, encode (sym_name sym) = Ok e ∧
       slice buf rec_off (rec_off + 8) = name_field e).
Proof.
  intros He Hk.
  destruct (emit_symbol_record_in_buffer _ _ _ _ _ _ He Hk)
    as (_ & nf & e & Henc & Hnf & Hrec & HS & _).
  cbv zeta. set (x := (symtab_offset self + 18 * k)%nat) in *.
  split.
  - rewrite (slice_record_part _ _ _ _ _ _ Hrec) by lia.
    rewrite slice_app_r by lia. rewrite Hnf. by apply slice_all.
  - intros Hle. exists e. split; [done|].
    rewrite <- (Nat.add_0_r x) at 1.
    rewrite (slice_record_part _ _ _ _ _ _ Hrec) by lia.
    rewrite slice_app_l by lia. rewrite <- (HS Hle). by apply slice_all.
Qed.

Lemma COFFGenerator_emit_symbol_record_witness :
  let buf := (emitted example_generator 1700000000).1 in
  let rec_off := (symtab_offset example_generator + 18 * 1)%nat in
  slice buf (rec_off + 8) (rec_off + 18)
    = bytes_of [0; 0; 0; 0; 2; 0; 0; 0; 2; 0].
Proof.
  destruct (COFFGenerator_emit_symbol_record example_generator 1700000000
              (emitted example_generator 1700000000).1
              (emitted example_generator 1700000000).2 1
              {| sym_name := py "aHello"; sym_value := 0; sym_section := 2;
                 sym_type_ := 0; sym_storage := 2 |})
    as [Htail _]; [vm_compute; reflexivity | reflexivity |].
  exact Htail.
Defined.

(** Names of more than 8 characters in the file [emit] returns: the string
    table begins where the symbol table ends; the symbol's record begins
    with four zero bytes, and the next four bytes are an offset into the
    string table at which the encoded name lies, followed by a zero
    byte. *)
Theorem COFFGenerator_emit_long_name self now buf self' k sym :
  (4 ≤ length (strings self))%nat →
  COFFGenerator_emit self now = Ok (buf, self') →
  symbols self !! k = Some sym →
  (8 < length (sym_name sym))%nat →
  let rec_off := (symtab_offset self + 18 * k)%nat in
  let strtab := (symtab_offset self + 18 * length (symbols self))%nat in
  drop strtab buf = strings self' ∧
  ∃ e off, encode (sym_name sym) = Ok e ∧
    slice buf rec_off (rec_off + 4) = zeros 4 ∧
    le_combine (slice buf (rec_off + 4) (rec_off + 8)) = Z.of_nat off ∧
    slice buf (strtab + off) (strtab + off + length e + 1) = e ++ [Byte.x00].
Proof.
  intros Ht He Hk Hgt.
  destruct (emit_symbol_record_in_buffer _ _ _ _ _ _ He Hk)
    as (Hdrop & nf & e & Henc & Hnf & Hrec & _ & HL).
  destruct (HL Hgt Ht) as (off & -> & Hoff & Hstr).
  cbv zeta. set (x := (symtab_offset self + 18 * k)%nat) in *.
  split; [done|]. exists e, off. split; [done|].
  set (nf := zeros 4 ++ le_split 4 (Z.of_nat off)) in *.
  split; [|split; [|done]].
  - rewrite <- (Nat.add_0_r x) at 1.
    rewrite (slice_record_part _ _ _ _ _ _ Hrec) by lia.
    rewrite slice_app_l by lia. subst nf.
    by rewrite slice_app_l by (rewrite length_zeros; lia).
  - rewrite (slice_record_part _ _ _ _ _ _ Hrec) by lia.
    rewrite slice_app_l by lia. subst nf.
    rewrite slice_app_r by (rewrite length_zeros; lia).
    rewrite length_zeros. change (4 - 4)%nat with 0%nat.
    change (8 - 4)%nat with 4%nat.
    rewrite slice_all by apply length_le_split'.
    apply le_combine_le_split. lia.
Qed.

Lemma COFFGenerator_emit_long_name_witness :
  let buf := (emitted with_long_symbol 1).1 in
  ∃ e off, encode long_name = Ok e ∧
    le_combine (slice buf (20 + 4) (20 + 8)) = Z.of_nat off ∧
    slice buf (38 + off) (38 + off + length e + 1) = e ++ [Byte.x00].
Proof.
  destruct (COFFGenerator_emit_long_name with_long_symbol 1
              (emitted with_long_symbol 1).1 (emitted with_long_symbol 1).2 0
              {| sym_name := long_name; sym_value := 0; sym_section := 0;
                 sym_type_ := 0x20; sym_storage := 2 |})
    as (_ & e & off & He & _ & Hoff & Hstr);
    [vm_compute; lia | vm_compute; reflexivity | reflexivity
    | vm_compute; lia |].
  exists e, off. split; [exact He|]. split; [exact Hoff | exact Hstr].
Defined.

(** ** Sections in the file [emit] returns *)

(** First loop: the offset the dictionary holds under a name is the offset
    of the record of the last section with that name. *)
Lemma emit_headers_last secs : ∀ r h r1 h1,
  foldM emit_header_step (r, h) secs = Ok (r1, h1) →
  ∀ k v, h1 !! k = Some v →
    ((∀ s, s ∈ secs → sec_name s ≠ k) ∧ h !! k = Some v) ∨
    (∃ j s, secs !! j = Some s ∧ sec_name s = k ∧
       v = (length r + 40 * j)%nat ∧
       ∀ j' s', (j < j')%nat → secs !! j' = Some s' → sec_name s' ≠ k).
Proof.
  induction secs as [|sec0 secs IH]; intros r h r1 h1 H k v Hv.
  - injection H as <- <-. left. split; [|done]. intros s Hs. by inversion Hs.
  - apply foldM_cons_Ok in H as ([r' h'] & Hs & H).
    apply bind_Ok in Hs as (p & Hp%COFFSection_pack_length & [= <- <-]).
    destruct (IH _ _ _ _ H k v Hv)
      as [[Hnotin Hins]|(j & s & Hj & Hs & -> & Hlast)].
    + destruct (decide (sec_name sec0 = k)) as [Heq|Hne].
      * right. exists 0%nat, sec0. subst k.
        rewrite lookup_insert_eq in Hins. injection Hins as <-.
        split; [done|]. split; [done|]. split; [lia|].
        intros j' s' Hlt Hj'. destruct j' as [|j']; [lia|]. simpl in Hj'.
        apply Hnotin. by eapply list_elem_of_lookup_2.
      * left. rewrite lookup_insert_ne in Hins by done. split; [|done].
        intros s [->|Hin]%elem_of_cons; [done | by apply Hnotin].
    + right. exists (S j), s. split; [done|]. split; [done|].
      split; [rewrite length_app, Hp; lia|].
      intros j' s' Hlt Hj'. destruct j' as [|j']; [lia|]. simpl in Hj'.
      apply (Hlast j' s'); [lia | done].
Qed.

(** Second loop: where the data of the i-th section is written. *)
Lemma emit_data_placement hdrs secs : ∀ r r2,
  foldM (emit_data_step hdrs) r secs = Ok r2 →
  map_Forall (λ _ v, (v + 40 ≤ length r)%nat) hdrs →
  ∀ i sec, secs !! i = Some sec →
    let off :=
      (length r + sum_list_with (λ s, length (sec_data s)) (take i secs))%nat in
    Z.of_nat off < 2 ^ 32 ∧
    slice r2 off (off + length (sec_data sec)) = sec_data sec.
Proof.
  induction secs as [|sec0 secs IH]; intros r r2 H Hb i sec Hi; [done|].
  apply foldM_cons_Ok in H as (r' & Hs & H).
  pose proof (emit_data_step_length _ _ _ _ Hb Hs) as Hlen.
  assert (map_Forall (λ _ v, (v + 40 ≤ length r')%nat) hdrs) as Hb'.
  { eapply map_Forall_impl; [done|]. simpl. lia. }
  destruct i as [|i]; simpl in Hi.
  - injection Hi as <-. cbn [take sum_list_with]. cbv zeta.
    rewrite !Nat.add_0_r.
    apply emit_data_step_Ok in Hs as (h & Hh & Hr & Hr').
    pose proof (Hb _ _ Hh) as Hb0. cbv beta in Hb0.
    assert (length (slice_assign r (h + 20) (h + 24)
                      (le_split 4 (Z.of_nat (length r)))) = length r) as Hsa.
    { apply length_slice_assign; rewrite ?length_le_split'; lia. }
    split; [lia|].
    rewrite (emit_data_preserve _ _ _ _ _ _ H Hb').
    + rewrite Hr'. set (patched := slice_assign _ _ _ _) in *.
      rewrite <- Hsa. apply slice_app_tail.
    + lia.
    + intros sec' h' _ Hh'. apply Hb in Hh'. cbv beta in Hh'. lia.
  - destruct (IH r' r2 H Hb' i sec Hi) as (Hr & Hdata).
    cbn [take sum_list_with]. cbv zeta. rewrite Hlen in *.
    replace (length r + (length (sec_data sec0)
               + sum_list_with (λ s, length (sec_data s)) (take i secs)))%nat
      with (length r + length (sec_data sec0)
               + sum_list_with (λ s, length (sec_data s)) (take i secs))%nat
      by lia.
    done.
Qed.

(** Third loop: where the relocation records of the i-th section are
    written. *)
Lemma emit_relocs_placement hdrs secs : ∀ r r3,
  foldM (emit_reloc_step hdrs) r secs = Ok r3 →
  map_Forall (λ _ v, (v + 40 ≤ length r)%nat) hdrs →
  ∀ i sec, secs !! i = Some sec →
    let off :=
      (length r
       + 10 * sum_list_with (λ s, length (sec_relocations s)) (take i secs))%nat
    in
    slice r3 off (off + 10 * length (sec_relocations sec)) = reloc_table sec.
Proof.
  induction secs as [|sec0 secs IH]; intros r r3 H Hb i sec Hi; [done|].
  apply foldM_cons_Ok in H as (r' & Hs & H).
  pose proof (emit_reloc_step_length _ _ _ _ Hb Hs) as Hlen.
  assert (map_Forall (λ _ v, (v + 40 ≤ length r')%nat) hdrs) as Hb'.
  { eapply map_Forall_impl; [done|]. simpl. lia. }
  destruct i as [|i]; simpl in Hi.
  - injection Hi as <-. cbn [take sum_list_with]. cbv zeta.
    rewrite Nat.mul_0_r, !Nat.add_0_r.
    apply emit_reloc_step_Ok in Hs as [[Hnil _]|(_ & h & Hh & Hr & Hr')].
    { unfold reloc_table. rewrite Hnil. simpl. apply slice_empty. lia. }
    pose proof (Hb _ _ Hh) as Hb0. cbv beta in Hb0.
    assert (length (slice_assign r (h + 24) (h + 26)
                      (le_split 2 (Z.of_nat (length r)))) = length r) as Hsa.
    { apply length_slice_assign; rewrite ?length_le_split'; lia. }
    rewrite (emit_relocs_preserve _ _ _ _ _ _ H Hb').
    + rewrite Hr'. set (patched := slice_assign _ _ _ _) in *.
      rewrite <- Hsa, <- length_reloc_table. apply slice_app_tail.
    + lia.
    + intros sec' h' _ _ Hh'. apply Hb in Hh'. cbv beta in Hh'. lia.
  - pose proof (IH r' r3 H Hb' i sec Hi) as Htbl.
    cbn [take sum_list_with]. cbv zeta in Htbl |- *. rewrite Hlen in *.
    replace (length r
             + 10 * (length (sec_relocations sec0)
                     + sum_list_with (λ s, length (sec_relocations s))
                         (take i secs)))%nat
      with (length r + 10 * length (sec_relocations sec0)
            + 10 * sum_list_with (λ s, length (sec_relocations s))
                     (take i secs))%nat by lia.
    done.
Qed.

(** From the end of the third loop to the file [emit] returns: beyond the
    file header, the bytes written by the first three loops stay. *)
Lemma emit_body_preserve self now buf self' :
  COFFGenerator_emit self now = Ok (buf, self') →
  ∃ r1 hdrs r2 r3,
    foldM emit_header_step (zeros 20, ∅) (sections self) = Ok (r1, hdrs) ∧
    foldM (emit_data_step hdrs) r1 (sections self) = Ok r2 ∧
    foldM (emit_reloc_step hdrs) r2 (sections self) = Ok r3 ∧
    map_Forall (λ _ v, (v + 40 ≤ length r1)%nat) hdrs ∧
    length r1 = (20 + 40 * length (sections self))%nat ∧
    length r2 = (20 + 40 * length (sections self) + data_size self)%nat ∧
    length r3 = symtab_offset self ∧
    ∀ x y, (20 ≤ x)%nat → (y ≤ length r3)%nat → slice buf x y = slice r3 x y.
Proof.
  intros (r1 & hdrs & r2 & r3 & r4 & g4 & H1 & H2 & H3 & H4 & B1 & L1 & L2 & L3
          & L4 & _ & _ & _ & _ & ->)%COFFGenerator_emit_stages.
  exists r1, hdrs, r2, r3. split; [done|]. split; [done|]. split; [done|].
  split; [done|]. split; [done|]. split; [done|]. split; [done|].
  intros x y Hx Hy.
  rewrite slice_header_body by (done || lia).
  apply emit_symbols_prefix in H4 as [tail ->]. by apply slice_app_l.
Qed.

(** Section data and relocation records in the file [emit] returns: the
    data of the i-th section lies after the file header, all section
    headers and the data of the sections before it; its relocation records
    lie after all section data and the records of the sections before it.
    This holds for every generator, also with sections of the same name. *)
Theorem COFFGenerator_emit_section_body self now buf self' i sec :
  COFFGenerator_emit self now = Ok (buf, self') →
  sections self !! i = Some sec →
  Z.of_nat (data_offset self i) < 2 ^ 32 ∧
  slice buf (data_offset self i) (data_offset self i + length (sec_data sec))
    = sec_data sec ∧
  slice buf (reloc_offset self i)
    (reloc_offset self i + 10 * length (sec_relocations sec))
    = reloc_table sec.
Proof.
  intros (r1 & hdrs & r2 & r3 & H1 & H2 & H3 & B1 & L1 & L2 & L3 & Hbuf)
    %emit_body_preserve Hi.
  assert (map_Forall (λ _ v, (v + 40 ≤ length r2)%nat) hdrs) as B2.
  { eapply map_Forall_impl; [done|]. simpl. lia. }
  pose proof (sum_list_with_take_le (λ s, length (sec_data s)) _ _ _ Hi)
    as Hsum.
  pose proof (sum_list_with_take_le (λ s, length (sec_relocations s)) _ _ _ Hi)
    as Hsum'.
  destruct (emit_data_placement _ _ _ _ H2 B1 i sec Hi) as (Hr & Hdata).
  pose proof (emit_relocs_placement _ _ _ _ H3 B2 i sec Hi) as Htbl.
  cbv zeta in Htbl. rewrite L1 in Hr, Hdata. rewrite L2 in Htbl.
  fold (data_offset self i) in Hr, Hdata.
  fold (reloc_offset self i) in Htbl.
  assert (data_offset self i + length (sec_data sec) ≤ length r2)%nat as Hoff.
  { unfold data_offset, data_size in *. lia. }
  assert (20 + 40 * length (sections self) ≤ data_offset self i)%nat as Hoff'.
  { unfold data_offset. lia. }
  assert (reloc_offset self i + 10 * length (sec_relocations sec)
          ≤ length r3)%nat as Hoff''.
  { unfold reloc_offset, symtab_offset, reloc_count in *. lia. }
  split; [done|]. split.
  - rewrite Hbuf by (unfold symtab_offset in *; lia).
    rewrite (emit_relocs_preserve _ _ _ _ _ _ H3 B2); [done | lia |].
    intros sec' h' _ _ Hh'. apply B1 in Hh'. cbv beta in Hh'. lia.
  - rewrite Hbuf by (unfold reloc_offset in *; lia). done.
Qed.

Lemma COFFGenerator_emit_section_body_witness :
  let buf := (emitted (built twin_ops) 1).1 in
  slice buf (data_offset (built twin_ops) 1)
    (data_offset (built twin_ops) 1 + 1) = bytes_of [0xc3].
Proof.
  destruct (COFFGenerator_emit_section_body (built twin_ops) 1
              (emitted (built twin_ops) 1).1 (emitted (built twin_ops) 1).2 1
              {| sec_name := py ".text"; sec_relocations := [];
                 sec_VirtualAddress := 0; sec_characteristics := 0x60000020;
                 sec_data := bytes_of [0xc3] |})
    as (_ & Hdata & _); [vm_compute; reflexivity | reflexivity |].
  exact Hdata.
Defined.

Lemma length_name_field_8 e : length (name_field e) = 8%nat.
Proof. apply length_name_field. Qed.

Lemma section_record_slices sec e :
  slice (section_record sec e) 0 8 = name_field e ∧
  slice (section_record sec e) 8 12
    = le_split 4 (Z.of_nat (length (sec_data sec))) ∧
  slice (section_record sec e) 12 16 = le_split 4 (sec_VirtualAddress sec) ∧
  slice (section_record sec e) 16 20
    = le_split 4 (Z.of_nat (length (sec_data sec))) ∧
  slice (section_record sec e) 20 28 = zeros 8 ∧
  slice (section_record sec e) 26 32 = zeros 6 ∧
  slice (section_record sec e) 32 34
    = le_split 2 (Z.of_nat (length (sec_relocations sec))) ∧
  slice (section_record sec e) 34 36 = zeros 2 ∧
  slice (section_record sec e) 36 40 = le_split 4 (sec_characteristics sec).
Proof.
  unfold section_record. split.
  - rewrite slice_app_l by (rewrite length_name_field_8; lia).
    apply slice_all, length_name_field_8.
  - repeat split;
      (rewrite slice_app_r by (rewrite length_name_field_8; lia));
      rewrite length_name_field_8; reflexivity.
Qed.

(** A part of the header record of the i-th section that no patch of
    [emit] touches holds, in the file returned, what [COFFSection.pack]
    wrote.  The data pointer (bytes 20 to 24 of a record) and the first
    half of the relocation pointer (bytes 24 to 26) are patched, in the
    record of the last section with a given name. *)
Lemma emit_section_record_region self now buf self' i sec a b :
  COFFGenerator_emit self now = Ok (buf, self') →
  sections self !! i = Some sec →
  (b ≤ 40)%nat →
  ((b ≤ 20 ∨ 26 ≤ a)%nat ∨
   ∃ j sec', (i < j)%nat ∧ sections self !! j = Some sec' ∧
     sec_name sec' = sec_name sec) →
  ∃ e, encode (take 8 (sec_name sec)) = Ok e ∧ section_in_range sec ∧
    slice buf (20 + 40 * i + a) (20 + 40 * i + b)
      = slice (section_record sec e) a b.
Proof.
  intros (r1 & hdrs & r2 & r3 & H1 & H2 & H3 & B1 & L1 & L2 & L3 & Hbuf)
    %emit_body_preserve Hi Hb Hfree.
  assert (map_Forall (λ _ v, (v + 40 ≤ length r2)%nat) hdrs) as B2.
  { eapply map_Forall_impl; [done|]. simpl. lia. }
  pose proof (lookup_lt_Some _ _ _ Hi) as Hlt.
  destruct (emit_headers_decompose _ _ _ _ _ H1 i sec Hi)
    as (pre & p & post & Hp & Hr1 & Hpre).
  rewrite length_zeros in Hpre.
  pose proof (COFFSection_pack_length _ _ Hp) as Lp.
  apply COFFSection_pack_Ok in Hp as (e & He & Hrange & Hpe).
  exists e. split; [done|]. split; [done|].
  assert (∀ sec' h', hdrs !! sec_name sec' = Some h' →
            ∃ j', h' = (20 + 40 * j')%nat ∧
              ((b ≤ 20 ∨ 26 ≤ a)%nat ∨ j' ≠ i)) as Hsite.
  { intros sec' h' Hh'.
    destruct (emit_headers_last _ _ _ _ _ H1 _ _ Hh')
      as [[_ Hemp]|(j' & s & Hj' & Hs & -> & Hlast)];
      [by rewrite lookup_empty in Hemp|].
    rewrite length_zeros. exists j'. split; [done|].
    destruct Hfree as [Hfree|(j & sec'' & Hij & Hj & Hname)]; [by left|].
    right. intros ->. assert (s = sec) as -> by congruence.
    apply (Hlast j sec'' Hij Hj). congruence. }
  rewrite Hbuf by (unfold symtab_offset in *; lia).
  rewrite (emit_relocs_preserve _ _ _ _ _ _ H3 B2).
  - rewrite (emit_data_preserve _ _ _ _ _ _ H2 B1).
    + rewrite Hr1, slice_app_r by lia. rewrite Hpre.
      replace (20 + 40 * i + a - (20 + 40 * i))%nat with a by lia.
      replace (20 + 40 * i + b - (20 + 40 * i))%nat with b by lia.
      rewrite slice_app_l by lia. by rewrite Hpe.
    + lia.
    + intros sec' h' _ Hh'. destruct (Hsite _ _ Hh') as (j' & -> & Hc). lia.
  - lia.
  - intros sec' h' _ _ Hh'. destruct (Hsite _ _ Hh') as (j' & -> & Hc). lia.
Qed.

(** Section headers in the file [emit] returns: the 40-byte record of the
    i-th section lies at offset [20 + 40 * i]; apart from its two
    pointers it holds what [COFFSection.pack] wrote: the name field, the
    data size (twice), the virtual address, the relocation count at bytes
    32 to 34 and the characteristics at bytes 36 to 40, with zero bytes
    between.  This holds for every generator. *)
Theorem COFFGenerator_emit_section_header self now buf self' i sec :
  COFFGenerator_emit self now = Ok (buf, self') →
  sections self !! i = Some sec →
  let hdr := (20 + 40 * i)%nat in
  (∃ e, encode (take 8 (sec_name sec)) = Ok e ∧
     slice buf hdr (hdr + 8) = name_field e) ∧
  le_combine (slice buf (hdr + 8) (hdr + 12))
    = Z.of_nat (length (sec_data sec)) ∧
  le_combine (slice buf (hdr + 12) (hdr + 16)) = sec_VirtualAddress sec ∧
  le_combine (slice buf (hdr + 16) (hdr + 20))
    = Z.of_nat (length (sec_data sec)) ∧
  slice buf (hdr + 26) (hdr + 32) = zeros 6 ∧
  le_combine (slice buf (hdr + 32) (hdr + 34))
    = Z.of_nat (length (sec_relocations sec)) ∧
  slice buf (hdr + 34) (hdr + 36) = zeros 2 ∧
  le_combine (slice buf (hdr + 36) (hdr + 40)) = sec_characteristics sec.
Proof.
  intros He Hi. cbv zeta.
  pose proof (λ a b, emit_section_record_region _ _ _ _ i sec a b He Hi)
    as Hreg.
  destruct (Hreg 0%nat 8%nat) as (e & Henc & (Hd & Hva & Hn & Hc) & H0);
    [lia | left; lia|].
  destruct (Hreg 8%nat 12%nat) as (e1 & _ & _ & H1); [lia | left; lia|].
  destruct (Hreg 12%nat 16%nat) as (e2 & _ & _ & H2); [lia | left; lia|].
  destruct (Hreg 16%nat 20%nat) as (e3 & _ & _ & H3); [lia | left; lia|].
  destruct (Hreg 26%nat 32%nat) as (e4 & _ & _ & H4); [lia | left; lia|].
  destruct (Hreg 32%nat 34%nat) as (e5 & _ & _ & H5); [lia | left; lia|].
  destruct (Hreg 34%nat 36%nat) as (e6 & _ & _ & H6); [lia | left; lia|].
  destruct (Hreg 36%nat 40%nat) as (e7 & _ & _ & H7); [lia | left; lia|].
  rewrite Nat.add_0_r in H0. rewrite H0, H1, H2, H3, H4, H5, H6, H7.
  destruct (section_record_slices sec e) as (-> & _).
  destruct (section_record_slices sec e1) as (_ & -> & _).
  destruct (section_record_slices sec e2) as (_ & _ & -> & _).
  destruct (section_record_slices sec e3) as (_ & _ & _ & -> & _).
  destruct (section_record_slices sec e4) as (_ & _ & _ & _ & _ & -> & _).
  destruct (section_record_slices sec e5)
    as (_ & _ & _ & _ & _ & _ & -> & _).
  destruct (section_record_slices sec e6)
    as (_ & _ & _ & _ & _ & _ & _ & -> & _).
  destruct (section_record_slices sec e7)
    as (_ & _ & _ & _ & _ & _ & _ & _ & ->).
  rewrite !le_combine_le_split by (simpl; lia).
  split; [by exists e|]. done.
Qed.

Lemma COFFGenerator_emit_section_header_witness :
  let buf := (emitted example_generator 1700000000).1 in
  le_combine (slice buf (20 + 40 * 0 + 8) (20 + 40 * 0 + 12)) = 18 ∧
  le_combine (slice buf (20 + 40 * 0 + 32) (20 + 40 * 0 + 34)) = 2 ∧
  le_combine (slice buf (20 + 40 * 0 + 36) (20 + 40 * 0 + 40)) = 0x60000020.
Proof.
  destruct (COFFGenerator_emit_section_header example_generator 1700000000
              (emitted example_generator 1700000000).1
              (emitted example_generator 1700000000).2 0
              {| sec_name := py ".text";
                 sec_relocations :=
                   [ {| reloc_VirtualAddress := 7; reloc_SymbolTableIndex := 1;
                        reloc_Type := 4 |};
                     {| reloc_VirtualAddress := 12;
                        reloc_SymbolTableIndex := 2; reloc_Type := 4 |} ];
                 sec_VirtualAddress := 0; sec_characteristics := 0x60000020;
                 sec_data := bytes_of [0x55; 0x48; 0x89; 0xe5; 0x48; 0x8d;
                                       0x0d; 0; 0; 0; 0; 0xe8; 0; 0; 0; 0;
                                       0x5d; 0xc3] |})
    as (_ & Hsize & _ & _ & _ & Hn & _ & Hc);
    [vm_compute; reflexivity | reflexivity |].
  split; [exact Hsize|]. split; [exact Hn | exact Hc].
Defined.

(** Sections of the same name: when a later section has the name of the
    i-th section, both pointers of the i-th header record are zero in the
    file [emit] returns, whatever data and relocations the section
    has. *)
Theorem COFFGenerator_emit_shadowed_section self now buf self' i j sec sec' :
  COFFGenerator_emit self now = Ok (buf, self') →
  sections self !! i = Some sec →
  sections self !! j = Some sec' →
  (i < j)%nat →
  sec_name sec' = sec_name sec →
  slice buf (20 + 40 * i + 20) (20 + 40 * i + 28) = zeros 8.
Proof.
  intros He Hi Hj Hij Hname.
  destruct (emit_section_record_region _ _ _ _ i sec 20 28 He Hi)
    as (e & _ & _ & ->); [lia | right; eauto|].
  by destruct (section_record_slices sec e) as (_ & _ & _ & _ & -> & _).
Qed.

Lemma COFFGenerator_emit_shadowed_section_witness :
  slice (emitted (built twin_ops) 1).1 (20 + 40 * 0 + 20) (20 + 40 * 0 + 28)
  = zeros 8.
Proof.
  apply (COFFGenerator_emit_shadowed_section (built twin_ops) 1
           (emitted (built twin_ops) 1).1 (emitted (built twin_ops) 1).2 0 1
           {| sec_name := py ".text"; sec_relocations := [];
              sec_VirtualAddress := 0; sec_characteristics := 0x60000020;
              sec_data := bytes_of [0x90] |}
           {| sec_name := py ".text"; sec_relocations := [];
              sec_VirtualAddress := 0; sec_characteristics := 0x60000020;
              sec_data := bytes_of [0xc3] |});
    [vm_compute; reflexivity | reflexivity | reflexivity | lia | reflexivity].
Defined.

(** Second loop: the data pointer of a record that no later section
    patches. *)
Lemma emit_data_pointer_last hdrs secs : ∀ r r2,
  foldM (emit_data_step hdrs) r secs = Ok r2 →
  map_Forall (λ _ v, (v + 40 ≤ length r)%nat) hdrs →
  ∀ i sec h, secs !! i = Some sec →
    hdrs !! sec_name sec = Some h →
    (∀ j s h', (i < j)%nat → secs !! j = Some s →
       hdrs !! sec_name s = Some h' →
       (h + 24 ≤ h' + 20 ∨ h' + 24 ≤ h + 20)%nat) →
    slice r2 (h + 20) (h + 24)
    = le_split 4
        (Z.of_nat (length r
                   + sum_list_with (λ s, length (sec_data s)) (take i secs))).
Proof.
  induction secs as [|sec0 secs IH]; intros r r2 H Hb i sec h Hi Hh Hlater;
    [done|].
  apply foldM_cons_Ok in H as (r' & Hs & H).
  pose proof (emit_data_step_length _ _ _ _ Hb Hs) as Hlen.
  assert (map_Forall (λ _ v, (v + 40 ≤ length r')%nat) hdrs) as Hb'.
  { eapply map_Forall_impl; [done|]. simpl. lia. }
  pose proof (Hb _ _ Hh) as Hbh. cbv beta in Hbh.
  destruct i as [|i]; simpl in Hi.
  - injection Hi as <-. cbn [take sum_list_with]. rewrite Nat.add_0_r.
    apply emit_data_step_Ok in Hs as (h0 & Hh0 & Hr & Hr').
    assert (h0 = h) as -> by congruence.
    assert (length (slice_assign r (h + 20) (h + 24)
                      (le_split 4 (Z.of_nat (length r)))) = length r) as Hsa.
    { apply length_slice_assign; rewrite ?length_le_split'; lia. }
    rewrite (emit_data_preserve _ _ _ _ _ _ H Hb').
    + rewrite Hr', slice_app_l by (rewrite Hsa; lia).
      apply slice_slice_assign; [rewrite length_le_split'; lia | lia].
    + lia.
    + intros sec' h' [j Hj]%list_elem_of_lookup Hh'.
      destruct (Hlater (S j) sec' h'); [lia | done | done | lia | lia].
  - rewrite (IH r' r2 H Hb' i sec h Hi Hh).
    + cbn [take sum_list_with]. rewrite Hlen. do 2 f_equal. lia.
    + intros j s h' Hij Hj. apply (Hlater (S j) s h'); [lia | done].
Qed.

(** The data pointer in the file [emit] returns: when no later section
    has the name of the i-th section, bytes 20 to 24 of the i-th header
    record hold the offset at which the data of the i-th section lies. *)
Theorem COFFGenerator_emit_data_pointer self now buf self' i sec :
  COFFGenerator_emit self now = Ok (buf, self') →
  sections self !! i = Some sec →
  (∀ j s, (i < j)%nat → sections self !! j = Some s →
          sec_name s ≠ sec_name sec) →
  le_combine (slice buf (20 + 40 * i + 20) (20 + 40 * i + 24))
    = Z.of_nat (data_offset self i).
Proof.
  intros (r1 & hdrs & r2 & r3 & H1 & H2 & H3 & B1 & L1 & L2 & L3 & Hbuf)
    %emit_body_preserve Hi Hlast.
  assert (map_Forall (λ _ v, (v + 40 ≤ length r2)%nat) hdrs) as B2.
  { eapply map_Forall_impl; [done|]. simpl. lia. }
  pose proof (lookup_lt_Some _ _ _ Hi) as Hlt.
  assert (∀ s h', hdrs !! sec_name s = Some h' →
            ∃ j' s', h' = (20 + 40 * j')%nat ∧
              sections self !! j' = Some s' ∧ sec_name s' = sec_name s ∧
              ∀ j'' s'', (j' < j'')%nat → sections self !! j'' = Some s'' →
                         sec_name s'' ≠ sec_name s) as Hsite.
  { intros s h' Hh'.
    destruct (emit_headers_last _ _ _ _ _ H1 _ _ Hh')
      as [[_ Hemp]|(j' & s' & Hj' & Hs & -> & Hl)];
      [by rewrite lookup_empty in Hemp|].
    rewrite length_zeros. by exists j', s'. }
  destruct (foldM_Ok_each _ _ _ _ H2 sec) as (ra & rb & Hstep);
    [by eapply list_elem_of_lookup_2|].
  apply emit_data_step_Ok in Hstep as (h & Hh & _).
  destruct (Hsite _ _ Hh) as (j' & s' & -> & Hj' & Hs' & Hl').
  assert (j' = i) as ->.
  { destruct (Nat.lt_trichotomy j' i) as [Hlt'|[->|Hgt]]; [|done|].
    - by destruct (Hl' i sec Hlt' Hi).
    - by destruct (Hlast j' s' Hgt Hj'). }
  destruct (emit_data_placement _ _ _ _ H2 B1 i sec Hi) as (Hr & _).
  rewrite L1 in Hr. fold (data_offset self i) in Hr.
  rewrite Hbuf by (unfold symtab_offset in *; lia).
  rewrite (emit_relocs_preserve _ _ _ _ _ _ H3 B2).
  - rewrite (emit_data_pointer_last _ _ _ _ H2 B1 i sec _ Hi Hh).
    + rewrite L1. fold (data_offset self i).
      apply le_combine_le_split. lia.
    + intros j s h' Hij Hj Hh'.
      destruct (Hsite _ _ Hh') as (j2 & s2 & -> & Hj2 & Hs2 & _).
      assert (j2 ≠ i); [|lia].
      intros ->. assert (s2 = sec) as -> by congruence.
      by destruct (Hlast j s Hij Hj).
  - lia.
  - intros s h' _ _ Hh'.
    destruct (Hsite _ _ Hh') as (j2 & s2 & -> & _). lia.
Qed.

Lemma COFFGenerator_emit_data_pointer_witness :
  le_combine (slice (emitted (built twin_ops) 1).1
                (20 + 40 * 1 + 20) (20 + 40 * 1 + 24))
  = Z.of_nat (data_offset (built twin_ops) 1).
Proof.
  apply (COFFGenerator_emit_data_pointer (built twin_ops) 1
           (emitted (built twin_ops) 1).1 (emitted (built twin_ops) 1).2 1
           {| sec_name := py ".text"; sec_relocations := [];
              sec_VirtualAddress := 0; sec_characteristics := 0x60000020;
              sec_data := bytes_of [0xc3] |});
    [vm_compute; reflexivity | reflexivity |].
  intros j s Hij Hj. apply lookup_lt_Some in Hj.
  change (length (sections (built twin_ops))) with 2%nat in Hj. lia.
Defined.

(** ** The hex dump *)

Lemma hex_digit_not_space d : hex_digit d ≠ 32%N.
Proof.
  unfold hex_digit.
  do 16 (destruct d as [|d]; [by vm_compute|]).
  by destruct d; vm_compute.
Qed.

Lemma hex_digits_no_space fuel : ∀ n acc,
  Forall (λ c, c ≠ 32%N) acc → Forall (λ c, c ≠ 32%N) (hex_digits fuel n acc).
Proof.
  induction fuel as [|fuel IH]; intros n acc Hacc; [done|].
  cbn [hex_digits]. cbv zeta.
  assert (Forall (λ c, c ≠ 32%N) (hex_digit (n mod 16) :: acc)) as Hacc'.
  { constructor; [apply hex_digit_not_space | done]. }
  destruct (n / 16 =? 0)%nat; [done | by apply IH].
Qed.

Lemma format_0x_no_space width n : Forall (λ c, c ≠ 32%N) (format_0x width n).
Proof.
  unfold format_0x. apply Forall_app. split.
  - by apply Forall_replicate.
  - by apply hex_digits_no_space.
Qed.

Lemma after_space_prefix p s :
  Forall (λ c, c ≠ 32%N) p → after_space (p ++ 32%N :: s) = s.
Proof.
  induction 1 as [|c p Hc _ IH]; [done|].
  cbn [app after_space]. by apply N.eqb_neq in Hc as ->.
Qed.

Lemma format_0x_byte b :
  let f := format_0x 2 (Z.to_nat (byte.unsigned b)) in
  f = [nth 0 f 0%N; nth 1 f 0%N] ∧
  byte.of_Z (16 * hex_value (nth 0 f 0%N) + hex_value (nth 1 f 0%N)) = b.
Proof. by destruct b; vm_compute. Qed.

Lemma read_hex_bytes_join chunk :
  read_hex_bytes
    (join (py " ") (map (λ b, format_0x 2 (Z.to_nat (byte.unsigned b))) chunk))
  = chunk.
Proof.
  induction chunk as [|b chunk IH]; [done|].
  destruct (format_0x_byte b) as [Hf Hb]. cbv zeta in Hf, Hb.
  cbn [map join]. destruct chunk as [|b' chunk].
  - cbn [map]. rewrite Hf. cbn [read_hex_bytes]. by rewrite Hb.
  - cbn [map] in IH |- *. rewrite Hf.
    change (py " ") with [32%N]. cbn [app read_hex_bytes].
    rewrite Hb. f_equal. exact IH.
Qed.

Lemma chunks_concat (data : bytes) m :
  concat (map (λ i, slice data i (i + 16)) (map (λ k, (k * 16)%nat) (seq 0 m)))
  = take (m * 16) data.
Proof.
  induction m as [|m IH]; [done|].
  rewrite seq_S, !map_app, concat_app, IH. cbn [map concat Nat.add].
  rewrite app_nil_r. unfold slice.
  replace (m * 16 + 16 - m * 16)%nat with 16%nat by lia.
  rewrite take_take_drop. f_equal. lia.
Qed.

Lemma printBytes_lookup data k line :
  printBytes data !! k = Some line →
  (16 * k < length data)%nat ∧
  line = format_0x 4 (16 * k) ++ py ": "
         ++ join (py " ")
              (map (λ b, format_0x 2 (Z.to_nat (byte.unsigned b)))
                 (slice data (16 * k) (16 * k + 16))).
Proof.
  unfold printBytes, range_step.
  change (map ?f ?l) with (f <$> l). rewrite !list_lookup_fmap.
  destruct (seq 0 ((length data + 16 - 1) / 16) !! k) as [i|] eqn:Hk;
    [|discriminate].
  apply lookup_seq in Hk as [-> Hlt]. cbn [fmap option_fmap option_map].
  intros [= <-]. rewrite (Nat.mul_comm k 16). split; [|done].
  pose proof (Nat.div_mod_eq (length data + 16 - 1) 16) as Hd.
  pose proof (Nat.mod_upper_bound (length data + 16 - 1) 16) as Hm. lia.
Qed.

Lemma read_line_chunk i chunk :
  read_hex_bytes
    (after_space
       (format_0x 4 i ++ py ": "
        ++ join (py " ")
             (map (λ b, format_0x 2 (Z.to_nat (byte.unsigned b))) chunk)))
  = chunk.
Proof.
  change (py ": ") with [58%N; 32%N].
  change (format_0x 4 i ++ [58%N; 32%N] ++ ?h)
    with (format_0x 4 i ++ 58%N :: 32%N :: h).
  rewrite (app_assoc _ [58%N] (32%N :: _) : _ ++ 58%N :: 32%N :: _ = _).
  rewrite after_space_prefix; [apply read_hex_bytes_join|].
  apply Forall_app. split; [apply format_0x_no_space|].
  by constructor.
Qed.

(** The dump [printBytes(data)] prints.  It has one line for every 16
    bytes of [data], and one more for a remainder: no line for empty
    data.  Line k is the offset [16 * k] in at least four hexadecimal
    digits, a colon and a space, then the bytes 16 k to 16 k + 16 of the
    data (16 bytes, or the remainder on the last line, never none) as
    pairs of hexadecimal digits with a space between two pairs.  Reading
    the pairs of a line back gives these bytes, and reading all lines
    back gives [data]: the dump loses nothing. *)
Theorem printBytes_read_dump data :
  printBytes [] = [] ∧
  length (printBytes data) = ((length data + 15) / 16)%nat ∧
  (∀ k line, printBytes data !! k = Some line →
     let chunk := slice data (16 * k) (16 * k + 16) in
     line = format_0x 4 (16 * k) ++ py ": "
            ++ join (py " ")
                 (map (λ b, format_0x 2 (Z.to_nat (byte.unsigned b))) chunk) ∧
     length chunk = (16 `min` (length data - 16 * k))%nat ∧
     (0 < length chunk)%nat ∧
     read_hex_bytes (after_space line) = chunk) ∧
  read_dump (printBytes data) = data.
Proof.
  split; [done|]. split; [|split].
  - unfold printBytes, range_step. rewrite !length_map, length_seq.
    f_equal. lia.
  - intros k line [Hlt ->]%printBytes_lookup. cbv zeta.
    assert (length (slice data (16 * k) (16 * k + 16))
            = (16 `min` (length data - 16 * k))%nat) as Hlen.
    { unfold slice. rewrite length_take, length_drop. lia. }
    split; [done|]. split; [done|]. split; [lia|].
    apply read_line_chunk.
  - unfold read_dump, printBytes, range_step.
    rewrite List.map_map.
    rewrite (List.map_ext _ (λ i, slice data i (i + 16))).
    + rewrite chunks_concat. apply take_ge.
      pose proof (Nat.div_mod_eq (length data + 16 - 1) 16) as Hd.
      pose proof (Nat.mod_upper_bound (length data + 16 - 1) 16) as Hm. lia.
    + intros i. cbv zeta. apply read_line_chunk.
Qed.
